(** * LPub3D: the meta-command leaves and the parts-list layout engine

    A shallow embedding of the meta-command parse tree of [meta.cpp]
    (the leaves [IntMeta], [FloatMeta], [BoolMeta], [StringMeta],
    [PlacementMeta], [BackgroundMeta], [BorderMeta], [FreeFormMeta],
    [PointerMeta]-style location handling and [BranchMeta::parse]) and of the
    parts-list engine of [pli.cpp] ([Pli::sortParts], the split-BOM part of
    [Pli::setParts], [Pli::placePli] and [Pli::resizePli]), followed by the
    properties of the specification that were checked against them.  Parts V
    and VI add [AllocMeta], [PageOrientationMeta], [ConstrainMeta],
    [Pli::placeCols], [Pli::sizePli], [Pli::getLeftEdge] and
    [Pli::getRightEdge] and further properties read off the code.

    Conventions.  C++ [int] values are integers in [Z]; signed overflow is
    undefined behaviour in C++ and is not modelled.  A [QStringList] is a
    [list string]; [argv[i]] outside the list is an access violation and is
    modelled by the [Crash] outcome.  A [QHash<QString,T>] is a
    [gmap string T]; the order in which [QHash::keys()] lists the keys is
    unspecified and enters as a parameter.  In [placePli] a read of
    [keys[i]] past the end of the key list, and a write through the null
    pointer that [QHash::operator[]] inserts for a key the hash lacks,
    have no result: the function is [None] there. *)

From Stdlib Require Import ZArith QArith Qround Lia Ascii.
From Stdlib Require OrderedTypeEx.
From stdpp Require Import gmap strings list fin_maps sorting.

Local Close Scope Q_scope.
Local Open Scope string_scope.
Local Open Scope Z_scope.
Local Open Scope list_scope.

(** ** Outcomes of code that indexes a token list *)

(** [QList::operator[]] asserts that the index is in range; an access
    outside the list has no defined result.  [Crash i] records such an
    access at index [i]. *)
Inductive outcome (A : Type) : Type :=
| Done (a : A)
| Crash (i : Z).
Arguments Done {A} a.
Arguments Crash {A} i.

#[global] Instance outcome_ret : MRet outcome := fun A a => Done a.
#[global] Instance outcome_bind : MBind outcome := fun A B f m =>
  match m with
  | Done a => f a
  | Crash i => Crash i
  end.

(** [argv[i]] *)
Definition tok (argv : list string) (i : Z) : outcome string :=
  if decide (0 <= i) then
    match argv !! Z.to_nat i with
    | Some s => Done s
    | None => Crash i
    end
  else Crash i.

(** [argv.size()] *)
Definition size_of {A : Type} (l : list A) : Z := Z.of_nat (length l).

(** A [QRegExp] of the form [^(A|B|...)$] matches exactly the listed
    words. *)
Definition one_of (s : string) (words : list string) : bool :=
  bool_decide (s ∈ words).

(** * Part I: the meta-command tree ([meta.cpp]) *)

Module Meta.

(** ** Library functions and declarations the leaves rely on *)

(** The conversions of [QString] and the helpers of [meta.h] used by the
    leaves.  They belong to Qt or to headers outside the modelled sources
    and are taken as parameters; [float] stands for the C++ [float] values
    the conversions produce. *)
Class Ext : Type := {
  float : Type;
  fzero : float;                         (* the constant 0 *)
  flt : float -> float -> bool;          (* operator< on float *)
  toInt : string -> option Z;            (* QString::toInt(&ok) *)
  toFloat : string -> option float;      (* QString::toFloat(&ok) *)
  toUIntHex : string -> option Z;        (* QString::toUInt(&ok,16) *)
  float_of_int : Z -> float;             (* implicit int -> float *)
  int_of_float : float -> Z;             (* implicit float -> int *)
  setBorderLine : string -> Z;           (* BorderMeta::setBorderLine *)
}.

(** Modelled from the spec: the result codes [Rc] are declared in [meta.h],
    which is not among the sources.  The spec distinguishes a uniform
    failure code, an out-of-range code, a plain "accepted" code and action
    codes; action codes are kept by number. *)
Inductive Rc : Type :=
| FailureRc
| RangeErrorRc
| OkRc
| ActionRc (code : Z).

#[global] Instance Rc_eq_dec : EqDecision Rc.
Proof. solve_decision. Defined.

(** Source location: model name and line number. *)
Record Where : Type := mkWhere { modelName : string; lineNumber : Z }.

#[global] Instance Where_eq_dec : EqDecision Where.
Proof. solve_decision. Defined.

(** The two-element arrays [_value[2]] and [_here[2]], indexed by the
    boolean [pushed]. *)
Record slots (A : Type) : Type := Slots { slot0 : A; slot1 : A }.
Arguments Slots {A} slot0 slot1.
Arguments slot0 {A} s.
Arguments slot1 {A} s.

Definition rd {A : Type} (s : slots A) (pushed : bool) : A :=
  if pushed then slot1 s else slot0 s.

Definition wr {A : Type} (s : slots A) (pushed : bool) (a : A) : slots A :=
  if pushed then Slots (slot0 s) a else Slots a (slot1 s).

(** Modelled from the spec: the class template [LeafMeta] is declared in
    [meta.h], which is not among the sources.  Following the spec's data
    model, a leaf has its accumulated [preamble], the scope flags [pushed]
    and [global], and two value slots with one source location each;
    slot 0 is the global/default one, slot 1 the local override, and
    [pushed] selects the active slot. *)
Record LeafMeta (T : Type) : Type := mkLeaf {
  preamble : string;
  pushed : bool;
  global : bool;
  _value : slots T;
  _here : slots Where;
}.
Arguments mkLeaf {T} preamble pushed global _value _here.
Arguments preamble {T} l.
Arguments pushed {T} l.
Arguments global {T} l.
Arguments _value {T} l.
Arguments _here {T} l.

Section Leaves.
Context {T : Type}.

(** [value()]: the active value. *)
Definition value (m : LeafMeta T) : T := rd (_value m) (pushed m).

(** [here()]: the active source location. *)
Definition here_of (m : LeafMeta T) : Where := rd (_here m) (pushed m).

(** [_value[pushed] = v] *)
Definition set_value (m : LeafMeta T) (v : T) : LeafMeta T :=
  mkLeaf (preamble m) (pushed m) (global m) (wr (_value m) (pushed m) v) (_here m).

(** [_here[pushed] = here] *)
Definition set_here (m : LeafMeta T) (here : Where) : LeafMeta T :=
  mkLeaf (preamble m) (pushed m) (global m) (_value m) (wr (_here m) (pushed m) here).

(** [pushed = b] and [global = b], as [BranchMeta::parse] assigns them. *)
Definition set_pushed (m : LeafMeta T) (b : bool) : LeafMeta T :=
  mkLeaf (preamble m) b (global m) (_value m) (_here m).

Definition set_global (m : LeafMeta T) (b : bool) : LeafMeta T :=
  mkLeaf (preamble m) (pushed m) b (_value m) (_here m).

(** [LeafMeta::format(local,global,suffix)] *)
Definition LeafMeta_format (local global : bool) (suffix : string) (m : LeafMeta T) : string :=
  let result := if local then "LOCAL " else if global then "GLOBAL " else "" in
  preamble m +:+ result +:+ suffix.

End Leaves.

(** The diagnostic of a failed parse: when [reportErrors] is set the
    message box quotes [argv[index]]. *)
Definition report (reportErrors : bool) (argv : list string) (index : Z) : outcome unit :=
  if reportErrors then _ ← tok argv index; mret tt else mret tt.

(** Modelled from the spec: the tokenizer [split(line, argv)] is not among
    the sources.  The spec has it cut a line at white space, a quoted
    segment counting as one token; for text without quotes that is
    [String.words]. *)
Definition split_line (line : string) : list string := String.words line.

Section Parsers.
Context `{E : Ext}.
Variable reportErrors : bool.

(** ** [IntMeta] *)

Definition IntMeta_parse (_min _max : Z) (rc : Rc)
    (argv : list string) (index : Z) (here : Where) (m : LeafMeta Z)
    : outcome (Rc * LeafMeta Z) :=
  r ← (if decide (index = size_of argv - 1) then
         s ← tok argv index;
         match toInt s with
         | Some v =>
             if (v <? _min) || (v >? _max) then mret (Some (RangeErrorRc, m))
             else mret (Some (rc, set_here (set_value m v) here))
         | None => mret None
         end
       else mret None);
  match r with
  | Some res => mret res
  | None => _ ← report reportErrors argv index; mret (FailureRc, m)
  end.

(** [IntMeta::format].  The source reads
    [QString foo; foo.arg(_value[pushed],0,base);]: [QString::arg] returns
    the substituted copy, which is dropped, and [foo] has no place marker
    to begin with; [foo] is still empty when it is handed on. *)
Definition IntMeta_format (local global : bool) (m : LeafMeta Z) : string :=
  let foo := "" in
  LeafMeta_format local global foo m.

(** ** [FloatMeta] *)

Definition FloatMeta_parse (_min _max : float) (rc : Rc)
    (argv : list string) (index : Z) (here : Where) (m : LeafMeta float)
    : outcome (Rc * LeafMeta float) :=
  let size := size_of argv in
  r ← (if decide (index = size - 1) then
         s ← tok argv index;
         match toFloat s with
         | Some v =>
             if flt v _min || flt _max v then mret (Some (RangeErrorRc, m))
             else mret (Some (rc, set_here (set_value m v) here))
         | None => mret None
         end
       else mret None);
  match r with
  | Some res => mret res
  | None => _ ← report reportErrors argv index; mret (FailureRc, m)
  end.

(** ** [FloatPairMeta] *)

Definition FloatPairMeta_parse (_min _max : float) (rc : Rc)
    (argv : list string) (index : Z) (here : Where) (m : LeafMeta (float * float))
    : outcome (Rc * LeafMeta (float * float)) :=
  r ← (if decide (size_of argv - index = 2) then
         s0 ← tok argv index;
         s1 ← tok argv (index + 1);
         match toFloat s0, toFloat s1 with
         | Some v0, Some v1 =>
             if flt v0 _min || flt _max v0 || flt v1 _min || flt _max v1
             then mret (Some (RangeErrorRc, m))
             else mret (Some (rc, set_here (set_value m (v0, v1)) here))
         | _, _ => mret None
         end
       else mret None);
  match r with
  | Some res => mret res
  | None =>
      _ ← (if reportErrors then _ ← tok argv index; _ ← tok argv (index + 1); mret tt
           else mret tt);
      mret (FailureRc, m)
  end.

(** ** [StringMeta] *)

Definition StringMeta_parse (rc : Rc)
    (argv : list string) (index : Z) (here : Where) (m : LeafMeta string)
    : outcome (Rc * LeafMeta string) :=
  if decide (size_of argv - index = 1) then
    s ← tok argv index;
    mret (rc, set_here (set_value m s) here)
  else mret (FailureRc, m).

Definition StringMeta_format (delim : string) (local global : bool) (m : LeafMeta string) : string :=
  let foo := delim +:+ value m +:+ delim in
  LeafMeta_format local global foo m.

(** ** [StringListMeta] *)

Definition StringListMeta_parse (rc : Rc)
    (argv : list string) (index : Z) (here : Where) (m : LeafMeta (list string))
    : outcome (Rc * LeafMeta (list string)) :=
  (* the loop [for (i = index; i < argv.size(); i++)] appends argv[i] *)
  let rest := if decide (0 <= index) then drop (Z.to_nat index) argv else argv in
  mret (rc, set_here (set_value m rest) here).

(** ** [BoolMeta] *)

Definition BoolMeta_parse
    (argv : list string) (index : Z) (here : Where) (m : LeafMeta bool)
    : outcome (Rc * LeafMeta bool) :=
  r ← (if decide (index = size_of argv - 1) then
         s ← tok argv index;
         if one_of s ["TRUE"; "FALSE"]
         then mret (Some (OkRc, set_here (set_value m (bool_decide (s = "TRUE"))) here))
         else mret None
       else mret None);
  match r with
  | Some res => mret res
  | None => _ ← report reportErrors argv index; mret (FailureRc, m)
  end.

Definition BoolMeta_format (local global : bool) (m : LeafMeta bool) : string :=
  let foo := if value m then "TRUE" else "FALSE" in
  LeafMeta_format local global foo m.


(** ** [PlacementMeta] *)

(** The enumerations of [metatypes.h]. *)
Inductive PlacementEnc : Type :=
| TopLeft | Top | TopRight | Right | BottomRight | Bottom | BottomLeft | Left | Center.

Inductive PrepositionEnc : Type := Inside | Outside.

#[global] Instance PlacementEnc_eq_dec : EqDecision PlacementEnc.
Proof. solve_decision. Defined.
#[global] Instance PrepositionEnc_eq_dec : EqDecision PrepositionEnc.
Proof. solve_decision. Defined.

(** [RectPlacement] and [PlacementType] values are produced by casts from
    [int] ([RectPlacement(i)], [PlacementType(tokenMap[..])]) and are kept
    as their enumeration codes. *)
Definition TopLeftOutsideCorner : Z := 0.
Definition TopLeftOutside : Z := 1.
Definition TopOutside : Z := 2.
Definition TopRightOutSide : Z := 3.
Definition TopRightOutsideCorner : Z := 4.
Definition LeftTopOutside : Z := 5.
Definition TopLeftInsideCorner : Z := 6.
Definition TopInside : Z := 7.
Definition TopRightInsideCorner : Z := 8.
Definition RightTopOutside : Z := 9.
Definition LeftOutside : Z := 10.
Definition LeftInside : Z := 11.
Definition CenterCenter : Z := 12.
Definition RightInside : Z := 13.
Definition RightOutside : Z := 14.
Definition LeftBottomOutside : Z := 15.
Definition BottomLeftInsideCorner : Z := 16.
Definition BottomInside : Z := 17.
Definition BottomRightInsideCorner : Z := 18.
Definition RightBottomOutside : Z := 19.
Definition BottomLeftOutsideCorner : Z := 20.
Definition BottomLeftOutside : Z := 21.
Definition BottomOutside : Z := 22.
Definition BottomRightOutside : Z := 23.
Definition BottomRightOutsideCorner : Z := 24.
Definition NumSpots : Z := 25.

Definition PageType : Z := 0.
Definition CsiType : Z := 1.
Definition StepGroupType : Z := 2.
Definition StepNumberType : Z := 3.
Definition PartsListType : Z := 4.
Definition CalloutType : Z := 5.
Definition PageNumberType : Z := 6.
Definition PageTitleType : Z := 7.
Definition PageModelNameType : Z := 8.
Definition PageAuthorType : Z := 9.
Definition PageURLType : Z := 10.
Definition PageModelDescType : Z := 11.
Definition PagePublishDescType : Z := 12.
Definition PageCopyrightType : Z := 13.
Definition PageEmailType : Z := 14.
Definition PageDisclaimerType : Z := 15.
Definition PagePiecesType : Z := 16.
Definition PagePlugType : Z := 17.
Definition PageCategoryType : Z := 18.
Definition PageDocumentLogoType : Z := 19.
Definition PageCoverImageType : Z := 20.
Definition PagePlugImageType : Z := 21.
Definition PageHeaderType : Z := 22.
Definition PageFooterType : Z := 23.
Definition RotateIconType : Z := 24.
Definition PagePointerType : Z := 25.

(** The global [tokenMap] as [Meta::init] fills it, with the enumeration
    codes of [metatypes.h]. *)
Definition tokenMap : gmap string Z :=
  list_to_map
    [ ("TOP_LEFT", 0); ("TOP", 1); ("TOP_RIGHT", 2); ("RIGHT", 3);
      ("BOTTOM_RIGHT", 4); ("BOTTOM", 5); ("BOTTOM_LEFT", 6); ("LEFT", 7);
      ("CENTER", 8);
      ("INSIDE", 0); ("OUTSIDE", 1);
      ("PAGE", PageType); ("ASSEM", CsiType); ("MULTI_STEP", StepGroupType);
      ("STEP_GROUP", StepGroupType); ("STEP_NUMBER", StepNumberType);
      ("PLI", PartsListType); ("PAGE_NUMBER", PageNumberType);
      ("CALLOUT", CalloutType);
      ("SORT_BY", 3); ("ANNOTATION", 3);
      ("ROTATE_ICON", RotateIconType); ("PAGE_POINTER", PagePointerType);
      ("DOCUMENT_TITLE", PageTitleType); ("MODEL_ID", PageModelNameType);
      ("DOCUMENT_AUTHOR", PageAuthorType); ("PUBLISH_URL", PageURLType);
      ("MODEL_DESCRIPTION", PageModelDescType);
      ("PUBLISH_DESCRIPTION", PagePublishDescType);
      ("PUBLISH_COPYRIGHT", PageCopyrightType); ("PUBLISH_EMAIL", PageEmailType);
      ("LEGO_DISCLAIMER", PageDisclaimerType); ("MODEL_PIECES", PagePiecesType);
      ("APP_PLUG", PagePlugType); ("MODEL_CATEGORY", PageCategoryType);
      ("DOCUMENT_LOGO", PageDocumentLogoType);
      ("DOCUMENT_COVER_IMAGE", PageCoverImageType);
      ("APP_PLUG_IMAGE", PagePlugImageType); ("PAGE_HEADER", PageHeaderType);
      ("PAGE_FOOTER", PageFooterType);
      ("AREA", 0); ("SQUARE", 1); ("WIDTH", 2); ("HEIGHT", 3); ("COLS", 4);
      ("HORIZONTAL", 0); ("VERTICAL", 1);
      ("PORTRAIT", 0); ("LANDSCAPE", 1);
      ("BASE_TOP_LEFT", TopLeftInsideCorner); ("BASE_TOP", TopInside);
      ("BASE_TOP_RIGHT", TopRightInsideCorner); ("BASE_LEFT", LeftInside);
      ("BASE_CENTER", CenterCenter); ("BASE_RIGHT", RightInside);
      ("BASE_BOTTOM_LEFT", BottomLeftInsideCorner); ("BASE_BOTTOM", BottomInside);
      ("BASE_BOTTOM_RIGHT", BottomRightInsideCorner) ].

(** [tokenMap[key]]: [QHash::operator[]] yields the default value 0 for a
    key that is not present (and records that entry, which no later lookup
    can tell from absence). *)
Definition tokenMap_at (key : string) : Z := default 0 (tokenMap !! key).

Definition placementOptions : list (string * string * string) :=
  [ ("TOP_LEFT",    "",       "OUTSIDE");
    ("TOP",         "LEFT",   "OUTSIDE");
    ("TOP",         "CENTER", "OUTSIDE");
    ("TOP",         "RIGHT",  "OUTSIDE");
    ("TOP_RIGHT",   "",       "OUTSIDE");

    ("LEFT",        "TOP",    "OUTSIDE");
    ("TOP_LEFT",    "",       "INSIDE");
    ("TOP",         "",       "INSIDE");
    ("TOP_RIGHT",   "",       "INSIDE");
    ("RIGHT",       "TOP",    "OUTSIDE");

    ("LEFT",        "CENTER", "OUTSIDE");
    ("LEFT",        "",       "INSIDE");
    ("CENTER",      "",       "INSIDE");
    ("RIGHT",       "",       "INSIDE");
    ("RIGHT",       "CENTER", "OUTSIDE");

    ("LEFT",        "BOTTOM", "OUTSIDE");
    ("BOTTOM_LEFT", "",       "INSIDE");
    ("BOTTOM",      "",       "INSIDE");
    ("BOTTOM_RIGHT","",       "INSIDE");
    ("RIGHT",       "BOTTOM", "OUTSIDE");

    ("BOTTOM_LEFT", "",       "OUTSIDE");
    ("BOTTOM",      "LEFT",   "OUTSIDE");
    ("BOTTOM",      "CENTER", "OUTSIDE");
    ("BOTTOM",      "RIGHT",  "OUTSIDE");
    ("BOTTOM_RIGHT","",       "OUTSIDE") ].

Definition placementDecode : list (PlacementEnc * PlacementEnc * PrepositionEnc) :=
  [ (TopLeft,     Center, Outside);
    (Top,         Left,   Outside);
    (Top,         Center, Outside);
    (Top,         Right,  Outside);
    (TopRight,    Center, Outside);

    (Left,        Top,    Outside);
    (TopLeft,     Center, Inside);
    (Top,         Center, Inside);
    (TopRight,    Center, Inside);
    (Right,       Top,    Outside);

    (Left,        Center, Outside);
    (Left,        Center, Inside);
    (Center,      Center, Inside);
    (Right,       Center, Inside);
    (Right,       Center, Outside);

    (Left,        Bottom, Outside);
    (BottomLeft,  Center, Inside);
    (Bottom,      Center, Inside);
    (BottomRight, Center, Inside);
    (Right,       Bottom, Outside);

    (BottomLeft,  Center, Outside);
    (Bottom,      Left,   Outside);
    (Bottom,      Center, Outside);
    (Bottom,      Right,  Outside);
    (BottomRight, Center, Outside) ].

Definition relativeTos : list string :=
  [ "PAGE"; "ASSEM"; "MULTI_STEP"; "STEP_NUMBER"; "PLI"; "CALLOUT"; "PAGE_NUMBER";
    "DOCUMENT_TITLE"; "MODEL_ID"; "DOCUMENT_AUTHOR"; "PUBLISH_URL"; "MODEL_DESCRIPTION";
    "PUBLISH_DESCRIPTION"; "PUBLISH_COPYRIGHT"; "PUBLISH_EMAIL"; "LEGO_DISCLAIMER";
    "MODEL_PIECES"; "APP_PLUG"; "MODEL_CATEGORY"; "DOCUMENT_LOGO"; "DOCUMENT_COVER_IMAGE";
    "APP_PLUG_IMAGE"; "PAGE_HEADER"; "PAGE_FOOTER"; "ROTATE_ICON"; "PAGE_POINTER";
    "ONETOONE"; "PARTID"; "SUBMODEL"; "ILLUSTRATION"; "RIGHTWRONG"; "STICKER" ].

Record PlacementData : Type := mkPlacementData {
  placement : PlacementEnc;
  justification : PlacementEnc;
  relativeTo : Z;
  preposition : PrepositionEnc;
  rectPlacement : Z;
  offsets : float * float;
}.

(** The constructor's value for slot 0. *)
Definition PlacementData_init : PlacementData :=
  mkPlacementData TopLeft Center PageType Inside TopLeftInsideCorner (fzero, fzero).

(** [placementDecode[placement]] *)
Definition decode_row (placement : Z) : PlacementEnc * PlacementEnc * PrepositionEnc :=
  default (TopLeft, Center, Outside) (placementDecode !! Z.to_nat placement).

(** [PlacementMeta::setValue(placement, relativeTo)] *)
Definition PlacementMeta_setValue (placement : Z) (relTo : Z)
    (m : LeafMeta PlacementData) : LeafMeta PlacementData :=
  let '(p, j, pr) := decode_row placement in
  set_value m (mkPlacementData p j relTo pr placement (offsets (value m))).

Definition set_offsets (m : LeafMeta PlacementData) (o : float * float)
    : LeafMeta PlacementData :=
  let v := value m in
  set_value m (mkPlacementData (placement v) (justification v) (relativeTo v)
                               (preposition v) (rectPlacement v) o).

(** The loop [for (i = 0; i < NumSpots; i++)] over [placementOptions]:
    the index of the first matching row, [NumSpots] when there is none. *)
Fixpoint find_spot (rows : list (string * string * string)) (i : Z)
    (placement justification preposition : string) : Z :=
  match rows with
  | [] => i
  | (p, j, pr) :: rows' =>
      if decide (p = placement ∧ j = justification ∧ pr = preposition) then i
      else find_spot rows' (i + 1) placement justification preposition
  end.

(** The first part of [PlacementMeta::parse] after the OFFSET clause: which
    of the three shapes the tokens have.  The result is [None] for the
    early [return rc], otherwise the placement and justification words, the
    advanced index and [rc]. *)
Definition placement_shape (argv : list string) (index : Z)
    : outcome (option (string * string * Z * Rc)) :=
  let argc := size_of argv in
  let second (placement : string) (index : Z) (justs : list string) :=
    if decide (index < argc) then
      b ← tok argv index;
      if one_of b justs then mret (Some (placement, b, index + 1, OkRc))
      else if one_of b relativeTos then mret (Some (placement, "", index, OkRc))
      else mret (Some (placement, "", index, FailureRc))
    else mret (Some (placement, "", index, FailureRc)) in
  a ← tok argv index;
  if one_of a ["TOP"; "BOTTOM"] then second a (index + 1) ["LEFT"; "CENTER"; "RIGHT"]
  else if one_of a ["LEFT"; "RIGHT"] then second a (index + 1) ["TOP"; "CENTER"; "BOTTOM"]
  else if one_of a ["TOP_LEFT"; "TOP_RIGHT"; "BOTTOM_LEFT"; "BOTTOM_RIGHT"; "CENTER"]
  then mret (Some (a, "", index + 1, OkRc))
  else mret None.

(** The tokens after the placement words: relative-to type, preposition
    and the optional pair of offsets. *)
Definition placement_tail (argv : list string) (index : Z)
    : outcome (string * string * (float * float)) :=
  let argc := size_of argv in
  c ← tok argv index;
  if one_of c relativeTos then
    let index := index + 1 in
    if decide (index < argc) then
      d ← tok argv index;
      let '(prep, index) :=
        if one_of d ["INSIDE"; "OUTSIDE"] then (d, index + 1) else ("", index) in
      offs ← (if decide (argc - index = 2) then
                s0 ← tok argv index;
                s1 ← tok argv (index + 1);
                match toFloat s0, toFloat s1 with
                | Some f0, Some f1 => mret (f0, f1)
                | _, _ => mret (fzero, fzero)
                end
              else mret (fzero, fzero));
      mret (c, prep, offs)
    else mret (c, "", (fzero, fzero))
  else mret ("", "", (fzero, fzero)).

Definition PlacementMeta_parse
    (argv : list string) (index : Z) (here : Where) (m : LeafMeta PlacementData)
    : outcome (Rc * LeafMeta PlacementData) :=
  let argc := size_of argv in
  a0 ← tok argv index;
  (* OFFSET <fx> <fy> only updates the offsets *)
  r ← (if decide (a0 = "OFFSET") then
         let index := index + 1 in
         if decide (argc - index = 2) then
           s0 ← tok argv index;
           s1 ← tok argv (index + 1);
           match toFloat s0, toFloat s1 with
           | Some f0, Some f1 => mret (inl (OkRc, set_here (set_offsets m (f0, f1)) here))
           | _, _ => mret (inr index)
           end
         else mret (inr index)
       else mret (inr index));
  match r with
  | inl res => mret res
  | inr index =>
      sh ← placement_shape argv index;
      match sh with
      | None => mret (FailureRc, m)
      | Some (placement, justification, index, rc) =>
          if decide (rc = OkRc ∧ index < argc) then
            '(relTo, prep, offs) ← placement_tail argv index;
            let justification :=
              if decide (prep = "INSIDE" ∧ justification = "CENTER") then ""
              else justification in
            let i := find_spot placementOptions 0 placement justification prep in
            if decide (i = NumSpots) then mret (FailureRc, m)
            else
              let m := PlacementMeta_setValue i (tokenMap_at relTo) m in
              let m := set_offsets m offs in
              mret (rc, set_here m here)
          else mret (rc, m)
      end
  end.


(** ** [BackgroundMeta] *)

Inductive Background : Type :=
| BgTransparent | BgColor | BgGradient | BgImage | BgSubmodelColor.

Record BackgroundData : Type := mkBackgroundData {
  bg_type : Background;
  gmode : Z;
  gspread : Z;
  gtype : Z;
  gstops : list (float * Z);     (* position and the rgba of the colour *)
  gpoints : list (Z * Z);        (* QPointF built from two ints *)
  gsize : float * float;
  gangle : float;
  bg_string : string;
  stretch : bool;
}.

(** [QString::split(sep)] (empty parts are kept) and
    [QString::section(sep,k,k)], the k-th field. *)
Fixpoint split_go (sep : Ascii.ascii) (cur : string) (s : string) : list string :=
  match s with
  | EmptyString => [String.rev cur]
  | String c s' =>
      if decide (c = sep) then String.rev cur :: split_go sep "" s'
      else split_go sep (String c cur) s'
  end.

Definition split (sep : Ascii.ascii) (s : string) : list string := split_go sep "" s.

Definition section (sep : Ascii.ascii) (k : nat) (s : string) : string :=
  default "" (split sep s !! k).

(** The two [Q_FOREACH] loops of the gradient branch: the converted items
    and whether every item converted ([pass]). *)
Fixpoint scan_points (items : list string) : list (Z * Z) * bool :=
  match items with
  | [] => ([], true)
  | gpoint :: rest =>
      let '(pts, pass) := scan_points rest in
      match toFloat (section ","%char 0 gpoint), toFloat (section ","%char 1 gpoint) with
      | Some x, Some y => ((int_of_float x, int_of_float y) :: pts, pass)
      | _, _ => (pts, false)
      end
  end.

Fixpoint scan_stops (items : list string) : list (float * Z) * bool :=
  match items with
  | [] => ([], true)
  | gstop :: rest =>
      let '(stops, pass) := scan_stops rest in
      match toFloat (section ","%char 0 gstop), toUIntHex (section ","%char 1 gstop) with
      | Some point, Some rgba => ((point, rgba) :: stops, pass)
      | _, _ => (stops, false)
      end
  end.

(** A [switch] whose cases 0, 1 and 2 assign the matching enumerator and
    whose other values leave the field as it is. *)
Definition switch012 (v old : Z) : Z :=
  if decide (v = 0 ∨ v = 1 ∨ v = 2) then v else old.

Definition BackgroundMeta_parse
    (argv : list string) (index : Z) (here : Where) (m : LeafMeta BackgroundData)
    : outcome (Rc * LeafMeta BackgroundData) :=
  let v := value m in
  let n := size_of argv - index in
  let image (name : string) (st : bool) :=
    mkBackgroundData BgImage (gmode v) (gspread v) (gtype v) (gstops v) (gpoints v)
                     (gsize v) (gangle v) name st in
  let with_type (t : Background) :=
    mkBackgroundData t (gmode v) (gspread v) (gtype v) (gstops v) (gpoints v)
                     (gsize v) (gangle v) (bg_string v) (stretch v) in
  r ← (if decide (n = 1) then
         a ← tok argv index;
         if decide (a = "TRANS" ∨ a = "TRANSPARENT") then mret (Some (with_type BgTransparent))
         else if decide (a = "SUBMODEL_BACKGROUND_COLOR") then mret (Some (with_type BgSubmodelColor))
         else mret (Some (image a false))
       else if decide (n = 2) then
         a ← tok argv index;
         if decide (a = "COLOR") then
           b ← tok argv (index + 1);
           mret (Some (mkBackgroundData BgColor (gmode v) (gspread v) (gtype v) (gstops v)
                                        (gpoints v) (gsize v) (gangle v) b (stretch v)))
         else if decide (a = "PICTURE") then
           b ← tok argv (index + 1);
           mret (Some (image b false))
         else mret None
       else if decide (n = 3) then
         a ← tok argv index;
         if decide (a = "PICTURE") then
           c ← tok argv (index + 2);
           if decide (c = "STRETCH") then
             b ← tok argv (index + 1);
             mret (Some (image b true))
           else mret None
         else mret None
       else if decide (n = 9) then
         a ← tok argv index;
         if decide (a = "GRADIENT") then
           t1 ← tok argv (index + 1); t2 ← tok argv (index + 2);
           t3 ← tok argv (index + 3); t4 ← tok argv (index + 4);
           t5 ← tok argv (index + 5); t6 ← tok argv (index + 6);
           t7 ← tok argv (index + 7); t8 ← tok argv (index + 8);
           let '(pts, pass1) := scan_points (split "|"%char t7) in
           let '(stops, pass2) := scan_stops (split "|"%char t8) in
           match toInt t1, toInt t2, toInt t3, toFloat t4, toFloat t5, toFloat t6 with
           | Some _gmode, Some _gspread, Some _gtype, Some _, Some _, Some _ =>
               if pass1 && pass2 then
                 mret (Some (mkBackgroundData BgGradient
                               (switch012 _gmode (gmode v))
                               (switch012 _gspread (gspread v))
                               (switch012 _gtype (gtype v))
                               stops pts
                               (float_of_int (default 0 (toInt t4)),
                                float_of_int (default 0 (toInt t5)))
                               (float_of_int (default 0 (toInt t6)))
                               (bg_string v) (stretch v)))
               else mret None
           | _, _, _, _, _, _ => mret None
           end
         else mret None
       else mret None);
  match r with
  | Some v' => mret (OkRc, set_here (set_value m v') here)
  | None => mret (FailureRc, m)
  end.

(** ** [BorderMeta] *)

Inductive Border : Type := BdrNone | BdrSquare | BdrRound.

Record BorderData : Type := mkBorderData {
  bd_type : Border;
  color : string;
  thickness : float;
  radius : float;
  margin : float * float;
  line : Z;
}.

Definition bd_set_type (v : BorderData) (t : Border) : BorderData :=
  mkBorderData t (color v) (thickness v) (radius v) (margin v) (line v).
Definition bd_set_line (v : BorderData) (l : Z) : BorderData :=
  mkBorderData (bd_type v) (color v) (thickness v) (radius v) (margin v) l.
Definition bd_set_margin (v : BorderData) (mg : float * float) : BorderData :=
  mkBorderData (bd_type v) (color v) (thickness v) (radius v) mg (line v).

(** The statements of [BorderMeta::parse] in their order: the value is
    written as the branches go, before the MARGINS clause is looked at. *)
Definition BorderMeta_parse
    (argv : list string) (index : Z) (here : Where) (m : LeafMeta BorderData)
    : outcome (Rc * LeafMeta BorderData) :=
  let size := size_of argv in
  a ← tok argv index;
  '(rc, index, m) ←
    (if decide (a = "NONE" ∧ size - index >= 1) then
       let m := set_value m (bd_set_type (value m) BdrNone) in
       b ← tok argv (index + 1);
       match toInt b with
       | Some _ => mret (OkRc, index + 1, set_value m (bd_set_line (value m) (setBorderLine b)))
       | None => mret (FailureRc, index, m)
       end
     else if decide (a = "SQUARE" ∧ size - index >= 4) then
       b ← tok argv (index + 1);
       d ← tok argv (index + 3);
       match toInt b, toFloat d with
       | Some _, Some th =>
           c ← tok argv (index + 2);
           mret (OkRc, index + 4,
                 set_value m (mkBorderData BdrSquare c th (radius (value m))
                                           (margin (value m)) (setBorderLine b)))
       | _, _ => mret (FailureRc, index, m)
       end
     else if decide (a = "ROUND" ∧ size - index >= 5) then
       b ← tok argv (index + 1);
       d ← tok argv (index + 3);
       e ← tok argv (index + 4);
       match toInt b, toFloat d, toInt e with
       | Some _, Some th, Some r =>
           c ← tok argv (index + 2);
           mret (OkRc, index + 5,
                 set_value m (mkBorderData BdrRound c th (float_of_int r)
                                           (margin (value m)) (setBorderLine b)))
       | _, _, _ => mret (FailureRc, index, m)
       end
     else mret (FailureRc, index, m));
  '(rc, m) ←
    (if decide (rc = OkRc ∧ size - index = 3) then
       k ← tok argv index;
       if decide (k = "MARGINS") then
         x ← tok argv (index + 1);
         y ← tok argv (index + 2);
         match toFloat x, toFloat y with
         | Some mx, Some my => mret (rc, set_value m (bd_set_margin (value m) (mx, my)))
         | _, _ => mret (FailureRc, m)
         end
       else mret (FailureRc, m)
     else mret (rc, m));
  if decide (rc = OkRc) then mret (rc, set_here m here) else mret (rc, m).

(** ** [FreeFormMeta] *)

Record FreeFormData : Type := mkFreeFormData {
  mode : bool;
  base : Z;
  ff_justification : Z;
}.

Definition FreeFormMeta_parse
    (argv : list string) (index : Z) (here : Where) (m : LeafMeta FreeFormData)
    : outcome (Rc * LeafMeta FreeFormData) :=
  let n := size_of argv - index in
  a ← (if decide (n = 1) then tok argv index else mret "");
  '(rc, m) ←
    (if decide (n = 1 ∧ a = "FALSE") then
       let v := value m in
       mret (OkRc, set_value m (mkFreeFormData false (base v) (ff_justification v)))
     else if decide (n = 2) then
       let v := value m in
       let m := set_value m (mkFreeFormData true (base v) (ff_justification v)) in
       a ← tok argv index;
       if one_of a ["STEP_NUMBER"; "ASSEM"; "PLI"; "ROTATE_ICON"] then
         b ← tok argv (index + 1);
         if one_of b ["LEFT"; "RIGHT"; "TOP"; "BOTTOM"; "CENTER"] then
           mret (OkRc, set_value m (mkFreeFormData true (tokenMap_at a) (tokenMap_at b)))
         else mret (FailureRc, m)
       else mret (FailureRc, m)
     else mret (FailureRc, m));
  if decide (rc = OkRc) then mret (rc, set_here m here) else mret (rc, m).

(** ** [SubMeta]: a leaf with a single value *)

Record SubData : Type := mkSubData {
  sub_color : string;
  sub_part : string;
  sub_type : Rc;
}.

(** The codes [PliBeginSub1Rc] and [PliBeginSub2Rc] belong to the [Rc]
    enumeration of [meta.h]; their numbers are not used. *)
Definition PliBeginSub1Rc : Rc := ActionRc 1.
Definition PliBeginSub2Rc : Rc := ActionRc 2.

(** [SubMeta] keeps one [_value] (not an array) next to the inherited
    flags and the two source locations. *)
Record SubMeta : Type := mkSubMeta {
  sub_preamble : string;
  sub_pushed : bool;
  sub_global : bool;
  sub_value : SubData;
  sub_here : slots Where;
}.

Definition SubMeta_parse
    (argv : list string) (index : Z) (here : Where) (m : SubMeta)
    : outcome (Rc * SubMeta) :=
  let argc := size_of argv - index in
  let upd (v : SubData) := mkSubMeta (sub_preamble m) (sub_pushed m) (sub_global m) v (sub_here m) in
  '(rc, m') ←
    (if decide (argc = 1) then
       a ← tok argv index;
       mret (PliBeginSub1Rc, upd (mkSubData "" a PliBeginSub1Rc))
     else if decide (argc = 2) then
       a ← tok argv index;
       b ← tok argv (index + 1);
       mret (PliBeginSub2Rc, upd (mkSubData b a PliBeginSub2Rc))
     else mret (FailureRc, m));
  if decide (rc ≠ FailureRc) then
    mret (rc, mkSubMeta (sub_preamble m') (sub_pushed m') (sub_global m') (sub_value m')
                        (Slots here here))
  else mret (rc, m').


(** ** The tree: leaves and branches *)

(** The leaf kinds of the model, each with the parameters [init] gives
    it. *)
Inductive Leaf : Type :=
| LInt (_min _max : Z) (rc : Rc) (m : LeafMeta Z)
| LFloat (_min _max : float) (rc : Rc) (m : LeafMeta float)
| LFloatPair (_min _max : float) (rc : Rc) (m : LeafMeta (float * float))
| LString (rc : Rc) (m : LeafMeta string)
| LStringList (rc : Rc) (m : LeafMeta (list string))
| LBool (m : LeafMeta bool)
| LPlacement (m : LeafMeta PlacementData)
| LBackground (m : LeafMeta BackgroundData)
| LBorder (m : LeafMeta BorderData)
| LFreeForm (m : LeafMeta FreeFormData)
| LSub (m : SubMeta).

(** The virtual [parse] of a leaf. *)
Definition Leaf_parse (argv : list string) (index : Z) (here : Where) (l : Leaf)
    : outcome (Rc * Leaf) :=
  match l with
  | LInt lo hi rc m =>
      '(r, m') ← IntMeta_parse lo hi rc argv index here m; mret (r, LInt lo hi rc m')
  | LFloat lo hi rc m =>
      '(r, m') ← FloatMeta_parse lo hi rc argv index here m; mret (r, LFloat lo hi rc m')
  | LFloatPair lo hi rc m =>
      '(r, m') ← FloatPairMeta_parse lo hi rc argv index here m; mret (r, LFloatPair lo hi rc m')
  | LString rc m =>
      '(r, m') ← StringMeta_parse rc argv index here m; mret (r, LString rc m')
  | LStringList rc m =>
      '(r, m') ← StringListMeta_parse rc argv index here m; mret (r, LStringList rc m')
  | LBool m =>
      '(r, m') ← BoolMeta_parse argv index here m; mret (r, LBool m')
  | LPlacement m =>
      '(r, m') ← PlacementMeta_parse argv index here m; mret (r, LPlacement m')
  | LBackground m =>
      '(r, m') ← BackgroundMeta_parse argv index here m; mret (r, LBackground m')
  | LBorder m =>
      '(r, m') ← BorderMeta_parse argv index here m; mret (r, LBorder m')
  | LFreeForm m =>
      '(r, m') ← FreeFormMeta_parse argv index here m; mret (r, LFreeForm m')
  | LSub m =>
      '(r, m') ← SubMeta_parse argv index here m; mret (r, LSub m')
  end.

(** What [BranchMeta::parse] does to the flags of the child it selected
    before it calls the child's [parse]. *)
Inductive marker : Type :=
| Keep                         (* no scope token *)
| SetPushed                    (* pushed = true *)
| SetGlobal                    (* global = true *)
| Assign (local glob : bool).  (* pushed = local; global = global *)

Definition mark_flags (mk : marker) (p g : bool) : bool * bool :=
  match mk with
  | Keep => (p, g)
  | SetPushed => (true, g)
  | SetGlobal => (p, true)
  | Assign l gl => (l, gl)
  end.

Definition mark_meta {T : Type} (mk : marker) (m : LeafMeta T) : LeafMeta T :=
  let '(p, g) := mark_flags mk (pushed m) (global m) in
  set_global (set_pushed m p) g.

Definition mark_leaf (mk : marker) (l : Leaf) : Leaf :=
  match l with
  | LInt lo hi rc m => LInt lo hi rc (mark_meta mk m)
  | LFloat lo hi rc m => LFloat lo hi rc (mark_meta mk m)
  | LFloatPair lo hi rc m => LFloatPair lo hi rc (mark_meta mk m)
  | LString rc m => LString rc (mark_meta mk m)
  | LStringList rc m => LStringList rc (mark_meta mk m)
  | LBool m => LBool (mark_meta mk m)
  | LPlacement m => LPlacement (mark_meta mk m)
  | LBackground m => LBackground (mark_meta mk m)
  | LBorder m => LBorder (mark_meta mk m)
  | LFreeForm m => LFreeForm (mark_meta mk m)
  | LSub m =>
      let '(p, g) := mark_flags mk (sub_pushed m) (sub_global m) in
      LSub (mkSubMeta (sub_preamble m) p g (sub_value m) (sub_here m))
  end.

(** A node of the tree.  The children of a branch are its [QHash] of
    keyword and child, listed in the iteration order of the hash (keys are
    unique). *)
#[warnings="-register-all"]
Inductive Node : Type :=
| NLeaf (l : Leaf)
| NBranch (b_pushed b_global : bool) (children : list (string * Node)).

Definition mark_node (mk : marker) (n : Node) : Node :=
  match n with
  | NLeaf l => NLeaf (mark_leaf mk l)
  | NBranch p g kids => let '(p, g) := mark_flags mk p g in NBranch p g kids
  end.

(** [argv[i].contains(QRegExp(key))] for a keyword [key]: the keywords of
    the tree are plain words, for which the pattern matches exactly when
    the word occurs in the token. *)
Definition contains_key (s key : string) : bool :=
  bool_decide (is_Some (String.index 0 key s)).

(** An entry of the hash that the search passes over stays as it is. *)
Definition keep_head {A : Type} (x : A) (r : outcome (Rc * list A)) : outcome (Rc * list A) :=
  '(rc, xs) ← r; mret (rc, x :: xs).

(** The first child whose keyword is selected by [sel] runs [run]; the
    result is [None] when no keyword is selected.  With [sel] the equality
    with a token this is [list.find(argv[index])]; with [sel] a pattern
    match it is the loop from [list.begin()] to [list.end()]. *)
Fixpoint on_child {N : Type} (sel : string -> bool) (run : N -> outcome (Rc * N))
    (ks : list (string * N)) : option (outcome (Rc * list (string * N))) :=
  match ks with
  | [] => None
  | (k, c) :: ks' =>
      if sel k then Some ('(rc, c') ← run c; mret (rc, (k, c') :: ks'))
      else keep_head (k, c) <$> on_child sel run ks'
  end.

(** The scope token after an explicitly matched keyword: the assignment
    to the child's flags and the number of tokens taken. *)
Definition scope_token (argv : list string) (index : Z) : outcome (marker * Z) :=
  if decide (size_of argv - index > 1) then
    b ← tok argv (index + 1);
    if decide (b = "LOCAL") then mret (SetPushed, 2)
    else if decide (b = "GLOBAL") then mret (SetGlobal, 2)
    else mret (Keep, 1)
  else mret (Keep, 1).

(** The virtual [parse] of a node; for a branch this is
    [BranchMeta::parse].  [mk] is the assignment to the flags that the
    caller made just before the call. *)
Fixpoint Node_parse (n : Node) (mk : marker) (argv : list string) (index : Z)
    (here : Where) {struct n} : outcome (Rc * Node) :=
  match n with
  | NLeaf l =>
      '(rc, l') ← Leaf_parse argv index here (mark_leaf mk l); mret (rc, NLeaf l')
  | NBranch p g kids =>
      let '(p, g) := mark_flags mk p g in
      let size := size_of argv in
      if decide (index < size) then
        a ← tok argv index;
        (* list.find(argv[index]) and the explicit match *)
        match
          on_child (fun k => bool_decide (k = a))
            (fun c =>
               '(mk', offset) ← scope_token argv index;
               if decide (size - index > 1 ∧ index + offset >= size) then
                 mret (FailureRc, mark_node mk' c)
               else Node_parse c mk' argv (index + offset) here)
            kids
        with
        | Some r => '(rc, kids') ← r; mret (rc, NBranch p g kids')
        | None =>
            if decide (size - index > 1) then
              (* no explicit match: try the keywords as patterns *)
              let local := bool_decide (a = "LOCAL") in
              let glob := bool_decide (a = "GLOBAL") in
              let offset := if local || glob then 1 else 0 in
              if decide (index + offset < size) then
                t ← tok argv (index + offset);
                match
                  on_child (fun k => contains_key t k)
                    (fun c => Node_parse c (Assign local glob) argv (index + offset) here)
                    kids
                with
                | Some r => '(rc, kids') ← r; mret (rc, NBranch p g kids')
                | None => mret (FailureRc, NBranch p g kids)
                end
              else mret (FailureRc, NBranch p g kids)
            else mret (FailureRc, NBranch p g kids)
        end
      else mret (FailureRc, NBranch p g kids)
  end.

(** [BranchMeta::parse] as called from outside, with no flag assignment
    pending. *)
Definition BranchMeta_parse (n : Node) (argv : list string) (index : Z) (here : Where)
    : outcome (Rc * Node) :=
  Node_parse n Keep argv index here.

End Parsers.

Section MoreParsers.
Context `{E : Ext}.
Variable reportErrors : bool.

(** ** [AllocMeta] and [PageOrientationMeta] *)

(** [AllocEnc] of [metatypes.h]; the cast [AllocEnc(tokenMap[..])] is
    applied to the codes 0 and 1 only. *)
Inductive AllocEnc : Type := Horizontal | Vertical.

Definition AllocEnc_of (code : Z) : AllocEnc :=
  if decide (code = 0) then Horizontal else Vertical.

(** The two-element array [type[2]] of [AllocMeta] is the value of the
    leaf. *)
Definition AllocMeta_parse
    (argv : list string) (index : Z) (here : Where) (m : LeafMeta AllocEnc)
    : outcome (Rc * LeafMeta AllocEnc) :=
  r ← (if decide (size_of argv - index = 1) then
         s ← tok argv index;
         if one_of s ["HORIZONTAL"; "VERTICAL"]
         then mret (Some (OkRc, set_here (set_value m (AllocEnc_of (tokenMap_at s))) here))
         else mret None
       else mret None);
  match r with
  | Some res => mret res
  | None => _ ← report reportErrors argv index; mret (FailureRc, m)
  end.

Definition AllocMeta_format (local global : bool) (m : LeafMeta AllocEnc) : string :=
  let foo := match value m with Horizontal => "HORIZONTAL" | Vertical => "VERTICAL" end in
  LeafMeta_format local global foo m.

(** [OrientationEnc] of [metatypes.h]. *)
Inductive OrientationEnc : Type := Portrait | Landscape | InvalidOrientation.

Definition OrientationEnc_of (code : Z) : OrientationEnc :=
  if decide (code = 0) then Portrait
  else if decide (code = 1) then Landscape else InvalidOrientation.

(** The code [PageOrientationRc] belongs to the [Rc] enumeration of
    [meta.h]; its number is not used. *)
Definition PageOrientationRc : Rc := ActionRc 3.

Definition PageOrientationMeta_parse
    (argv : list string) (index : Z) (here : Where) (m : LeafMeta OrientationEnc)
    : outcome (Rc * LeafMeta OrientationEnc) :=
  r ← (if decide (size_of argv - index = 1) then
         s ← tok argv index;
         if one_of s ["PORTRAIT"; "LANDSCAPE"]
         then mret (Some (PageOrientationRc,
                          set_here (set_value m (OrientationEnc_of (tokenMap_at s))) here))
         else mret None
       else mret None);
  match r with
  | Some res => mret res
  | None => _ ← report reportErrors argv index; mret (FailureRc, m)
  end.

Definition PageOrientationMeta_format (local global : bool)
    (m : LeafMeta OrientationEnc) : string :=
  let foo := match value m with Portrait => "PORTRAIT" | _ => "LANDSCAPE" end in
  LeafMeta_format local global foo m.

(** ** [ConstrainMeta] *)

(** [ConstrainData] as the leaf stores it: the constraint type by its
    enumeration code (the cast [ConstrainData::Constrain(tokenMap[..])])
    and the [float] constraint. *)
Record ConstrainValue : Type := mkConstrainValue {
  cv_type : Z;
  cv_constraint : float;
}.

(** [ConstrainMeta] has the flag [_default] next to the leaf. *)
Record ConstrainMeta : Type := mkConstrainMeta {
  cm_leaf : LeafMeta ConstrainValue;
  _default : bool;
}.

Definition ConstrainMeta_parse
    (argv : list string) (index : Z) (here : Where) (cm : ConstrainMeta)
    : outcome (Rc * ConstrainMeta) :=
  let m := cm_leaf cm in
  let n := size_of argv - index in
  '(rc, m) ←
    (if decide (n = 1) then
       a ← tok argv index;
       if one_of a ["AREA"; "SQUARE"] then
         mret (OkRc, set_value m (mkConstrainValue (tokenMap_at a)
                                                   (cv_constraint (value m))))
       else mret (FailureRc, m)
     else if decide (n = 2) then
       b ← tok argv (index + 1);
       match toFloat b with
       | Some f =>
           a ← tok argv index;
           if one_of a ["WIDTH"; "HEIGHT"; "COLS"] then
             mret (OkRc, set_value m (mkConstrainValue (tokenMap_at a) f))
           else mret (FailureRc, m)
       | None => mret (FailureRc, m)
       end
     else mret (FailureRc, m));
  if decide (rc = OkRc) then mret (rc, mkConstrainMeta (set_here m here) false)
  else mret (rc, mkConstrainMeta m (_default cm)).

End MoreParsers.

End Meta.

(** ** A reading of the numerals, for running the parsers

    An instance of [Meta.Ext] that reads decimal numerals exactly: a
    [float] is a mantissa and a number of decimal places.  It is only used
    to evaluate the parsers on concrete directives, whose numerals are
    small; the limits of the machine types are left out. *)
Module Decimal.

Definition digit (c : Ascii.ascii) : option Z :=
  let n := Z.of_N (Ascii.N_of_ascii c) in
  if (48 <=? n) && (n <=? 57) then Some (n - 48) else None.

(** Reads a run of digits: the value so far, the number of digits read and
    the rest of the string. *)
Fixpoint digits (acc : Z) (count : nat) (s : string) : Z * nat * string :=
  match s with
  | EmptyString => (acc, count, s)
  | String c s' =>
      match digit c with
      | Some d => digits (10 * acc + d) (S count) s'
      | None => (acc, count, s)
      end
  end.

Definition sign (s : string) : Z * string :=
  match s with
  | String c s' =>
      if Ascii.eqb c "-" then (-1, s')
      else if Ascii.eqb c "+" then (1, s')
      else (1, s)
  | EmptyString => (1, s)
  end.

Definition is_empty (s : string) : bool :=
  match s with
  | EmptyString => true
  | _ => false
  end.

Definition toInt (s : string) : option Z :=
  let '(sg, s) := sign s in
  let '(v, count, rest) := digits 0 0 s in
  if is_empty rest && negb (Nat.eqb count 0) then Some (sg * v) else None.

Fixpoint hexdigits (acc : Z) (count : nat) (s : string) : Z * nat * string :=
  match s with
  | EmptyString => (acc, count, s)
  | String c s' =>
      let n := Z.of_N (Ascii.N_of_ascii c) in
      if (48 <=? n) && (n <=? 57) then hexdigits (16 * acc + (n - 48)) (S count) s'
      else if (97 <=? n) && (n <=? 102) then hexdigits (16 * acc + (n - 87)) (S count) s'
      else if (65 <=? n) && (n <=? 70) then hexdigits (16 * acc + (n - 55)) (S count) s'
      else (acc, count, s)
  end.

Definition toUIntHex (s : string) : option Z :=
  let s := match s with
           | String c0 (String c1 s') =>
               if Ascii.eqb c0 "0" && Ascii.eqb c1 "x" then s' else s
           | _ => s
           end in
  let '(v, count, rest) := hexdigits 0 0 s in
  if is_empty rest && negb (Nat.eqb count 0) then Some v else None.

Record dec : Type := mkDec { mant : Z; places : nat }.

Definition toFloat (s : string) : option dec :=
  let '(sg, s) := sign s in
  let '(ip, n1, rest) := digits 0 0 s in
  match rest with
  | EmptyString => if Nat.eqb n1 0 then None else Some (mkDec (sg * ip) 0)
  | String c frac =>
      if Ascii.eqb c "." then
        let '(v, n2, rest') := digits ip 0 frac in
        if is_empty rest' && negb (Nat.eqb (n1 + n2) 0) then Some (mkDec (sg * v) n2)
        else None
      else None
  end.

Definition dec_lt (a b : dec) : bool :=
  mant a * 10 ^ Z.of_nat (places b) <? mant b * 10 ^ Z.of_nat (places a).

Definition ext : Meta.Ext := {|
  Meta.float := dec;
  Meta.fzero := mkDec 0 0;
  Meta.flt := dec_lt;
  Meta.toInt := toInt;
  Meta.toFloat := toFloat;
  Meta.toUIntHex := toUIntHex;
  Meta.float_of_int := fun z => mkDec z 0;
  Meta.int_of_float := fun d => Z.quot (mant d) (10 ^ Z.of_nat (places d));
  Meta.setBorderLine := fun s => default 0 (toInt s);
|}.

End Decimal.


(** * Part II: the parts-list engine ([pli.cpp]) *)

Module Pli.

(** ** Parts *)

(** The fields of [PliPart] the sorting and packing code reads and writes.
    Margins are the pixel values that [valuePixels(XX)] and
    [valuePixels(YY)] return for the part's metas. *)
Record PliPart : Type := mkPliPart {
  width : Z;
  height : Z;
  leftEdge : list Z;
  rightEdge : list Z;
  instanceMarginX : Z;      (* instanceMeta.margin.valuePixels(XX) *)
  csiMarginX : Z;           (* csiMargin.valuePixels(XX) *)
  csiMarginY : Z;           (* csiMargin.valuePixels(YY) *)
  styleMarginX : Z;         (* styleMeta.margin.valuePixels(XX) *)
  styled : bool;            (* styleMeta.style.value() != AnnotationStyle::none *)
  topMargin : Z;
  annotWidth : Z;
  sortColour : string;
  sortCategory : string;
  sortSize : string;
  sortElement : string;
  placed : bool;
  left : Z;
  bot : Z;
  col : Z;
}.

Definition nullPart : PliPart :=
  mkPliPart 0 0 [] [] 0 0 0 0 false 0 0 "" "" "" "" false 0 0 0.

#[global] Instance PliPart_inhabited : Inhabited PliPart := populate nullPart.

(** [parts[key]] for a key of the hash. *)
Definition at_key (parts : gmap string PliPart) (key : string) : PliPart :=
  default nullPart (parts !! key).

(** [edge[i]] of a silhouette list; the code guards its indices to lie in
    [0 .. height-1], and the lists have one entry per scanline. *)
Definition edge (e : list Z) (i : Z) : Z := default 0 (e !! Z.to_nat i).

(** Writes through the part pointer. *)
Definition set_placed (b : bool) (p : PliPart) : PliPart :=
  mkPliPart (width p) (height p) (leftEdge p) (rightEdge p) (instanceMarginX p)
            (csiMarginX p) (csiMarginY p) (styleMarginX p) (styled p) (topMargin p)
            (annotWidth p) (sortColour p) (sortCategory p) (sortSize p) (sortElement p)
            b (left p) (bot p) (col p).

(** [part->left = l; part->bot = b; part->placed = true; part->col = c] *)
Definition put (l b c : Z) (p : PliPart) : PliPart :=
  mkPliPart (width p) (height p) (leftEdge p) (rightEdge p) (instanceMarginX p)
            (csiMarginX p) (csiMarginY p) (styleMarginX p) (styled p) (topMargin p)
            (annotWidth p) (sortColour p) (sortCategory p) (sortSize p) (sortElement p)
            true l b c.

(** [placeCols] writes the position and column but not the flag. *)
Definition put_col (l b c : Z) (p : PliPart) : PliPart :=
  mkPliPart (width p) (height p) (leftEdge p) (rightEdge p) (instanceMarginX p)
            (csiMarginX p) (csiMarginY p) (styleMarginX p) (styled p) (topMargin p)
            (annotWidth p) (sortColour p) (sortCategory p) (sortSize p) (sortElement p)
            (placed p) l b c.

Definition add_left (d : Z) (p : PliPart) : PliPart :=
  mkPliPart (width p) (height p) (leftEdge p) (rightEdge p) (instanceMarginX p)
            (csiMarginX p) (csiMarginY p) (styleMarginX p) (styled p) (topMargin p)
            (annotWidth p) (sortColour p) (sortCategory p) (sortSize p) (sortElement p)
            (placed p) (left p + d) (bot p) (col p).

Definition add_bot (d : Z) (p : PliPart) : PliPart :=
  mkPliPart (width p) (height p) (leftEdge p) (rightEdge p) (instanceMarginX p)
            (csiMarginX p) (csiMarginY p) (styleMarginX p) (styled p) (topMargin p)
            (annotWidth p) (sortColour p) (sortCategory p) (sortSize p) (sortElement p)
            (placed p) (left p) (bot p + d) (col p).

(** ** [Pli::sortParts] *)

(** The sort fields that [tokenMap] resolves the configured names to, and
    the configured order; a direction is [true] for ascending
    ([tokenMap[..] != SortDescending]). *)
Inductive SortOption : Type :=
| PartSize | PartColour | PartCategory | PartElement | NoSort.

#[global] Instance SortOption_eq_dec : EqDecision SortOption.
Proof. solve_decision. Defined.

Record SortOrder : Type := mkSortOrder {
  primary : SortOption;
  secondary : SortOption;
  tertiary : SortOption;
  primaryDirection : bool;
  secondaryDirection : bool;
  tertiaryDirection : bool;
}.

(** The lambda [setPartValues]: the field of a part that an option names.
    It is never called with [NoSort]. *)
Definition sort_value (option : SortOption) (p : PliPart) : string :=
  match option with
  | PartColour => sortColour p
  | PartCategory => sortCategory p
  | PartSize => sortSize p
  | PartElement => sortElement p
  | NoSort => ""
  end.

(** The locals of one comparison. *)
Record cmp : Type := mkCmp {
  firstValue : string;
  nextValue : string;
  sortedBy : SortOption -> bool;
  canSort : bool;
  ascending : bool;
}.

(** [setSortDirection], [setPartValues] and [setSortedBy] for one level. *)
Definition consult (option : SortOption) (asc : bool) (a b : PliPart) (c : cmp) : cmp :=
  mkCmp (sort_value option a) (sort_value option b)
        (fun o => if decide (o = option) then true else sortedBy c o)
        true asc.

(** The body of the two nested loops up to the test that guards the
    exchange, for the parts [a = parts[sortedKeys[firstPart]]] and
    [b = parts[sortedKeys[nextPart]]].  [asc0] is the value [ascending]
    has on entry; it is read only after a level has been consulted, and
    consulting a level sets it (see [needs_swap_entry] below). *)
Definition needs_swap (so : SortOrder) (setSplit : bool) (asc0 : bool)
    (a b : PliPart) : bool :=
  let c := mkCmp "" "" (fun _ => false) false asc0 in
  let c := if decide (primary so ≠ NoSort)
           then consult (primary so) (primaryDirection so) a b c else c in
  let c := if negb setSplit && bool_decide (firstValue c = nextValue c)
              && negb (sortedBy c (secondary so)) && bool_decide (secondary so ≠ NoSort)
           then consult (secondary so) (secondaryDirection so) a b c else c in
  let c := if negb setSplit && bool_decide (firstValue c = nextValue c)
              && negb (sortedBy c (tertiary so)) && bool_decide (tertiary so ≠ NoSort)
           then consult (tertiary so) (tertiaryDirection so) a b c else c in
  canSort c &&
  (if ascending c then String.ltb (nextValue c) (firstValue c)
   else String.ltb (firstValue c) (nextValue c)).

(** The exchange [moved = sortedKeys[i]; sortedKeys[i] = sortedKeys[j];
    sortedKeys[j] = moved]. *)
Definition exchange (keys : list string) (i j : nat) : list string :=
  match keys !! i, keys !! j with
  | Some a, Some b => <[j := a]> (<[i := b]> keys)
  | _, _ => keys
  end.

(** One iteration of the inner loop, on the state [(sortedKeys, unsorted)].
    The flag [ascending] lives across iterations in the source (the body
    ends by calling [setSortDirection] once more); as its incoming value
    never reaches the test, the state does not carry it. *)
Definition sort_step (parts : gmap string PliPart) (so : SortOrder) (setSplit : bool)
    (firstPart : nat) (st : list string * bool) (nextPart : nat) : list string * bool :=
  let '(keys, unsorted) := st in
  let a := at_key parts (keys !!! firstPart) in
  let b := at_key parts (keys !!! nextPart) in
  if needs_swap so setSplit true a b then (exchange keys firstPart nextPart, true)
  else (keys, unsorted).

(** One round of the [while (unsorted)] loop: [firstPart] runs over
    [0 .. size-2], [nextPart] over [firstPart+1 .. size-1]. *)
Definition sort_round (parts : gmap string PliPart) (so : SortOrder) (setSplit : bool)
    (keys : list string) : list string * bool :=
  let n := size parts in
  foldl (fun st firstPart =>
           foldl (sort_step parts so setSplit firstPart) st
                 (seq (S firstPart) (n - S firstPart)))
        (keys, false) (seq 0 (n - 1)).

(** [Pli::sortParts(parts, setSplit)], acting on the member [sortedKeys].
    [fuel] bounds the number of rounds; [None] means the bound was hit. *)
Fixpoint sortParts (fuel : nat) (parts : gmap string PliPart) (so : SortOrder)
    (setSplit : bool) (sortedKeys : list string) : option (list string) :=
  match fuel with
  | O => None
  | S fuel' =>
      let '(keys, unsorted) := sort_round parts so setSplit sortedKeys in
      if unsorted then sortParts fuel' parts so setSplit keys else Some keys
  end.

(** ** The split of a BOM over several pages ([Pli::setParts]) *)

(** The last block of [setParts], run when [bom && splitBom]: the parts
    collected in [tempParts] are sorted and the occurrence
    [bomOccurrence] of [boms] receives its share.  [keys0] is
    [tempParts.keys()].  The result is the member [parts] after the
    block (the block clears [tempParts] and [sortedKeys]). *)
Definition split_range (n boms bomOccurrence : Z) : Z * Z :=
  let quotient := Z.quot n boms in
  let remainder := Z.rem n boms in
  if decide (bomOccurrence = boms) then
    let maxParts := bomOccurrence * quotient + remainder in
    (maxParts - quotient - remainder, maxParts)
  else
    let maxParts := bomOccurrence * quotient in
    (maxParts - quotient, maxParts).

(** The [foreach] over [sortedKeys] with the running [partIndex]. *)
Fixpoint distribute (tempParts : gmap string PliPart) (startIndex maxParts : Z)
    (sortedKeys : list string) (partIndex : Z) (parts : gmap string PliPart)
    : gmap string PliPart :=
  match sortedKeys with
  | [] => parts
  | key :: rest =>
      let part := at_key tempParts key in
      let parts := if decide (partIndex >= startIndex ∧ partIndex < maxParts)
                   then <[key := part]> parts else parts in
      distribute tempParts startIndex maxParts rest (partIndex + 1) parts
  end.

Definition setParts_split (fuel : nat) (so : SortOrder) (boms bomOccurrence : Z)
    (tempParts : gmap string PliPart) (keys0 : list string)
    (parts : gmap string PliPart) : option (gmap string PliPart) :=
  sortedKeys ← sortParts fuel tempParts so true keys0;
  let '(startIndex, maxParts) :=
    split_range (Z.of_nat (size tempParts)) boms bomOccurrence in
  Some (distribute tempParts startIndex maxParts sortedKeys 0 parts).


(** ** [Pli::placePli] *)

(** What [placePli] reads besides the parts: the border of the parts list
    in pixels ([pliMeta.border.valuePixels()], whose thickness and margins
    are fractional numbers, here rationals), whether this is a BOM and
    whether part elements are displayed. *)
Record PliConfig : Type := mkPliConfig {
  thickness : Q;
  marginX : Q;               (* borderData.margin[0] *)
  marginY : Q;               (* borderData.margin[1] *)
  bom : bool;
  elementsDisplay : bool;    (* pliMeta.partElements.display.value() *)
}.

(** The conversion [int(x)] of a fractional number: towards zero. *)
Definition Qtrunc (q : Q) : Z := Z.quot (Qnum q) (Zpos (Qden q)).

(** [qMax] on fractional numbers. *)
Definition qMaxQ (a b : Q) : Q := if Qlt_le_dec a b then b else a.

(** Does a part slot under the right side of the column's top part?  The
    loop over [top] stops early at a scanline where the silhouettes would
    be closer than [xMargin]; the part fits when the loop ran to
    [part->height]. *)
Definition fits_beside (prevPart part : PliPart) : bool :=
  let xMargin := Z.max (csiMarginX prevPart) (csiMarginX part) in
  let yMargin := Z.max (csiMarginY prevPart) (csiMarginY part) in
  (0 <=? height part) &&
  forallb (fun top =>
             let ltop := height prevPart - height part - yMargin + top in
             negb ((0 <=? ltop) && (ltop <? height prevPart) &&
                   (edge (rightEdge prevPart) ltop + xMargin >?
                    width prevPart - width part + edge (leftEdge part) top)))
          (seqZ 0 (height part)).

(** The first loop of a column: the first unplaced part that fits in
    front of [xConstraint]. *)
Fixpoint first_fit (parts : gmap string PliPart) (keys : list string)
    (left xConstraint : Z) : option string :=
  match keys with
  | [] => None
  | key :: rest =>
      let part := at_key parts key in
      if negb (placed part) && (left + width part <? xConstraint) then Some key
      else first_fit parts rest left xConstraint
  end.

(** The loop that looks for a part to put beside the top part.  The
    result is the key of the part that fits, if any, and the key the
    variable [part] points to when the loop ends (the part that fits, or
    else the last one looked at). *)
Fixpoint side_fit (parts : gmap string PliPart) (prevPart : PliPart)
    (keys : list string) (cur : string) : option string * string :=
  match keys with
  | [] => (None, cur)
  | key :: rest =>
      let part := at_key parts key in
      if negb (placed part) && fits_beside prevPart part then (Some key, key)
      else side_fit parts prevPart rest key
  end.

(** The two inner loops that slide a part against the previous one for a
    given [overlap]: is [overlapped] set? *)
Definition bumps (prevPart part : PliPart) (splitMargin overlap : Z) : bool :=
  if overlap >? height part then
    existsb (fun right =>
               edge (rightEdge part) right + splitMargin >?
               edge (leftEdge prevPart) (right + overlap - height part))
            (seqZ 0 (height part))
  else
    existsb (fun left =>
               let right := height part - overlap - 1 + left in
               (0 <=? right) &&
               (edge (rightEdge part) right + splitMargin >? edge (leftEdge prevPart) left))
            (seqZ 0 overlap).

(** The loop [for (overlap = 1; overlap < prevPart->height && !overlapped;
    overlap++)]: the value of [overlap] when it ends.  The increment runs
    once more after the iteration that set [overlapped]. *)
Definition overlap_of (prevPart part : PliPart) (splitMargin : Z) : Z :=
  match list_find (fun overlap => bumps prevPart part splitMargin overlap = true)
                  (seqZ 1 (height prevPart - 1)) with
  | Some (_, overlap) => overlap + 1
  | None => Z.max 1 (height prevPart)
  end.

(** The search for the next part of the column: the first unplaced part
    that stays under [yConstraint], with its [overlap] and [splitMargin]. *)
Fixpoint stack_fit (parts : gmap string PliPart) (prevPart : PliPart)
    (keys : list string) (bot yConstraint : Z) : option (string * Z * Z) :=
  match keys with
  | [] => None
  | key :: rest =>
      let part := at_key parts key in
      if placed part then stack_fit parts prevPart rest bot yConstraint
      else
        let splitMargin := Z.max (topMargin prevPart) (csiMarginY part) in
        let overlap := overlap_of prevPart part splitMargin in
        if bot + height part + splitMargin - overlap <=? yConstraint
        then Some (key, overlap, splitMargin)
        else stack_fit parts prevPart rest bot yConstraint
  end.

(** The state of a column while parts are stacked into it. *)
Record column : Type := mkColumn {
  c_parts : gmap string PliPart;
  c_prev : string;           (* key of prevPart *)
  c_bot : Z;
  c_tallest : Z;
  c_width : Z;
  c_widest : string;         (* keys[widest] *)
  c_first : Z;               (* margin.first *)
  c_nPlaced : Z;
}.

(** The loop [while (nPlaced < parts.size())] that stacks parts into the
    column.  The sub-column code inside it is disabled in the source
    ([packSubs && 0]) and has no counterpart here. *)
Fixpoint stack_loop (fuel : nat) (keys : list string) (yConstraint : Z) (sortType : bool)
    (left cols : Z) (c : column) : option column :=
  match fuel with
  | O => None
  | S fuel' =>
      if c_nPlaced c <? Z.of_nat (size (c_parts c)) then
        match stack_fit (c_parts c) (at_key (c_parts c) (c_prev c)) keys
                        (c_bot c) yConstraint with
        | None => Some c            (* we can't go more vertical in this column *)
        | Some (key, overlap, splitMargin) =>
            let bot := c_bot c + splitMargin in
            let part := at_key (c_parts c) key in
            let parts := alter (put left (bot - overlap) cols) key (c_parts c) in
            let '(widest, colWidth) :=
              if sortType && (width part >? c_width c) then (key, width part)
              else (c_widest c, c_width c) in
            let rowHeight := height part + splitMargin in
            let bot := bot - overlap + rowHeight in
            stack_loop fuel' keys yConstraint sortType left cols
              (mkColumn parts key bot (Z.max (c_tallest c) bot) colWidth widest
                        (csiMarginX part) (c_nPlaced c + 1))
        end
      else Some c
  end.

(** The locals of [placePli] that live across columns. *)
Record packing : Type := mkPacking {
  p_parts : gmap string PliPart;
  p_left : Z;
  p_nPlaced : Z;
  p_tallest : Z;
  p_topMargin : Z;
  p_botMargin : Z;
  p_cols : Z;
  p_margins : list (Z * Z);
}.

(** One column: the body of [while (nPlaced < keys.size())] once a first
    part [key] has been found. *)
Definition place_column (cfg : PliConfig) (keys : list string) (yConstraint : Z)
    (sortType : bool) (key : string) (p : packing) : option packing :=
  let cols := p_cols p + 1 in
  let left := p_left p in
  let parts := alter (put left 0 cols) key (p_parts p) in
  let prevPart := at_key parts key in
  let nPlaced := p_nPlaced p + 1 in
  let first := Z.max (instanceMarginX prevPart) (csiMarginX prevPart) in
  let first :=
    if bom cfg && elementsDisplay cfg then
      let elementMargin := Z.max (styleMarginX prevPart) (csiMarginX prevPart) in
      if elementMargin >? first then elementMargin else first
    else first in
  let tallest := Z.max (p_tallest p) (height prevPart) in
  let botMargin := Z.max (p_botMargin p) (csiMarginY prevPart) in
  (* a part under the right side of the first part of the column *)
  let '(fit, partKey) := side_fit parts prevPart keys key in
  let '(parts, nPlaced) :=
    match fit with
    | Some k =>
        let part := at_key parts k in
        (alter (put (Pli.left prevPart + width prevPart - width part) 0 cols) k parts,
         nPlaced + 1)
    | None => (parts, nPlaced)
    end in
  c ← stack_loop (S (length keys)) keys yConstraint sortType left cols
        (mkColumn parts key (height prevPart) tallest (width prevPart) key first nPlaced);
  let topMargin := Z.max (p_topMargin p) (topMargin (at_key (c_parts c) partKey)) in
  let part := at_key (c_parts c) (c_widest c) in
  let second :=
    if decide (annotWidth part ≠ 0) then Z.max (styleMarginX part) (csiMarginX part)
    else csiMarginX part in
  Some (mkPacking (c_parts c) (left + c_width c) (c_nPlaced c) (c_tallest c)
                  topMargin botMargin cols (p_margins p ++ [(c_first c, second)])).

(** The loop [while (nPlaced < keys.size())].  The result is [inl p] when
    no unplaced part fits in front of [xConstraint] (the [return -1]) and
    [inr p] when the loop ends. *)
Fixpoint place_columns (fuel : nat) (cfg : PliConfig) (keys : list string)
    (xConstraint yConstraint : Z) (sortType : bool) (p : packing)
    : option (packing + packing) :=
  match fuel with
  | O => None
  | S fuel' =>
      if p_nPlaced p <? Z.of_nat (length keys) then
        match first_fit (p_parts p) keys (p_left p) xConstraint with
        | None => Some (inl p)
        | Some key =>
            p' ← place_column cfg keys yConstraint sortType key p;
            place_columns fuel' cfg keys xConstraint yConstraint sortType p'
        end
      else Some (inr p)
  end.

(** What [placePli] hands back: its return value, the parts, and the
    reference arguments [cols], [pliWidth] and [pliHeight]. *)
Record placed_pli : Type := mkPlaced {
  rc : Z;
  r_parts : gmap string PliPart;
  r_cols : Z;
  pliWidth : Z;
  pliHeight : Z;
}.

(** The first loop: every part is marked unplaced and [yConstraint] is
    raised to the tallest part. *)
Definition reset_parts (keys : list string) (parts : gmap string PliPart)
    (yConstraint : Z) : gmap string PliPart * Z :=
  foldl (fun '(parts, y) key =>
           let parts := alter (set_placed false) key parts in
           (parts, if height (at_key parts key) >? y then height (at_key parts key) else y))
        (parts, yConstraint) keys.

(** The entries [keys[0] .. keys[parts.size()-1]] that the loops
    [for (i = 0; i < parts.size(); i++)] read.  When the key list is
    shorter than the hash, [keys[i]] is read past the end of the list,
    which has no result. *)
Definition leading_keys (parts : gmap string PliPart) (keys : list string)
    : option (list string) :=
  if decide (size parts <= length keys)%nat then Some (take (size parts) keys) else None.

(** The loop over the columns that spreads the margins: the parts of
    column [col+1] and of the columns after it move right by the margin of
    column [col].  [ks] are the entries of the key list that the inner
    loop reads, [keys[i]] for [i < parts.size()]. *)
Definition spread_margins (cfg : PliConfig) (ks : list string)
    (margins : list (Z * Z)) (parts : gmap string PliPart) (pliWidth : Z)
    : gmap string PliPart * Z * Z :=
  foldl (fun '(parts, pliWidth, lastMargin) '(col, (first, second)) =>
           let margin :=
             if decide (col = 0) then Z.max (Qtrunc (thickness cfg + marginX cfg)%Q) first
             else Z.max first second in
           let parts :=
             foldl (fun parts key =>
                      if col + 1 <=? Pli.col (at_key parts key)
                      then alter (add_left margin) key parts else parts)
                   parts ks in
           (parts, pliWidth + margin, second))
        (parts, pliWidth, 0) (zip (seqZ 0 (Z.of_nat (length margins))) margins).

(** [Pli::placePli(keys, xConstraint, yConstraint, packSubs, sortType,
    cols, pliWidth, pliHeight)], acting on the member [parts].  [None]
    stands for a run that has no result:
    - the first loop writes through [parts[keys[i]]] for every key of the
      list; for a key that the hash lacks, [QHash::operator[]] inserts a
      null pointer, and the write goes through it;
    - the two loops that end a successful run read [keys[i]] for
      [i < parts.size()], past the end of a key list that is shorter than
      the hash (the hash has got its size by then, every write is an
      [alter]; the last loop runs whether or not there is a column, so the
      read is put in front of both);
    - the bound on the rounds of the packing loops is reached, which
      never happens ([placePli_result] below). *)
Definition placePli (cfg : PliConfig) (parts : gmap string PliPart) (keys : list string)
    (xConstraint yConstraint : Z) (packSubs sortType : bool) : option placed_pli :=
  let topMargin := Qtrunc (marginY cfg + thickness cfg)%Q in
  let botMargin := topMargin in
  if decide (Forall (fun key => is_Some (parts !! key)) keys) then
    let '(parts, yConstraint) := reset_parts keys parts yConstraint in
    r ← place_columns (S (length keys)) cfg keys xConstraint yConstraint sortType
          (mkPacking parts 0 0 0 topMargin botMargin 0 []);
    match r with
    | inl p => Some (mkPlaced (-1) (p_parts p) (p_cols p) 0 0)
    | inr p =>
        ks ← leading_keys (p_parts p) keys;
        let '(parts, pliWidth, lastMargin) :=
          spread_margins cfg ks (p_margins p) (p_parts p) (p_left p) in
        let lastMargin :=
          if Qlt_le_dec (inject_Z lastMargin) (marginX cfg + thickness cfg)%Q
          then Qtrunc (marginX cfg + thickness cfg)%Q else lastMargin in
        let pliWidth := pliWidth + lastMargin in
        let parts :=
          foldl (fun parts key => alter (add_bot (p_botMargin p)) key parts) parts ks in
        Some (mkPlaced 0 parts (p_cols p) pliWidth
                       (p_tallest p + (p_botMargin p + p_topMargin p)))
    end
  else None.


(** ** [Pli::placeCols] *)

(** [PliPart::maxMargin] (a maximum of pixel values). *)
Definition maxMargin (p : PliPart) : Z :=
  let margin1 := Z.max (instanceMarginX p) (csiMarginX p) in
  let margin1 := if styled p then Z.max margin1 (styleMarginX p) else margin1 in
  if decide (annotWidth p ≠ 0) then Z.max margin1 (styleMarginX p) else margin1.

(** The loop of [placeCols] over the keys, with the running [width] and
    [height] and the column number [i]. *)
Fixpoint cols_loop (keys : list string) (i : Z) (botMargin : Q)
    (parts : gmap string PliPart) (w h : Z) : gmap string PliPart * Z * Z :=
  match keys with
  | [] => (parts, w, h)
  | key :: rest =>
      let part := at_key parts key in
      let parts := alter (put_col w (Qtrunc botMargin) i) key parts in
      let w := w + width part in
      let h := if height part >? h then height part else h in
      let w := match rest with
               | next :: _ => w + Z.max (maxMargin part) (maxMargin (at_key parts next))
               | [] => w
               end in
      cols_loop rest (i + 1) botMargin parts w h
  end.

(** [placeCols]: one flat row.  The result is the parts and the member
    [size]; [None] stands for the access to [keys[0]] of an empty list. *)
Definition placeCols (cfg : PliConfig) (parts : gmap string PliPart) (keys : list string)
    : option (gmap string PliPart * (Z * Z)) :=
  key0 ← head keys;
  lastKey ← last keys;
  let border := (marginY cfg + thickness cfg)%Q in
  let topMargin := qMaxQ border (inject_Z (topMargin (at_key parts key0))) in
  let botMargin := qMaxQ border (inject_Z (csiMarginY (at_key parts key0))) in
  let borderMargin := (thickness cfg + marginX cfg)%Q in
  let w := Qtrunc (qMaxQ borderMargin (inject_Z (maxMargin (at_key parts key0)))) in
  let '(parts, w, h) := cols_loop keys 0 botMargin parts w 0 in
  let w := w + Qtrunc (qMaxQ (inject_Z (maxMargin (at_key parts lastKey))) borderMargin) in
  Some (parts, (w, Qtrunc (topMargin + inject_Z h + botMargin)%Q)).

(** ** [Pli::resizePli] *)

Inductive PliConstrain : Type :=
| PliConstrainArea
| PliConstrainSquare
| PliConstrainWidth
| PliConstrainHeight
| PliConstrainColumns.

#[global] Instance PliConstrain_eq_dec : EqDecision PliConstrain.
Proof. solve_decision. Defined.

Record ConstrainData : Type := mkConstrainData {
  type : PliConstrain;
  constraint : Q;
}.

(** The members of [Pli] that sizing reads and writes, and the values it
    takes from the meta tree: [pliMeta.pack], [pliMeta.sort] and the scan
    step [int(toPixels(0.1f,DPI))]. *)
Record PliState : Type := mkPliState {
  parts : gmap string PliPart;
  sortedKeys : list string;
  pli_size : Z * Z;           (* size[0], size[1] *)
}.

Record SizeConfig : Type := mkSizeConfig {
  pli : PliConfig;
  pack : bool;
  sort : bool;
  step : Z;
  sortOrder : SortOrder;
}.

(** The loops [for (i = 0; i < parts.size(); i++)] over
    [parts[sortedKeys[i]]]. *)
Definition each_part (parts : gmap string PliPart) (keys : list string) : list PliPart :=
  at_key parts <$> take (size parts) keys.

Definition sum_heights (parts : gmap string PliPart) (keys : list string) : Z :=
  foldl (fun acc p => acc + height p) 0 (each_part parts keys).

(** The largest [left + width] and the largest [bot + height], from 0. *)
Definition extent_w (parts : gmap string PliPart) (keys : list string) : Z :=
  foldl (fun w p => let t := left p + width p in if t >? w then t else w) 0
        (each_part parts keys).

Definition extent_h (parts : gmap string PliPart) (keys : list string) : Z :=
  foldl (fun h p => let t := bot p + height p in if t >? h then t else h) 0
        (each_part parts keys).

(** The scan of the Columns constraint: rising heights until [placePli]
    yields the wanted number of columns.  The result is the last
    [placePli] result, if there was a call. *)
Fixpoint columns_scan (fuel : nat) (sc : SizeConfig) (keys : list string) (bomCols : Z)
    (maxHeight : Z) (parts : gmap string PliPart) (h : Z) (prev : option placed_pli)
    : option (gmap string PliPart * option placed_pli) :=
  match fuel with
  | O => None
  | S fuel' =>
      if h <=? maxHeight then
        r ← placePli (pli sc) parts keys 10000000 h (pack sc) (sort sc);
        if decide (rc r = 0 ∧ r_cols r = bomCols) then Some (r_parts r, Some r)
        else columns_scan fuel' sc keys bomCols maxHeight (r_parts r) (h + 1) (Some r)
      else Some (parts, prev)
  end.

(** The scan of the Width constraint: falling heights in steps of 4. *)
Fixpoint width_scan (fuel : nat) (sc : SizeConfig) (keys : list string) (limit : Q)
    (parts : gmap string PliPart) (h good_height : Z)
    : option (gmap string PliPart * Z) :=
  match fuel with
  | O => None
  | S fuel' =>
      if h >? 0 then
        r ← placePli (pli sc) parts keys 10000000 h (pack sc) (sort sc);
        if decide (rc r ≠ 0) then Some (r_parts r, good_height)
        else
          let w := extent_w (r_parts r) keys in
          let good_height := if Qlt_le_dec (inject_Z w) limit then h else good_height in
          width_scan fuel' sc keys limit (r_parts r) (h - 4) good_height
      else Some (parts, good_height)
  end.

(** The scan of the Area constraint: falling heights in steps of [step],
    keeping the height of least [w*h]. *)
Fixpoint area_scan (fuel : nat) (sc : SizeConfig) (keys : list string)
    (parts : gmap string PliPart) (h min_area good_height : Z)
    : option (gmap string PliPart * Z) :=
  match fuel with
  | O => None
  | S fuel' =>
      if h >? 0 then
        r ← placePli (pli sc) parts keys 10000000 h (pack sc) (sort sc);
        if decide (rc r ≠ 0) then Some (r_parts r, good_height)
        else
          let eh := extent_h (r_parts r) keys in
          let ew := extent_w (r_parts r) keys in
          let '(min_area, good_height) :=
            if ew * eh <? min_area then (ew * eh, h) else (min_area, good_height) in
          area_scan fuel' sc keys (r_parts r) (h - step sc) min_area good_height
      else Some (parts, good_height)
  end.

(** The scan of the Square constraint, keeping the height of least
    difference between [pliWidth] and [pliHeight]. *)
Fixpoint square_scan (fuel : nat) (sc : SizeConfig) (keys : list string)
    (parts : gmap string PliPart) (h min_delta good_height : Z)
    : option (gmap string PliPart * Z) :=
  match fuel with
  | O => None
  | S fuel' =>
      if h >? 0 then
        r ← placePli (pli sc) parts keys 10000000 h (pack sc) (sort sc);
        if decide (rc r ≠ 0) then Some (r_parts r, good_height)
        else
          let hh := pliWidth r in
          let ww := pliHeight r in
          let delta := if ww <? hh then hh - ww else if hh <? ww then ww - hh else 0 in
          let '(min_delta, good_height) :=
            if delta <? min_delta then (delta, h) else (min_delta, good_height) in
          square_scan fuel' sc keys (r_parts r) (h - step sc) min_delta good_height
      else Some (parts, good_height)
  end.

(** [Pli::resizePli(meta, constrainData)].  The result is the return
    value, the state and [constrainData], which is passed by reference.
    [None] means that a [placePli] call has no result, that a scan did
    not end within the number of rounds that suffices whenever its step
    is positive, or that [placeCols] was entered without a key. *)
Definition resizePli (sc : SizeConfig) (cd : ConstrainData) (st : PliState)
    : option (Z * PliState * ConstrainData) :=
  let keys := sortedKeys st in
  let finish (ps : gmap string PliPart) (w h : Z) (cd : ConstrainData) :=
    Some (0, mkPliState ps keys (w, h), cd) in
  match type cd with
  | PliConstrainHeight =>
      r ← placePli (pli sc) (parts st) keys 10000000 (Qtrunc (constraint cd))
                   (pack sc) (sort sc);
      let cd := if decide (rc r = -2) then mkConstrainData PliConstrainArea (constraint cd)
                else cd in
      finish (r_parts r) (pliWidth r) (pliHeight r) cd
  | PliConstrainColumns =>
      if Qle_bool (inject_Z (Z.of_nat (size (parts st)))) (constraint cd) then
        '(ps, (w, h)) ← placeCols (pli sc) (parts st) keys;
        finish ps w h cd
      else
        let bomCols := Qtrunc (constraint cd) in
        let maxHeight :=
          foldl (fun acc p => acc + (height p + csiMarginY p)) 0
                (each_part (parts st) keys) in
        let maxHeight := maxHeight + maxHeight in
        if decide (bomCols ≠ 0) then
          let start := Z.quot maxHeight (4 * bomCols) in
          '(ps, last) ← columns_scan (S (Z.to_nat (maxHeight - start + 1))) sc keys bomCols
                                     maxHeight (parts st) start None;
          match last with
          | Some r => finish ps (pliWidth r) (pliHeight r) cd
          | None => finish ps 0 0 cd
          end
        else finish (parts st) 0 0 cd
  | PliConstrainWidth =>
      let h := sum_heights (parts st) keys in
      '(ps, good_height) ← width_scan (S (Z.to_nat h)) sc keys (constraint cd)
                                      (parts st) h h;
      r ← placePli (pli sc) ps keys 10000000 good_height (pack sc) (sort sc);
      finish (r_parts r) (pliWidth r) (pliHeight r) cd
  | PliConstrainArea =>
      let h := sum_heights (parts st) keys in
      '(ps, good_height) ← area_scan (S (Z.to_nat h)) sc keys (parts st) h (h * h) h;
      r ← placePli (pli sc) ps keys 10000000 good_height (pack sc) (sort sc);
      finish (r_parts r) (pliWidth r) (pliHeight r) cd
  | PliConstrainSquare =>
      let h := sum_heights (parts st) keys in
      '(ps, good_height) ← square_scan (S (Z.to_nat h)) sc keys (parts st) h h h;
      r ← placePli (pli sc) ps keys 10000000 good_height (pack sc) (sort sc);
      finish (r_parts r) (pliWidth r) (pliHeight r) cd
  end.

(** [Pli::sortPli] and [Pli::sizePli(meta, parentRelativeType, perStep)].
    An empty hash ends the call at once (return 1).  Otherwise [sortPli]
    first runs [Pli::partSize], which renders the image of every part,
    measures it and its annotation texts, writes the sizes, silhouettes,
    margins and [sortSize] of the part, and deletes from the hash the
    parts whose type is not known.  Rendering and text measurement are
    Qt's and the renderer's; they enter as the function [partSize], which
    gives the hash that the call leaves.  When no part is left, [sortPli]
    returns 1 and [sizePli] hands that on.  Otherwise the keys of the
    hash, [keys0 = parts.keys()] after [partSize], are sorted and the list
    is sized under the configured constraint.  Outside a BOM [sortPli]
    switches [pliMeta.sort] on. *)
Definition sizePli (fuel : nat)
    (partSize : gmap string PliPart -> gmap string PliPart)
    (sc : SizeConfig) (cd : ConstrainData)
    (keys0 : list string) (st : PliState) : option (Z * PliState * ConstrainData) :=
  if decide (size (parts st) = 0%nat) then Some (1, st, cd)
  else
    let sized := partSize (parts st) in
    if decide (size sized < 1)%nat
    then Some (1, mkPliState sized (sortedKeys st) (pli_size st), cd)
    else
      let sc := if bom (pli sc) then sc
                else mkSizeConfig (pli sc) (pack sc) true (step sc) (sortOrder sc) in
      keys ← sortParts fuel sized (sortOrder sc) false keys0;
      resizePli sc cd (mkPliState sized keys (pli_size st)).

(** ** [Pli::getLeftEdge] and [Pli::getRightEdge] *)

(** The alpha channel of a part image, [image.alphaChannel()]: its width
    and height and, for every pixel, the value that
    [QColor(alpha.pixel(x,y)).blue()] shows. *)
Record AlphaImage : Type := mkAlphaImage {
  img_width : Z;
  img_height : Z;
  blue : Z -> Z -> Z;
}.

(** [c.blue()] as a condition. *)
Definition opaque (image : AlphaImage) (y x : Z) : bool := negb (blue image x y =? 0).

(** What one scanline adds to the left edge: the first pixel that shows,
    counted from the left; when the loop ran through all of
    [0 .. width-1] the local [x] equals the width and the last column is
    entered. *)
Definition left_entry (image : AlphaImage) (y : Z) : list Z :=
  match list_find (fun x => opaque image y x = true) (seqZ 0 (img_width image)) with
  | Some (_, x) => [x]
  | None => if decide (Z.max 0 (img_width image) = img_width image)
            then [img_width image - 1] else []
  end.

(** What one scanline adds to the right edge: the first pixel that shows,
    counted from the right; when there is none the local [x] ends below 0
    and column 0 is entered. *)
Definition right_entry (image : AlphaImage) (y : Z) : list Z :=
  match list_find (fun x => opaque image y x = true)
                  (reverse (seqZ 0 (img_width image))) with
  | Some (_, x) => [x]
  | None => [0]
  end.

(** [getLeftEdge(image, edge)] and [getRightEdge(image, edge)]: the list
    [edge] with the entries of the scanlines [0 .. height-1] appended. *)
Definition getLeftEdge (image : AlphaImage) (edge : list Z) : list Z :=
  foldl (fun edge y => edge ++ left_entry image y) edge (seqZ 0 (img_height image)).

Definition getRightEdge (image : AlphaImage) (edge : list Z) : list Z :=
  foldl (fun edge y => edge ++ right_entry image y) edge (seqZ 0 (img_height image)).

End Pli.

(** * Part III: properties of the meta-command leaves *)

Import Meta.


Lemma bind_Done {A B : Type} (m : outcome A) (f : A -> outcome B) (b : B) :
  m ≫= f = Done b -> exists a, m = Done a /\ f a = Done b.
Proof. destruct m; simpl; [eauto | discriminate]. Qed.

(** Inverts a parser run that ended in [Done]: every sequencing step
    yields the intermediate result, every case distinction is split. *)
Ltac parser_inv :=
  repeat match goal with
  | H : _ ≫= _ = Done _ |- _ =>
      let a := fresh "a" in let Ha := fresh "Ha" in
      apply bind_Done in H as (a & Ha & H)
  | H : mret _ = Done _ |- _ => unfold mret, outcome_ret in H
  | H : Done _ = Done _ |- _ => injection H as H; subst
  | H : Crash _ = Done _ |- _ => discriminate H
  | H : (_, _) = (_, _) |- _ => injection H as ??; subst
  | H : Some _ = Some _ |- _ => injection H as H; subst
  | H : None = Some _ |- _ => discriminate H
  | H : Some _ = None |- _ => discriminate H
  | H : inl _ = inl _ |- _ => injection H as H; subst
  | H : inr _ = inr _ |- _ => injection H as H; subst
  | H : inl _ = inr _ |- _ => discriminate H
  | H : inr _ = inl _ |- _ => discriminate H
  | H : (if ?c then _ else _) = Done _ |- _ => destruct c
  | H : (match ?x with _ => _ end) = Done _ |- _ => destruct x eqn:?
  end.


Section SlotFacts.
Context {T : Type}.
Implicit Types (m : LeafMeta T) (s : slots T).

Lemma rd_wr_same {A : Type} (s : slots A) (b : bool) (a : A) : rd (wr s b a) b = a.
Proof. by destruct b. Qed.

Lemma rd_wr_other {A : Type} (s : slots A) (b : bool) (a : A) :
  rd (wr s b a) (negb b) = rd s (negb b).
Proof. by destruct b. Qed.

Lemma value_set_value m (v : T) : value (set_value m v) = v.
Proof. apply rd_wr_same. Qed.

Lemma value_set_here m h : value (set_here m h) = value m.
Proof. done. Qed.

Lemma here_set_here m h : here_of (set_here m h) = h.
Proof. apply rd_wr_same. Qed.

(** A write to the active slot leaves the flags, the preamble and the
    other slot as they are. *)
Definition frame (m m' : LeafMeta T) : Prop :=
  preamble m' = preamble m ∧ pushed m' = pushed m ∧ global m' = global m ∧
  rd (_value m') (negb (pushed m)) = rd (_value m) (negb (pushed m)) ∧
  rd (_here m') (negb (pushed m)) = rd (_here m) (negb (pushed m)).

Lemma frame_refl m : frame m m.
Proof. by repeat split. Qed.

Lemma frame_trans m1 m2 m3 : frame m1 m2 -> frame m2 m3 -> frame m1 m3.
Proof.
  intros (Hp & Hpu & Hg & Hv & Hh) (Hp' & Hpu' & Hg' & Hv' & Hh').
  rewrite Hpu in Hv', Hh'. repeat split; congruence.
Qed.

Lemma frame_set_value m v : frame m (set_value m v).
Proof. repeat split; simpl; auto using rd_wr_other. Qed.

Lemma frame_set_here m h : frame m (set_here m h).
Proof. repeat split; simpl; auto using rd_wr_other. Qed.

End SlotFacts.

Create HintDb frame.
#[local] Hint Resolve frame_refl frame_set_value frame_set_here : frame.

Lemma frame_set_value_here {T : Type} (m : LeafMeta T) (v : T) (h : Where) :
  frame m (set_here (set_value m v) h).
Proof. eapply frame_trans; [apply frame_set_value | apply frame_set_here]. Qed.

#[local] Hint Resolve frame_set_value_here : frame.

Lemma frame_step_value {T : Type} (m m1 : LeafMeta T) (v : T) :
  frame m m1 -> frame m (set_value m1 v).
Proof. intros H. eapply frame_trans; [exact H | apply frame_set_value]. Qed.

Lemma frame_step_here {T : Type} (m m1 : LeafMeta T) (h : Where) :
  frame m m1 -> frame m (set_here m1 h).
Proof. intros H. eapply frame_trans; [exact H | apply frame_set_here]. Qed.

#[local] Hint Resolve frame_step_value frame_step_here : frame.

Section FrameOfParsers.
Context `{E : Ext}.
Variable reportErrors : bool.







Lemma PlacementMeta_setValue_frame i rel (m m1 : LeafMeta PlacementData) :
  frame m m1 -> frame m (PlacementMeta_setValue i rel m1).
Proof.
  intros H. unfold PlacementMeta_setValue.
  destruct (decode_row i) as [[p j] pr]. eauto with frame.
Qed.

Lemma set_offsets_frame o (m m1 : LeafMeta PlacementData) :
  frame m m1 -> frame m (set_offsets m1 o).
Proof. intros H. unfold set_offsets. eauto with frame. Qed.

Hint Resolve PlacementMeta_setValue_frame set_offsets_frame : frame.


Lemma BackgroundMeta_parse_frame argv index here m r m' :
  BackgroundMeta_parse argv index here m = Done (r, m') -> frame m m'.
Proof.
  unfold BackgroundMeta_parse; intros H; parser_inv; eauto with frame.
Qed.



End FrameOfParsers.

(** ** Leaves of the tree: flags and slots *)

Section LeafFacts.
Context `{E : Ext}.
Variable reportErrors : bool.











(** The search through the hash reaches the first entry with a selected
    keyword. *)
Lemma on_child_app {N : Type} (sel : string -> bool) (run : N -> outcome (Rc * N))
    (pre post : list (string * N)) (K : string) (c : N) :
  (forall k, k ∈ pre.*1 -> sel k = false) ->
  sel K = true ->
  on_child sel run (pre ++ (K, c) :: post)
  = Some ('(rc, c') ← run c; mret (rc, (pre ++ (K, c') :: post)%list)).
Proof.
  intros Hpre HK. induction pre as [|[k c0] pre IH]; simpl.
  - by rewrite HK.
  - rewrite (Hpre k) by (simpl; left).
    rewrite IH by (intros k' Hk'; apply Hpre; simpl; by right).
    simpl. f_equal. by destruct (run c) as [[rc c']|].
Qed.

End LeafFacts.

(** ** Failure leaves the leaf as it was: the leaves that keep to it *)

Section Atomic.
Context `{E : Ext}.
Variable reportErrors : bool.

Lemma IntMeta_parse_atomic lo hi rc argv index here m r m' :
  IntMeta_parse reportErrors lo hi rc argv index here m = Done (r, m') ->
  r ≠ rc -> m' = m.
Proof. unfold IntMeta_parse; intros H Hr; parser_inv; congruence. Qed.

Lemma FloatMeta_parse_atomic lo hi rc argv index here m r m' :
  FloatMeta_parse reportErrors lo hi rc argv index here m = Done (r, m') ->
  r ≠ rc -> m' = m.
Proof. unfold FloatMeta_parse; intros H Hr; parser_inv; congruence. Qed.

Lemma BoolMeta_parse_atomic argv index here m m' :
  BoolMeta_parse reportErrors argv index here m = Done (FailureRc, m') -> m' = m.
Proof. unfold BoolMeta_parse; intros H; parser_inv; congruence. Qed.

Lemma BackgroundMeta_parse_atomic argv index here m m' :
  BackgroundMeta_parse argv index here m = Done (FailureRc, m') -> m' = m.
Proof. unfold BackgroundMeta_parse; intros H; parser_inv; congruence. Qed.

Lemma BackgroundMeta_parse_sets_here argv index here m m' :
  BackgroundMeta_parse argv index here m = Done (OkRc, m') -> here_of m' = here.
Proof.
  unfold BackgroundMeta_parse; intros H; parser_inv; try congruence;
    apply here_set_here.
Qed.

Lemma PlacementMeta_parse_atomic argv index here m m' :
  PlacementMeta_parse argv index here m = Done (FailureRc, m') -> m' = m.
Proof. unfold PlacementMeta_parse; intros H; parser_inv; intuition congruence. Qed.

(** [IntMeta::format] does not depend on the stored value. *)
Lemma IntMeta_format_ignores_value local glob (m : LeafMeta Z) (v : Z) :
  IntMeta_format local glob (set_value m v) = IntMeta_format local glob m.
Proof. reflexivity. Qed.

(** A round trip that does work: [BoolMeta]. *)
Lemma BoolMeta_round_trip (b : bool) here (m : LeafMeta bool) :
  let m1 := set_here (set_value m b) here in
  BoolMeta_parse reportErrors
    (split_line (if value m1 then "TRUE" else "FALSE")) 0 here m1 = Done (OkRc, m1).
Proof.
  intros m1. subst m1. rewrite value_set_here, value_set_value.
  destruct m as [pre pu gl [v0 v1] [h0 h1]], b, pu; reflexivity.
Qed.

End Atomic.

(** ** The claims about the leaves *)

Definition here1 : Where := mkWhere "model.ldr" 12.
Definition here2 : Where := mkWhere "model.ldr" 40.

Definition int_leaf : LeafMeta Z :=
  mkLeaf "0 !LPUB PLI SCALE " false false (Slots 1 1) (Slots here1 here1).

(** C3 (round trip, at the failing input).  [IntMeta]: the directive tail
    [5] is accepted and stored, the leaf formats its value to the bare
    preamble, with an empty tail, and parsing that tail fails instead of
    giving the value 5 back. *)
Theorem C3_IntMeta_round_trip_fails :
  exists m1 : LeafMeta Z,
    IntMeta_parse (E := Decimal.ext) false 0 100 OkRc ["5"] 0 here2 int_leaf = Done (OkRc, m1)
    ∧ value m1 = 5
    ∧ IntMeta_format false false m1 = preamble m1 +:+ ""
    ∧ IntMeta_parse (E := Decimal.ext) false 0 100 OkRc (split_line "") 0 here2 m1
      = Done (FailureRc, m1).
Proof. eexists. repeat split; reflexivity. Qed.

Definition placement_leaf : LeafMeta (@PlacementData Decimal.ext) :=
  mkLeaf "0 !LPUB PLI PLACEMENT " false false
         (Slots PlacementData_init PlacementData_init) (Slots here1 here1).

(** Evaluates the closed parts of a parser run (token accesses, keyword
    tests, decisions on numbers and strings) and leaves the conversions of
    the numerals to the hypotheses about them. *)
Ltac eval_closed :=
  repeat first
    [ progress cbn [mbind outcome_bind mret outcome_ret fst snd]
    | match goal with
      | |- context [tok ?l ?i] =>
          let v := eval vm_compute in (tok l i) in change (tok l i) with v
      | |- context [one_of ?s ?l] =>
          let v := eval vm_compute in (one_of s l) in change (one_of s l) with v
      | |- context [find_spot ?r ?i ?p ?j ?q] =>
          let v := eval vm_compute in (find_spot r i p j q) in
          change (find_spot r i p j q) with v
      | |- context [tokenMap_at ?s] =>
          let v := eval vm_compute in (tokenMap_at s) in change (tokenMap_at s) with v
      | |- context [decide ?P] =>
          first [ rewrite (decide_True (P := P)) by (repeat split; vm_compute; reflexivity)
                | rewrite (decide_False (P := P))
                    by (vm_compute; intuition discriminate) ]
      | H : toFloat ?s = _ |- context [toFloat ?s] => rewrite H
      end ].

(** C4 (counterexample).  The directive tail TOP LEFT PAGE INSIDE 0.1 0.2
    of the scenario is rejected: the table has no row for TOP with LEFT
    and INSIDE, and the leaf stays as it was. *)
Lemma C4_top_left_inside_is_rejected :
  PlacementMeta_parse (E := Decimal.ext)
    ["TOP"; "LEFT"; "PAGE"; "INSIDE"; "0.1"; "0.2"] 0 here2 placement_leaf
  = Done (FailureRc, placement_leaf).
Proof. reflexivity. Qed.

(** C4 (amended).  TOP LEFT PAGE INSIDE 0.1 0.2 returns the failure code
    and leaves the leaf unchanged; with OUTSIDE in place of INSIDE the
    tokens decode to row 1 of the table, the zone [TopLeftOutside] (Top
    placement, Left justification, Outside), relative to the page, and the
    offsets are the two numbers read. *)
Theorem C4_placement_decode `{E : Ext} (a b : float) (here : Where)
    (m : LeafMeta PlacementData) :
  toFloat "0.1" = Some a ->
  toFloat "0.2" = Some b ->
  PlacementMeta_parse ["TOP"; "LEFT"; "PAGE"; "INSIDE"; "0.1"; "0.2"] 0 here m
    = Done (FailureRc, m)
  ∧ placementOptions !! 1%nat = Some ("TOP", "LEFT", "OUTSIDE")
  ∧ exists m',
      PlacementMeta_parse ["TOP"; "LEFT"; "PAGE"; "OUTSIDE"; "0.1"; "0.2"] 0 here m
        = Done (OkRc, m')
      ∧ value m' = mkPlacementData Top Left PageType Outside TopLeftOutside (a, b)
      ∧ here_of m' = here.
Proof.
  intros Ha Hb. split; [|split; [reflexivity|]].
  - unfold PlacementMeta_parse, placement_shape, placement_tail.
    eval_closed. reflexivity.
  - eexists. split; [|split].
    + unfold PlacementMeta_parse, placement_shape, placement_tail.
      eval_closed. reflexivity.
    + destruct m as [pre pu gl [v0 v1] [h0 h1]]. destruct pu; reflexivity.
    + apply here_set_here.
Qed.

Lemma C4_placement_decode_witness :
  toFloat (Ext := Decimal.ext) "0.1" = Some (Decimal.mkDec 1 1)
  ∧ toFloat (Ext := Decimal.ext) "0.2" = Some (Decimal.mkDec 2 1)
  ∧ (PlacementMeta_parse ["TOP"; "LEFT"; "PAGE"; "INSIDE"; "0.1"; "0.2"] 0 here2
                         placement_leaf
       = Done (FailureRc, placement_leaf)
     ∧ placementOptions !! 1%nat = Some ("TOP", "LEFT", "OUTSIDE")
     ∧ exists m',
         PlacementMeta_parse ["TOP"; "LEFT"; "PAGE"; "OUTSIDE"; "0.1"; "0.2"] 0 here2
                             placement_leaf
           = Done (OkRc, m')
         ∧ value m'
           = mkPlacementData (E := Decimal.ext) Top Left PageType Outside TopLeftOutside
                             (Decimal.mkDec 1 1, Decimal.mkDec 2 1)
         ∧ here_of m' = here2).
Proof.
  split; [reflexivity | split; [reflexivity |]].
  apply (C4_placement_decode (E := Decimal.ext)); reflexivity.
Defined.

Definition border_leaf : LeafMeta (@BorderData Decimal.ext) :=
  let v := mkBorderData (E := Decimal.ext) BdrSquare "Black"
                        (Decimal.mkDec 125 3) (Decimal.mkDec 15 0)
                        (Decimal.mkDec 0 0, Decimal.mkDec 0 0) 1 in
  mkLeaf "0 !LPUB PLI BORDER " false false (Slots v v) (Slots here1 here1).

(** C5 (atomicity, at the failing input).  [BorderMeta::parse] on the
    tail NONE solid returns the failure code, yet the stored border type
    has changed from Square to None. *)
Theorem C5_border_failure_changes_value :
  exists m' : LeafMeta BorderData,
    BorderMeta_parse (E := Decimal.ext) ["NONE"; "solid"] 0 here2 border_leaf
      = Done (FailureRc, m')
    ∧ bd_type (value border_leaf) = BdrSquare
    ∧ bd_type (value m') = BdrNone.
Proof. eexists. repeat split; reflexivity. Qed.

(** The same holds for a failing MARGINS clause after an accepted SQUARE
    border, and for [FreeFormMeta] with two unknown words. *)
Lemma border_margins_failure_changes_value :
  exists m' : LeafMeta BorderData,
    BorderMeta_parse (E := Decimal.ext)
      ["SQUARE"; "2"; "Red"; "0.5"; "MARGINS"; "x"; "y"] 0 here2 border_leaf
      = Done (FailureRc, m')
    ∧ color (value m') = "Red".
Proof. eexists. repeat split; reflexivity. Qed.

(** C10 (totality of [BorderMeta::parse], at the failing input).  When
    NONE is the last token, the guard [argv.size() - index >= 1] holds and
    the token after the end of the list, [argv[index+1]], is read. *)
Theorem C10_border_none_reads_past_end `{E : Ext} (argv : list string) (index : Z)
    (here : Where) (m : LeafMeta BorderData) :
  tok argv index = Done "NONE" ->
  index = size_of argv - 1 ->
  BorderMeta_parse argv index here m = Crash (index + 1).
Proof.
  intros Ht Hi. unfold BorderMeta_parse. rewrite Ht. simpl.
  destruct (decide _) as [_|Hn]; [|exfalso; apply Hn; split; [done | lia]].
  assert (tok argv (index + 1) = Crash (index + 1)) as ->; [|done].
  unfold tok. destruct (decide _); [|done].
  rewrite lookup_ge_None_2; [done|]. unfold size_of in Hi. lia.
Qed.

Lemma C10_border_none_reads_past_end_witness :
  tok ["NONE"] 0 = Done "NONE"
  ∧ 0 = size_of ["NONE"] - 1
  ∧ BorderMeta_parse (E := Decimal.ext) ["NONE"] 0 here2 border_leaf = Crash (0 + 1).
Proof.
  split; [reflexivity | split; [reflexivity |]].
  apply (C10_border_none_reads_past_end (E := Decimal.ext)); reflexivity.
Defined.

(** The same access through the tree: the directive BORDER NONE given to
    a branch that holds a border leaf. *)
Lemma border_none_through_branch :
  BranchMeta_parse (E := Decimal.ext) false
    (NBranch false false [("BORDER", NLeaf (LBorder border_leaf))])
    ["BORDER"; "NONE"] 0 here2
  = Crash 2.
Proof. reflexivity. Qed.

(** ** Scope tokens *)

Section Scope.
Context `{E : Ext}.
Variable reportErrors : bool.

(** An explicitly matched keyword hands the rest of the directive to its
    child, after the scope token if there is one. *)
Lemma Node_parse_exact (p g : bool) (pre post : list (string * Node)) (K : string)
    (c : Node) (argv : list string) (index : Z) (here : Where) :
  K ∉ pre.*1 ->
  index < size_of argv ->
  tok argv index = Done K ->
  Node_parse reportErrors (NBranch p g (pre ++ (K, c) :: post)) Keep argv index here
  = '(rc, c') ← ('(mk', offset) ← scope_token argv index;
                  if decide (size_of argv - index > 1 ∧ index + offset >= size_of argv)
                  then mret (FailureRc, mark_node mk' c)
                  else Node_parse reportErrors c mk' argv (index + offset) here);
    mret (rc, NBranch p g (pre ++ (K, c') :: post)%list).
Proof.
  intros Hpre Hi Ht. cbn [Node_parse mark_flags].
  rewrite decide_True by done. rewrite Ht. cbn [mbind outcome_bind].
  rewrite on_child_app.
  - match goal with |- context [scope_token ?a ?i ≫= ?f] =>
      destruct (scope_token a i ≫= f) as [[rc c']|]; reflexivity
    end.
  - intros k Hk. apply bool_decide_eq_false. intros ->. done.
  - by apply bool_decide_eq_true.
Qed.



End Scope.



Definition sub_leaf : SubMeta :=
  mkSubMeta "0 !LPUB PLI BEGIN SUB " false false (mkSubData "" "" FailureRc)
            (Slots here1 here1).

Definition scale_leaf : @Leaf Decimal.ext := LInt 0 100 OkRc int_leaf.

Definition sub_entry : list (string * @Node Decimal.ext) :=
  [("SUB", NLeaf (LSub sub_leaf))].

Definition scale_tree : @Node Decimal.ext :=
  NBranch false false (sub_entry ++ [("SCALE", NLeaf scale_leaf)]).



(** * Part IV: properties of the parts-list engine *)

Import Pli.

(** ** The exchange sort over a list, for any test [gt] *)

(** [Pli::sortParts] compares the entry at [firstPart] with every later
    entry and exchanges the two when they are out of order.  The facts
    below are about that loop shape for an arbitrary test [gt]; the test
    of [sortParts] is put in afterwards. *)
Section ExchangeSort.
Local Open Scope nat_scope.
Context {A : Type} `{!Inhabited A}.
Variable gt : A -> A -> bool.

Definition exchange_gen (keys : list A) (i j : nat) : list A :=
  match keys !! i, keys !! j with
  | Some a, Some b => <[j := a]> (<[i := b]> keys)
  | _, _ => keys
  end.

Definition step_gen (firstPart : nat) (st : list A * bool) (nextPart : nat)
    : list A * bool :=
  if gt (st.1 !!! firstPart) (st.1 !!! nextPart)
  then (exchange_gen st.1 firstPart nextPart, true)
  else st.

Definition round_gen (n : nat) (keys : list A) : list A * bool :=
  foldl (fun st firstPart =>
           foldl (step_gen firstPart) st (seq (S firstPart) (n - S firstPart)))
        (keys, false) (seq 0 (n - 1)).

(** The inner loop on a list: [x] is carried along the rest of the list
    and traded for every entry it should come after. *)
Fixpoint bubble (x : A) (l : list A) : A * list A * bool :=
  match l with
  | [] => (x, [], false)
  | y :: l' =>
      if gt x y then let '(m, r, _) := bubble y l' in (m, x :: r, true)
      else let '(m, r, u) := bubble x l' in (m, y :: r, u)
  end.

(** [k] rounds of the outer loop on a list. *)
Fixpoint pass (k : nat) (l : list A) : list A * bool :=
  match k, l with
  | S k', x :: rest =>
      let '(m, r, u) := bubble x rest in
      let '(l', u') := pass k' r in
      (m :: l', u || u')
  | _, _ => (l, false)
  end.

Lemma exchange_gen_cons (a : A) (l : list A) (i j : nat) :
  exchange_gen (a :: l) (S i) (S j) = a :: exchange_gen l i j.
Proof.
  unfold exchange_gen. simpl. destruct (l !! i), (l !! j); reflexivity.
Qed.

Lemma exchange_gen_middle (pre mid rest : list A) (x y : A) :
  exchange_gen (pre ++ x :: mid ++ y :: rest) (length pre) (length pre + S (length mid))
  = pre ++ y :: mid ++ x :: rest.
Proof.
  induction pre as [|a pre IH]; simpl.
  - unfold exchange_gen. simpl.
    rewrite list_lookup_middle by done. simpl. f_equal.
    rewrite insert_app_r_alt by lia. by rewrite Nat.sub_diag.
  - rewrite exchange_gen_cons. by rewrite IH.
Qed.

Lemma lookup_total_first (pre rest : list A) (x : A) :
  (pre ++ x :: rest) !!! length pre = x.
Proof. by rewrite list_lookup_total_middle. Qed.

Lemma lookup_total_second (pre mid rest : list A) (x y : A) :
  (pre ++ x :: mid ++ y :: rest) !!! (length pre + S (length mid)) = y.
Proof.
  replace (pre ++ x :: mid ++ y :: rest) with ((pre ++ x :: mid) ++ y :: rest)
    by (by rewrite <- app_assoc).
  apply list_lookup_total_middle. rewrite length_app. simpl. lia.
Qed.

(** The inner loop over the indices after [firstPart] is [bubble]. *)
Lemma inner_loop_bubble (rest : list A) :
  forall (pre mid : list A) (x : A) (u : bool),
    foldl (step_gen (length pre)) (pre ++ x :: mid ++ rest, u)
          (seq (length pre + S (length mid)) (length rest))
    = let '(m, r, u') := bubble x rest in (pre ++ m :: mid ++ r, u || u').
Proof.
  induction rest as [|y rest IH]; intros pre mid x u; simpl.
  - by rewrite orb_false_r.
  - unfold step_gen at 2. cbn [fst].
    rewrite lookup_total_first, lookup_total_second.
    replace (S (length pre + S (length mid))) with (length pre + S (length mid + 1)) by lia.
    destruct (gt x y) eqn:Hgt.
    + rewrite exchange_gen_middle.
      specialize (IH pre (mid ++ [x]) y true).
      rewrite length_app in IH. rewrite <- !app_assoc in IH. simpl in IH.
      rewrite IH. destruct (bubble y rest) as [[m r] u']. simpl.
      by rewrite <- app_assoc, orb_true_r.
    + specialize (IH pre (mid ++ [y]) x u).
      rewrite length_app in IH. rewrite <- !app_assoc in IH. simpl in IH.
      rewrite IH. destruct (bubble x rest) as [[m r] u']. simpl.
      by rewrite <- app_assoc.
Qed.

(** The outer loop over [firstPart] is [pass]. *)
Lemma outer_loop_pass (k : nat) :
  forall (pre l : list A) (u : bool),
    k < length l ∨ (k = 0 ∧ l = []) ->
    foldl (fun st firstPart =>
             foldl (step_gen firstPart) st
                   (seq (S firstPart) (length pre + length l - S firstPart)))
          (pre ++ l, u) (seq (length pre) k)
    = (pre ++ (pass k l).1, u || (pass k l).2).
Proof.
  induction k as [|k IH]; intros pre l u Hk; simpl.
  - by rewrite orb_false_r.
  - destruct l as [|x rest]; [simpl in Hk; lia|].
    simpl in Hk. cbn [pass].
    pose proof (inner_loop_bubble rest pre [] x u) as Hin. simpl in Hin.
    replace (length pre + length (x :: rest) - S (length pre)) with (length rest)
      by (simpl; lia).
    replace (S (length pre)) with (length pre + 1) at 1 by lia.
    rewrite Hin. destruct (bubble x rest) as [[m r] u1] eqn:Hb.
    assert (length r = length rest) as Hlen.
    { clear -Hb. revert x m r u1 Hb.
      induction rest as [|y rest IHr]; intros x m r u1 Hb; simpl in Hb.
      - by simplify_eq.
      - destruct (gt x y).
        + destruct (bubble y rest) as [[m' r'] u'] eqn:Hb'. simplify_eq. simpl.
          f_equal. eauto.
        + destruct (bubble x rest) as [[m' r'] u'] eqn:Hb'. simplify_eq. simpl.
          f_equal. eauto. }
    specialize (IH (pre ++ [m]) r (u || u1)).
    rewrite length_app in IH. simpl in IH.
    rewrite <- app_assoc in IH. simpl in IH.
    replace (S (length pre)) with (length pre + 1) by lia.
    replace (length pre + length (x :: rest)) with (length pre + 1 + length r)
      by (simpl; lia).
    rewrite IH by (destruct r; simpl in *; lia).
    destruct (pass k r) as [l' u']. simpl.
    by rewrite <- app_assoc, orb_assoc.
Qed.

Lemma round_gen_pass (keys : list A) :
  round_gen (length keys) keys = pass (length keys - 1) keys.
Proof.
  unfold round_gen.
  pose proof (outer_loop_pass (length keys - 1) [] keys false) as H.
  simpl in H. rewrite H.
  - by destruct (pass (length keys - 1) keys).
  - destruct keys; simpl; [by right | left; lia].
Qed.

Lemma bubble_length x l : length (bubble x l).1.2 = length l.
Proof.
  revert x. induction l as [|y l IH]; intros x; simpl; [done|].
  destruct (gt x y).
  - specialize (IH y). destruct (bubble y l) as [[m r] u]. simpl in *. by f_equal.
  - specialize (IH x). destruct (bubble x l) as [[m r] u]. simpl in *. by f_equal.
Qed.

Lemma bubble_perm x l : (bubble x l).1.1 :: (bubble x l).1.2 ≡ₚ x :: l.
Proof.
  revert x. induction l as [|y l IH]; intros x; simpl; [done|].
  destruct (gt x y).
  - specialize (IH y). destruct (bubble y l) as [[m r] u]. simpl in *.
    etrans; [apply Permutation_swap|]. by f_equiv.
  - specialize (IH x). destruct (bubble x l) as [[m r] u]. simpl in *.
    etrans; [apply Permutation_swap|]. rewrite IH. apply Permutation_swap.
Qed.

Lemma pass_perm k l : (pass k l).1 ≡ₚ l.
Proof.
  revert l. induction k as [|k IH]; intros l; [by destruct l|].
  destruct l as [|x rest]; [done|]. cbn [pass].
  pose proof (bubble_perm x rest) as Hb.
  destruct (bubble x rest) as [[m r] u]. simpl in Hb.
  specialize (IH r). destruct (pass k r) as [l' u']. simpl in *.
  by rewrite IH.
Qed.

(** From here on [gt] is the strict part of a total preorder. *)
Hypothesis gt_asym : forall a b, gt a b = true -> gt b a = false.
Hypothesis le_trans : forall a b c, gt a b = false -> gt b c = false -> gt a c = false.

Definition in_order (a b : A) : Prop := gt a b = false.

Lemma in_order_refl a : in_order a a.
Proof. unfold in_order. destruct (gt a a) eqn:H; [|done]. by rewrite (gt_asym _ _ H) in H. Qed.

(** [bubble] brings a least element to the front. *)
Lemma bubble_least x l :
  in_order (bubble x l).1.1 x ∧ Forall (in_order (bubble x l).1.1) (bubble x l).1.2.
Proof.
  revert x. induction l as [|y l IH]; intros x; simpl.
  - split; [apply in_order_refl | constructor].
  - destruct (gt x y) eqn:Hxy.
    + destruct (IH y) as [Hy Hall]. destruct (bubble y l) as [[m r] u]. simpl in *.
      assert (in_order m x) by (eapply le_trans; [exact Hy | by apply gt_asym]).
      split; [done | by constructor].
    + destruct (IH x) as [Hx Hall]. destruct (bubble x l) as [[m r] u]. simpl in *.
      split; [done|]. constructor; [|done]. by eapply le_trans.
Qed.

(** When nothing is out of order, [bubble] changes nothing. *)
Lemma bubble_sorted x l : Forall (in_order x) l -> bubble x l = (x, l, false).
Proof.
  induction 1 as [|y l Hy Hall IH]; simpl; [done|].
  unfold in_order in Hy. by rewrite Hy, IH.
Qed.

Lemma pass_sorted k l : StronglySorted in_order l -> pass k l = (l, false).
Proof.
  revert l. induction k as [|k IH]; intros l Hl; [by destruct l|].
  destruct l as [|x rest]; [done|]. cbn [pass].
  apply StronglySorted_inv in Hl as [Hrest Hx].
  rewrite bubble_sorted by done. by rewrite IH.
Qed.

(** One round sorts the list. *)
Lemma pass_sorts k l : length l - 1 <= k -> StronglySorted in_order (pass k l).1.
Proof.
  revert l. induction k as [|k IH]; intros l Hk.
  - destruct l as [|x [|y l]]; simpl in *; try lia; repeat constructor.
  - destruct l as [|x rest]; [constructor|]. cbn [pass].
    pose proof (bubble_least x rest) as [_ Hall].
    pose proof (bubble_length x rest) as Hlen.
    destruct (bubble x rest) as [[m r] u]. simpl in *.
    specialize (IH r). pose proof (pass_perm k r) as Hp.
    destruct (pass k r) as [l' u']. simpl in *.
    constructor; [apply IH; lia|]. by rewrite Hp.
Qed.

End ExchangeSort.

(** ** The order of character strings *)

Lemma ltb_irrefl (s : string) : String.ltb s s = false.
Proof.
  unfold String.ltb.
  pose proof (String.compare_antisym s s) as H.
  by destruct (String.compare s s).
Qed.

Lemma ltb_asym (a b : string) : String.ltb a b = true -> String.ltb b a = false.
Proof.
  unfold String.ltb. rewrite (String.compare_antisym a b).
  by destruct (String.compare b a).
Qed.

Lemma ltb_trans (a b c : string) :
  String.ltb a b = true -> String.ltb b c = true -> String.ltb a c = true.
Proof.
  unfold String.ltb. intros Hab Hbc.
  assert (OrderedTypeEx.String_as_OT.lt a c) as Hac.
  { apply (OrderedTypeEx.String_as_OT.lt_trans a b c);
      apply OrderedTypeEx.String_as_OT.cmp_lt;
      unfold OrderedTypeEx.String_as_OT.cmp.
    - revert Hab. by destruct (String.compare a b).
    - revert Hbc. by destruct (String.compare b c). }
  apply OrderedTypeEx.String_as_OT.cmp_lt in Hac.
  unfold OrderedTypeEx.String_as_OT.cmp in Hac. by rewrite Hac.
Qed.

Lemma ltb_total (a b : string) :
  String.ltb a b = false -> String.ltb b a = false -> a = b.
Proof.
  unfold String.ltb. rewrite (String.compare_antisym a b).
  destruct (String.compare b a) eqn:Hc; simpl; try done.
  intros _ _. symmetry. by apply String.compare_eq_iff.
Qed.

(** ** The test of [sortParts] is a lexicographic comparison *)

(** The levels a comparison can consult, in order: a level is consulted
    when it names a field, and no earlier level names the same field. *)
Definition levels (so : SortOrder) (setSplit : bool) : list (SortOption * bool) :=
  let l1 := if decide (primary so ≠ NoSort)
            then [(primary so, primaryDirection so)] else [] in
  let l2 := if negb setSplit && bool_decide (secondary so ∉ l1.*1)
               && bool_decide (secondary so ≠ NoSort)
            then l1 ++ [(secondary so, secondaryDirection so)] else l1 in
  if negb setSplit && bool_decide (tertiary so ∉ l2.*1)
     && bool_decide (tertiary so ≠ NoSort)
  then l2 ++ [(tertiary so, tertiaryDirection so)] else l2.

(** The test at one level, for its direction. *)
Definition level_gt (ld : SortOption * bool) (a b : PliPart) : bool :=
  if ld.2 then String.ltb (sort_value ld.1 b) (sort_value ld.1 a)
  else String.ltb (sort_value ld.1 a) (sort_value ld.1 b).

(** The first level where the two parts differ decides. *)
Fixpoint lex_gt (ls : list (SortOption * bool)) (a b : PliPart) : bool :=
  match ls with
  | [] => false
  | ld :: rest =>
      if bool_decide (sort_value ld.1 a = sort_value ld.1 b)
      then lex_gt rest a b else level_gt ld a b
  end.

Section Levels.
Variables a b : PliPart.

(** The test that ends a comparison. *)
Definition final (c : cmp) : bool :=
  canSort c &&
  (if ascending c then String.ltb (nextValue c) (firstValue c)
   else String.ltb (firstValue c) (nextValue c)).

(** The locals [c] stand for the levels [ls]: while the two values are
    equal, [sortedBy] holds the fields of [ls]; and the comparison over
    [ls] followed by more levels goes on to those when the two values are
    equal, and is decided by the two values otherwise. *)
Definition stands_for (c : cmp) (ls : list (SortOption * bool)) : Prop :=
  (firstValue c = nextValue c ->
   forall o, sortedBy c o = bool_decide (o ∈ ls.*1)) ∧
  (forall rest, lex_gt (ls ++ rest) a b =
                if bool_decide (firstValue c = nextValue c)
                then lex_gt rest a b else final c).

Lemma stands_for_start (asc0 : bool) :
  stands_for (mkCmp "" "" (fun _ => false) false asc0) [].
Proof.
  split.
  - intros _ o. cbn [sortedBy]. symmetry. apply bool_decide_eq_false_2. set_solver.
  - done.
Qed.

Lemma stands_for_level (c : cmp) (ls : list (SortOption * bool))
    (option : SortOption) (asc : bool) :
  stands_for c ls ->
  stands_for
    (if bool_decide (firstValue c = nextValue c) && negb (sortedBy c option)
        && bool_decide (option ≠ NoSort)
     then consult option asc a b c else c)
    (if bool_decide (option ∉ ls.*1) && bool_decide (option ≠ NoSort)
     then ls ++ [(option, asc)] else ls).
Proof.
  intros [Hby Hlex].
  destruct (decide (firstValue c = nextValue c)) as [Heq|Hne].
  - rewrite (bool_decide_eq_true_2 _ Heq). rewrite (Hby Heq option). cbn [andb].
    rewrite <- bool_decide_not.
    destruct (bool_decide (option ∉ ls.*1) && bool_decide (option ≠ NoSort)) eqn:Hc;
      [|by split].
    apply andb_true_iff in Hc as [Hin Hno]. apply bool_decide_eq_true_1 in Hin.
    split.
    + intros _ o. unfold consult. cbn [sortedBy]. rewrite (Hby Heq o).
      rewrite fmap_app. cbn [fmap list_fmap fst].
      destruct (decide (o = option)) as [->|Ho].
      * symmetry. apply bool_decide_eq_true_2. set_solver.
      * apply bool_decide_ext. rewrite elem_of_app, list_elem_of_singleton. tauto.
    + intros rest. rewrite <- app_assoc. cbn [app]. rewrite Hlex.
      rewrite (bool_decide_eq_true_2 _ Heq). by cbn.
  - rewrite (bool_decide_eq_false_2 _ Hne). cbn [andb]. split; [done|].
    intros rest.
    destruct (bool_decide (option ∉ ls.*1) && bool_decide (option ≠ NoSort)).
    + rewrite <- app_assoc, Hlex. by rewrite (bool_decide_eq_false_2 _ Hne).
    + rewrite Hlex. by rewrite (bool_decide_eq_false_2 _ Hne).
Qed.

Lemma stands_for_final (c : cmp) (ls : list (SortOption * bool)) :
  stands_for c ls -> final c = lex_gt ls a b.
Proof.
  intros [_ Hlex]. specialize (Hlex []). rewrite app_nil_r in Hlex.
  rewrite Hlex. case_bool_decide as Heq; [|done].
  unfold final. rewrite Heq, ltb_irrefl. by destruct (canSort c), (ascending c).
Qed.

End Levels.

Lemma needs_swap_lex (so : SortOrder) (setSplit asc0 : bool) (a b : PliPart) :
  needs_swap so setSplit asc0 a b = lex_gt (levels so setSplit) a b.
Proof.
  unfold needs_swap.
  pose proof (stands_for_start a b asc0) as H0.
  set (c0 := mkCmp "" "" (fun _ => false) false asc0) in *.
  assert (stands_for a b
            (if decide (primary so ≠ NoSort)
             then consult (primary so) (primaryDirection so) a b c0 else c0)
            (if decide (primary so ≠ NoSort)
             then [(primary so, primaryDirection so)] else [])) as H1.
  { pose proof (stands_for_level a b c0 [] (primary so) (primaryDirection so) H0) as H.
    cbn [firstValue nextValue sortedBy c0 negb andb fmap list_fmap app] in H.
    rewrite (bool_decide_eq_true_2 ("" = "") eq_refl) in H.
    rewrite (bool_decide_eq_true_2 (primary so ∉ [])) in H by set_solver.
    cbn [andb] in H. by destruct (decide (primary so ≠ NoSort));
      [rewrite bool_decide_eq_true_2 in H by done
      |rewrite bool_decide_eq_false_2 in H by done]. }
  set (c1 := if decide (primary so ≠ NoSort) then _ else c0) in *.
  unfold levels.
  set (l1 := if decide (primary so ≠ NoSort) then _ else []) in *.
  destruct setSplit; cbn [negb andb].
  - by apply stands_for_final.
  - apply (stands_for_level a b _ _ (secondary so) (secondaryDirection so)) in H1.
    apply (stands_for_level a b _ _ (tertiary so) (tertiaryDirection so)) in H1.
    by apply stands_for_final in H1.
Qed.
Lemma needs_swap_entry (so : SortOrder) (setSplit asc0 asc1 : bool) (a b : PliPart) :
  needs_swap so setSplit asc0 a b = needs_swap so setSplit asc1 a b.
Proof. by rewrite !needs_swap_lex. Qed.

Lemma level_gt_asym ld a b : level_gt ld a b = true -> level_gt ld b a = false.
Proof. unfold level_gt. destruct ld.2; apply ltb_asym. Qed.

Lemma lex_gt_asym ls a b : lex_gt ls a b = true -> lex_gt ls b a = false.
Proof.
  induction ls as [|ld ls IH]; simpl; [done|].
  repeat case_bool_decide; try congruence; [done | apply level_gt_asym].
Qed.

Lemma level_le_trans ld a b c :
  sort_value ld.1 a ≠ sort_value ld.1 b ->
  sort_value ld.1 b ≠ sort_value ld.1 c ->
  level_gt ld a b = false -> level_gt ld b c = false ->
  sort_value ld.1 a ≠ sort_value ld.1 c ∧ level_gt ld a c = false.
Proof.
  unfold level_gt. intros Hab Hbc H1 H2.
  destruct ld.2.
  - assert (String.ltb (sort_value ld.1 a) (sort_value ld.1 b) = true) as Lab.
    { destruct (String.ltb (sort_value ld.1 a) (sort_value ld.1 b)) eqn:E; [done|].
      by destruct Hab; apply ltb_total. }
    assert (String.ltb (sort_value ld.1 b) (sort_value ld.1 c) = true) as Lbc.
    { destruct (String.ltb (sort_value ld.1 b) (sort_value ld.1 c)) eqn:E; [done|].
      by destruct Hbc; apply ltb_total. }
    pose proof (ltb_trans _ _ _ Lab Lbc) as Lac.
    split; [|by apply ltb_asym].
    intros Heq. rewrite Heq, ltb_irrefl in Lac. done.
  - assert (String.ltb (sort_value ld.1 b) (sort_value ld.1 a) = true) as Lba.
    { destruct (String.ltb (sort_value ld.1 b) (sort_value ld.1 a)) eqn:E; [done|].
      by destruct Hab; apply ltb_total. }
    assert (String.ltb (sort_value ld.1 c) (sort_value ld.1 b) = true) as Lcb.
    { destruct (String.ltb (sort_value ld.1 c) (sort_value ld.1 b)) eqn:E; [done|].
      by destruct Hbc; apply ltb_total. }
    pose proof (ltb_trans _ _ _ Lcb Lba) as Lca.
    split; [|by apply ltb_asym].
    intros Heq. rewrite Heq, ltb_irrefl in Lca. done.
Qed.

Lemma lex_le_trans ls a b c :
  lex_gt ls a b = false -> lex_gt ls b c = false -> lex_gt ls a c = false.
Proof.
  induction ls as [|ld ls IH]; simpl; [done|].
  destruct (decide (sort_value ld.1 a = sort_value ld.1 b)) as [Eab|Nab];
  destruct (decide (sort_value ld.1 b = sort_value ld.1 c)) as [Ebc|Nbc].
  - rewrite !bool_decide_eq_true_2 by congruence. apply IH.
  - rewrite (bool_decide_eq_true_2 _ Eab), !bool_decide_eq_false_2 by congruence.
    intros _. unfold level_gt. by rewrite Eab.
  - rewrite (bool_decide_eq_true_2 _ Ebc), !bool_decide_eq_false_2 by congruence.
    intros H _. revert H. unfold level_gt. by rewrite Ebc.
  - rewrite (bool_decide_eq_false_2 _ Nab), (bool_decide_eq_false_2 _ Nbc).
    intros H1 H2. destruct (level_le_trans ld a b c) as [Nac Hac]; try done.
    by rewrite bool_decide_eq_false_2.
Qed.

Lemma level_gt_equal ld a b :
  sort_value ld.1 a = sort_value ld.1 b -> level_gt ld a b = false.
Proof. unfold level_gt. intros ->. rewrite ltb_irrefl. by destruct ld.2. Qed.

Lemma lex_gt_skip ls rest a b :
  Forall (fun ld => sort_value ld.1 a = sort_value ld.1 b) ls ->
  lex_gt (ls ++ rest) a b = lex_gt rest a b.
Proof.
  induction 1 as [|ld ls Hld Hls IH]; [done|].
  cbn [app lex_gt]. by rewrite bool_decide_eq_true_2.
Qed.

(** With equal values at the first two levels the third level decides. *)
Lemma lex_gt_tertiary (so : SortOrder) (a b : PliPart) :
  sort_value (primary so) a = sort_value (primary so) b ->
  sort_value (secondary so) a = sort_value (secondary so) b ->
  lex_gt (levels so false) a b = false ->
  level_gt (tertiary so, tertiaryDirection so) a b = false.
Proof.
  intros Hp Hs. unfold levels. cbn [negb andb].
  set (l1 := if decide (primary so ≠ NoSort) then _ else []).
  assert (Forall (fun ld => sort_value ld.1 a = sort_value ld.1 b) l1) as H1.
  { subst l1. case_decide; by repeat constructor. }
  set (l2 := if _ && _ then l1 ++ _ else l1).
  assert (Forall (fun ld => sort_value ld.1 a = sort_value ld.1 b) l2) as H2.
  { subst l2. destruct (_ && _); [|done]. apply Forall_app. by repeat constructor. }
  destruct (decide (tertiary so ∉ l2.*1)) as [Hin|Hin];
    [rewrite (bool_decide_eq_true_2 _ Hin) | rewrite (bool_decide_eq_false_2 _ Hin)];
    cbn [andb].
  - destruct (decide (tertiary so ≠ NoSort)) as [Hno|Hno];
      [rewrite (bool_decide_eq_true_2 _ Hno) | rewrite (bool_decide_eq_false_2 _ Hno)].
    + rewrite lex_gt_skip by done. cbn [lex_gt fst].
      case_bool_decide as Ht; [|done]. intros _. by apply level_gt_equal.
    + intros _. apply level_gt_equal. cbn [fst].
      assert (tertiary so = NoSort) as -> by (by destruct (decide (tertiary so = NoSort))).
      done.
  - intros _.
    assert (tertiary so ∈ l2.*1) as Hel by (by destruct (decide (tertiary so ∈ l2.*1))).
    apply list_elem_of_fmap in Hel as [ld [-> Hld]].
    apply level_gt_equal. cbn [fst].
    by apply (proj1 (Forall_forall _ _) H2).
Qed.

(** ** [sortParts] ends, and its result is sorted *)

Section SortParts.
Variable parts : gmap string PliPart.
Variable so : SortOrder.
Variable setSplit : bool.

(** The test of the loop, on two keys. *)
Definition key_gt (x y : string) : bool :=
  needs_swap so setSplit true (at_key parts x) (at_key parts y).

Lemma key_gt_asym x y : key_gt x y = true -> key_gt y x = false.
Proof. unfold key_gt. rewrite !needs_swap_lex. apply lex_gt_asym. Qed.

Lemma key_le_trans x y z :
  key_gt x y = false -> key_gt y z = false -> key_gt x z = false.
Proof. unfold key_gt. rewrite !needs_swap_lex. apply lex_le_trans. Qed.

Lemma sort_step_gen firstPart st nextPart :
  sort_step parts so setSplit firstPart st nextPart
  = step_gen key_gt firstPart st nextPart.
Proof.
  destruct st as [keys unsorted]. unfold sort_step, step_gen, key_gt. simpl.
  by destruct (needs_swap _ _ _ _ _).
Qed.

Lemma foldl_pointwise {S X : Type} (f g : S -> X -> S) (l : list X) :
  (forall s x, f s x = g s x) -> forall s, foldl f s l = foldl g s l.
Proof.
  intros Hfg. induction l as [|x l IH]; intros s; simpl; [done|].
  by rewrite Hfg, IH.
Qed.

Lemma sort_round_pass (keys : list string) :
  length keys = size parts ->
  sort_round parts so setSplit keys = pass key_gt (length keys - 1) keys.
Proof.
  intros Hlen. rewrite <- round_gen_pass. unfold sort_round, round_gen.
  rewrite Hlen. apply foldl_pointwise. intros s x.
  apply foldl_pointwise. intros s' y. apply sort_step_gen.
Qed.

Lemma pass_length {A : Type} (gt : A -> A -> bool) k (l : list A) :
  length (pass gt k l).1 = length l.
Proof. apply Permutation_length, pass_perm. Qed.

(** Two rounds are enough: the first sorts, the second finds nothing to
    exchange. *)
Lemma sortParts_result (fuel : nat) (keys : list string) :
  length keys = size parts -> (2 <= fuel)%nat ->
  sortParts fuel parts so setSplit keys
  = Some (pass key_gt (length keys - 1) keys).1.
Proof.
  intros Hlen Hfuel.
  destruct fuel as [|[|fuel]]; [lia | lia |].
  cbn [sortParts]. rewrite sort_round_pass by done.
  pose proof (pass_sorts key_gt key_gt_asym key_le_trans (length keys - 1) keys
                (Nat.le_refl _)) as Hs.
  pose proof (pass_length key_gt (length keys - 1) keys) as Hl.
  destruct (pass key_gt (length keys - 1) keys) as [out unsorted]. simpl in *.
  destruct unsorted; [|done].
  rewrite sort_round_pass by congruence.
  by rewrite (pass_sorted key_gt).
Qed.

End SortParts.

Lemma StronglySorted_lookup {A : Type} (R : A -> A -> Prop) (l : list A) :
  StronglySorted R l ->
  forall (i j : nat) (x y : A),
    (i < j)%nat -> l !! i = Some x -> l !! j = Some y -> R x y.
Proof.
  induction 1 as [|z l Hl IH Hall]; intros i j x y Hij Hi Hj; [done|].
  destruct j as [|j]; [lia|]. simpl in Hj.
  destruct i as [|i]; simpl in Hi.
  - simplify_eq. eapply (proj1 (Forall_forall _ _) Hall), list_elem_of_lookup_2, Hj.
  - eapply (IH i j); [lia|done..].
Qed.

(** ** Claim C8: what [sortParts] does with equal keys *)

(** Three parts that differ in colour only: [k1] and [k2] are of colour
    [b], [k3] of colour [a]. *)
Definition sort_entry (colour : string) : PliPart :=
  mkPliPart 10 10 [] [] 0 0 0 0 false 0 0 colour "brick" "2x4" "" false 0 0 0.

Definition three_parts : gmap string PliPart :=
  <["k1" := sort_entry "b"]> (<["k2" := sort_entry "b"]> (<["k3" := sort_entry "a"]> ∅)).

Definition by_colour : SortOrder :=
  mkSortOrder PartColour PartCategory PartSize true true true.

(** C8, second half, does not hold: [k1] and [k2] agree on the primary,
    secondary and tertiary values and [k1] is listed first, yet the sorted
    list has [k2] before [k1].  The first round compares [k1] with [k3]
    and exchanges the entries at positions 0 and 2. *)
Lemma C8_equal_keys_are_reordered :
  (forall o, sort_value o (at_key three_parts "k1")
             = sort_value o (at_key three_parts "k2"))
  ∧ sortParts 2 three_parts by_colour false ["k1"; "k2"; "k3"]
    = Some ["k3"; "k2"; "k1"].
Proof. split; [by intros [] | vm_compute; reflexivity]. Qed.

(** C8, as the code has it: [sortParts] ends after at most two rounds
    when [sortedKeys] has one entry per part; its result is a rearrangement
    of the keys in which no later entry has to be exchanged with an
    earlier one, and two entries with equal primary and secondary values
    are in the order of their tertiary values, for the configured
    direction.  Nothing is said about entries that agree on all three. *)
Theorem C8_sortParts_sorted (parts : gmap string PliPart) (so : SortOrder)
    (setSplit : bool) (keys : list string) (fuel : nat) :
  length keys = size parts -> (2 <= fuel)%nat ->
  exists out,
    sortParts fuel parts so setSplit keys = Some out
    ∧ out ≡ₚ keys
    ∧ forall (i j : nat) (x y : string),
        (i < j)%nat -> out !! i = Some x -> out !! j = Some y ->
        needs_swap so setSplit true (at_key parts x) (at_key parts y) = false
        ∧ (setSplit = false ->
           sort_value (primary so) (at_key parts x)
           = sort_value (primary so) (at_key parts y) ->
           sort_value (secondary so) (at_key parts x)
           = sort_value (secondary so) (at_key parts y) ->
           (if tertiaryDirection so
            then String.ltb (sort_value (tertiary so) (at_key parts y))
                            (sort_value (tertiary so) (at_key parts x))
            else String.ltb (sort_value (tertiary so) (at_key parts x))
                            (sort_value (tertiary so) (at_key parts y))) = false).
Proof.
  intros Hlen Hfuel.
  exists (pass (key_gt parts so setSplit) (length keys - 1) keys).1.
  split; [by apply sortParts_result|]. split; [apply pass_perm|].
  intros i j x y Hij Hi Hj.
  pose proof (pass_sorts (key_gt parts so setSplit)
                (key_gt_asym parts so setSplit) (key_le_trans parts so setSplit)
                (length keys - 1) keys (Nat.le_refl _)) as Hs.
  pose proof (StronglySorted_lookup _ _ Hs i j x y Hij Hi Hj) as Hxy.
  unfold in_order, key_gt in Hxy. split; [exact Hxy|].
  intros -> Hp Hsec. rewrite needs_swap_lex in Hxy.
  exact (lex_gt_tertiary so _ _ Hp Hsec Hxy).
Qed.

Lemma C8_sortParts_sorted_witness :
  length ["k1"; "k2"; "k3"] = size three_parts
  ∧ (2 <= 2)%nat
  ∧ exists out,
      sortParts 2 three_parts by_colour false ["k1"; "k2"; "k3"] = Some out
      ∧ out ≡ₚ ["k1"; "k2"; "k3"]
      ∧ forall (i j : nat) (x y : string),
          (i < j)%nat -> out !! i = Some x -> out !! j = Some y ->
          needs_swap by_colour false true (at_key three_parts x) (at_key three_parts y)
          = false
          ∧ (false = false ->
             sort_value (primary by_colour) (at_key three_parts x)
             = sort_value (primary by_colour) (at_key three_parts y) ->
             sort_value (secondary by_colour) (at_key three_parts x)
             = sort_value (secondary by_colour) (at_key three_parts y) ->
             (if tertiaryDirection by_colour
              then String.ltb (sort_value (tertiary by_colour) (at_key three_parts y))
                              (sort_value (tertiary by_colour) (at_key three_parts x))
              else String.ltb (sort_value (tertiary by_colour) (at_key three_parts x))
                              (sort_value (tertiary by_colour) (at_key three_parts y)))
             = false).
Proof.
  split; [vm_compute; reflexivity|]. split; [lia|].
  apply (C8_sortParts_sorted three_parts by_colour false ["k1"; "k2"; "k3"] 2);
    [vm_compute; reflexivity | lia].
Defined.

(** ** Claim C7: the split of a BOM over its pages *)

(** The entries of the sorted list that an occurrence receives: those at
    the positions [startIndex .. maxParts-1]. *)
Definition page (sortedKeys : list string) (boms bomOccurrence : Z) : list string :=
  let '(startIndex, maxParts) :=
    split_range (Z.of_nat (length sortedKeys)) boms bomOccurrence in
  take (Z.to_nat (maxParts - startIndex)) (drop (Z.to_nat startIndex) sortedKeys).

(** [parts.insert(key, tempParts[key])] for the keys of a list, in turn. *)
Definition insert_all (tempParts : gmap string PliPart) (keys : list string)
    (parts : gmap string PliPart) : gmap string PliPart :=
  foldl (fun m key => <[key := at_key tempParts key]> m) parts keys.

Lemma distribute_insert_all (tempParts : gmap string PliPart) (startIndex maxParts : Z)
    (sortedKeys : list string) :
  forall (partIndex : Z) (parts : gmap string PliPart),
    distribute tempParts startIndex maxParts sortedKeys partIndex parts
    = insert_all tempParts
        (take (Z.to_nat (maxParts - Z.max startIndex partIndex))
              (drop (Z.to_nat (startIndex - partIndex)) sortedKeys))
        parts.
Proof.
  induction sortedKeys as [|key rest IH]; intros partIndex parts.
  - by rewrite drop_nil, take_nil.
  - cbn [distribute]. rewrite IH. case_decide as Hin.
    + replace (Z.to_nat (startIndex - partIndex)) with 0%nat by lia.
      replace (Z.to_nat (startIndex - (partIndex + 1))) with 0%nat by lia.
      replace (Z.to_nat (maxParts - Z.max startIndex partIndex))
        with (S (Z.to_nat (maxParts - Z.max startIndex (partIndex + 1)))) by lia.
      done.
    + destruct (decide (partIndex < startIndex)) as [Hlt|Hge].
      * replace (Z.to_nat (startIndex - partIndex))
          with (S (Z.to_nat (startIndex - (partIndex + 1)))) by lia.
        replace (Z.max startIndex (partIndex + 1)) with startIndex by lia.
        replace (Z.max startIndex partIndex) with startIndex by lia.
        done.
      * replace (Z.to_nat (maxParts - Z.max startIndex partIndex)) with 0%nat by lia.
        replace (Z.to_nat (maxParts - Z.max startIndex (partIndex + 1))) with 0%nat by lia.
        done.
Qed.

Lemma insert_all_lookup (tempParts : gmap string PliPart) (keys : list string) :
  forall (parts : gmap string PliPart) (k : string),
    insert_all tempParts keys parts !! k
    = if decide (k ∈ keys) then Some (at_key tempParts k) else parts !! k.
Proof.
  unfold insert_all.
  induction keys as [|key rest IH]; intros parts k; cbn [foldl].
  - case_decide as Hk; [by apply elem_of_nil in Hk | done].
  - rewrite IH. destruct (decide (k ∈ rest)) as [Hin|Hout].
    + by rewrite decide_True by (by right).
    + destruct (decide (k = key)) as [->|Hne].
      * rewrite lookup_insert_eq. by rewrite decide_True by left.
      * rewrite lookup_insert_ne by done.
        rewrite decide_False; [done|]. by intros [?|?]%elem_of_cons.
Qed.


(** The bounds of the pages, from the quotient and the remainder. *)
Lemma split_range_bounds (n boms bomOccurrence : Z) :
  0 <= n -> 0 < boms -> 1 <= bomOccurrence <= boms ->
  let '(startIndex, maxParts) := split_range n boms bomOccurrence in
  startIndex = (bomOccurrence - 1) * (n `quot` boms)
  ∧ maxParts = (if decide (bomOccurrence = boms) then n
                else bomOccurrence * (n `quot` boms)).
Proof.
  intros Hn Hb Ho. unfold split_range.
  pose proof (Z.quot_rem' n boms) as Hqr.
  case_decide; subst; split; lia.
Qed.


Lemma chunks_concat {A : Type} (q : nat) (l : list A) (k : nat) :
  concat ((fun i => take q (drop (i * q) l)) <$> seq 0 k) = take (k * q) l.
Proof.
  induction k as [|k IH]; [done|].
  rewrite seq_S, fmap_app, concat_app, IH. simpl. rewrite app_nil_r.
  rewrite take_take_drop. f_equal. lia.
Qed.

(** The pages, one after the other, are the sorted list. *)
Lemma pages_concat (sortedKeys : list string) (boms : Z) :
  0 < boms ->
  concat (page sortedKeys boms <$> seqZ 1 boms) = sortedKeys.
Proof.
  intros Hb.
  set (n := Z.of_nat (length sortedKeys)).
  set (q := Z.to_nat (n `quot` boms)).
  assert (0 <= n `quot` boms) as Hq by (apply Z.quot_pos; lia).
  assert (0 <= n `rem` boms < boms) as Hr by (apply Z.rem_bound_pos; lia).
  pose proof (Z.quot_rem' n boms) as Hqr.
  replace boms with ((boms - 1) + 1) at 2 by lia.
  rewrite seqZ_app by lia. rewrite fmap_app, concat_app.
  replace (page sortedKeys boms <$> seqZ 1 (boms - 1))
    with ((fun i => take q (drop (i * q) sortedKeys)) <$> seq 0 (Z.to_nat (boms - 1))).
  - rewrite chunks_concat. cbn [seqZ]. 
    replace (concat (page sortedKeys boms <$> seqZ (1 + (boms - 1)) 1))
      with (drop (Z.to_nat (boms - 1) * q) sortedKeys).
    + apply take_drop.
    + replace (1 + (boms - 1)) with boms by lia.
      replace (seqZ boms 1) with [boms] by (unfold seqZ; simpl; f_equal; lia).
      cbn [fmap list_fmap concat].
      rewrite app_nil_r. unfold page.
      pose proof (split_range_bounds n boms boms ltac:(lia) Hb ltac:(lia)) as Hs.
      fold n. destruct (split_range n boms boms) as [startIndex maxParts].
      destruct Hs as [-> Hm]. rewrite decide_True in Hm by done. subst maxParts.
      replace (Z.to_nat ((boms - 1) * n `quot` boms)) with (Z.to_nat (boms - 1) * q)%nat
        by (subst q; nia).
      symmetry. apply take_ge. rewrite length_drop. subst q n. nia.
  - unfold seqZ. rewrite <- list_fmap_compose.
    apply list_fmap_ext. intros i x Hi. apply lookup_seq in Hi as [-> Hi].
    simpl. unfold page.
    pose proof (split_range_bounds n boms (Z.of_nat i + 1) ltac:(lia) Hb ltac:(lia)) as Hs.
    fold n. destruct (split_range n boms (Z.of_nat i + 1)) as [startIndex maxParts].
    destruct Hs as [-> Hm]. rewrite decide_False in Hm by lia. subst maxParts.
    f_equal; [subst q; nia|]. f_equal. subst q. nia.
Qed.

(** The block as a whole: the sort ends with the list that one pass of
    the exchange sort gives, and the occurrence receives the entries of
    its page, inserted into [parts] in turn. *)
Lemma setParts_split_run (tempParts : gmap string PliPart) (so : SortOrder)
    (keys0 : list string) (boms bomOccurrence : Z) (fuel : nat)
    (parts : gmap string PliPart) :
  length keys0 = size tempParts -> (2 <= fuel)%nat ->
  0 < boms -> 1 <= bomOccurrence <= boms ->
  setParts_split fuel so boms bomOccurrence tempParts keys0 parts
  = Some (insert_all tempParts
            (page (pass (key_gt tempParts so true) (length keys0 - 1) keys0).1
                  boms bomOccurrence) parts).
Proof.
  intros Hlen Hfuel Hb Ho.
  pose proof (sortParts_result tempParts so true fuel keys0 Hlen Hfuel) as Hsort.
  pose proof (pass_perm (key_gt tempParts so true) (length keys0 - 1) keys0) as Hperm.
  set (sortedKeys := (pass (key_gt tempParts so true) (length keys0 - 1) keys0).1) in *.
  assert (length sortedKeys = size tempParts) as Hlen'
    by (by rewrite <- Hlen; apply Permutation_length).
  unfold setParts_split. rewrite Hsort. cbn [mbind option_bind].
  unfold page. rewrite Hlen'.
  assert (0 <= Z.of_nat (size tempParts)) as Hn by lia.
  pose proof (split_range_bounds _ boms bomOccurrence Hn Hb Ho) as Hs.
  destruct (split_range _ _ _) as [startIndex maxParts]. destruct Hs as [Hs _].
  assert (0 <= startIndex).
  { subst startIndex. apply Z.mul_nonneg_nonneg; [lia|]. apply Z.quot_pos; lia. }
  rewrite distribute_insert_all. repeat f_equal; lia.
Qed.

(** Ten parts, for three pages; the keys are listed out of order. *)
Definition ten_keys : list string :=
  ["p0"; "p1"; "p2"; "p3"; "p4"; "p5"; "p6"; "p7"; "p8"; "p9"].

Definition ten_parts : gmap string PliPart :=
  list_to_map ((fun key => (key, sort_entry key)) <$> ten_keys).

Definition ten_keys_unsorted : list string :=
  ["p7"; "p2"; "p9"; "p0"; "p4"; "p1"; "p8"; "p3"; "p6"; "p5"].



(** ** Placement: what a placed part changes *)

Lemma at_key_alter (f : PliPart -> PliPart) (parts : gmap string PliPart)
    (key k : string) :
  at_key (alter f key parts) k
  = if decide (k = key)
    then match parts !! key with Some p => f p | None => nullPart end
    else at_key parts k.
Proof.
  unfold at_key. case_decide as Hk.
  - subst k. rewrite lookup_alter_eq. by destruct (parts !! key).
  - by rewrite lookup_alter_ne.
Qed.

Lemma at_key_alter_in (f : PliPart -> PliPart) (parts : gmap string PliPart)
    (key : string) :
  is_Some (parts !! key) -> at_key (alter f key parts) key = f (at_key parts key).
Proof.
  intros [p Hp]. rewrite at_key_alter, decide_True by done.
  unfold at_key. by rewrite Hp.
Qed.

Lemma at_key_alter_ne (f : PliPart -> PliPart) (parts : gmap string PliPart)
    (key k : string) :
  k ≠ key -> at_key (alter f key parts) k = at_key parts k.
Proof. intros Hk. by rewrite at_key_alter, decide_False. Qed.

(** The writes of the packing code leave the size of a part alone. *)
Definition keeps_size (f : PliPart -> PliPart) : Prop :=
  forall p, width (f p) = width p ∧ height (f p) = height p.

Lemma put_keeps_size l b c : keeps_size (put l b c).
Proof. by intros []. Qed.

Lemma set_placed_keeps_size b : keeps_size (set_placed b).
Proof. by intros []. Qed.

Lemma add_left_keeps_size d : keeps_size (add_left d).
Proof. by intros []. Qed.

Lemma add_bot_keeps_size d : keeps_size (add_bot d).
Proof. by intros []. Qed.

Lemma width_alter (f : PliPart -> PliPart) (parts : gmap string PliPart)
    (key k : string) :
  keeps_size f -> width (at_key (alter f key parts) k) = width (at_key parts k).
Proof.
  intros Hf. rewrite at_key_alter. case_decide as Hk; [subst k|done].
  unfold at_key. destruct (parts !! key); [apply Hf | done].
Qed.

Lemma height_alter (f : PliPart -> PliPart) (parts : gmap string PliPart)
    (key k : string) :
  keeps_size f -> height (at_key (alter f key parts) k) = height (at_key parts k).
Proof.
  intros Hf. rewrite at_key_alter. case_decide as Hk; [subst k|done].
  unfold at_key. destruct (parts !! key); [apply Hf | done].
Qed.

Lemma is_Some_alter (f : PliPart -> PliPart) (parts : gmap string PliPart)
    (key k : string) :
  is_Some (alter f key parts !! k) <-> is_Some (parts !! k).
Proof.
  destruct (decide (k = key)) as [->|Hk].
  - rewrite lookup_alter_eq. apply fmap_is_Some.
  - by rewrite lookup_alter_ne.
Qed.

(** ** The parts that are still to be placed *)

Section Unplaced.
Variable g : string -> Z.

(** The sum of [g] over the keys of a list whose part is not placed. *)
Definition pending (parts : gmap string PliPart) (l : list string) : Z :=
  foldr (fun k acc => (if placed (at_key parts k) then 0 else g k) + acc) 0 l.

Lemma pending_same (parts parts' : gmap string PliPart) (l : list string) :
  (forall k, k ∈ l -> placed (at_key parts' k) = placed (at_key parts k)) ->
  pending parts' l = pending parts l.
Proof.
  induction l as [|k l IH]; intros Hsame; simpl; [done|].
  rewrite Hsame by left. rewrite IH; [done|]. intros k' Hk'. apply Hsame. by right.
Qed.

(** Placing one part takes its share out of the sum. *)
Lemma pending_put (parts : gmap string PliPart) (l : list string) (key : string)
    (x y c : Z) :
  NoDup l -> key ∈ l -> is_Some (parts !! key) ->
  placed (at_key parts key) = false ->
  pending (alter (put x y c) key parts) l + g key = pending parts l.
Proof.
  intros Hnd Hin Hsome Hun.
  induction Hnd as [|k l Hk Hnd IH]; [by apply elem_of_nil in Hin|].
  simpl. destruct (decide (k = key)) as [->|Hne].
  - rewrite at_key_alter_in by done. rewrite Hun. cbn [put placed].
    rewrite (pending_same (alter (put x y c) key parts) parts l); [lia|].
    intros k' Hk'. rewrite at_key_alter_ne; [done|]. by intros ->.
  - rewrite at_key_alter_ne by done.
    apply elem_of_cons in Hin as [->|Hin]; [done|]. specialize (IH Hin). lia.
Qed.

Lemma pending_nonneg (parts : gmap string PliPart) (l : list string) :
  (forall k, k ∈ l -> 0 <= g k) -> 0 <= pending parts l.
Proof.
  induction l as [|k l IH]; intros Hg; simpl; [done|].
  assert (0 <= g k) by (apply Hg; left).
  assert (0 <= pending parts l) by (apply IH; intros k' Hk'; apply Hg; by right).
  destruct (placed (at_key parts k)); lia.
Qed.

Lemma pending_bounds (parts : gmap string PliPart) (l : list string) (key : string) :
  (forall k, k ∈ l -> 0 <= g k) -> key ∈ l -> placed (at_key parts key) = false ->
  g key <= pending parts l.
Proof.
  induction l as [|k l IH]; intros Hg Hin Hun; [by apply elem_of_nil in Hin|].
  simpl.
  assert (0 <= g k) by (apply Hg; left).
  assert (0 <= pending parts l) by (apply pending_nonneg; intros k' Hk'; apply Hg; by right).
  apply elem_of_cons in Hin as [->|Hin].
  - rewrite Hun. lia.
  - assert (g key <= pending parts l) by (apply IH; [intros k' Hk'; apply Hg; by right|done..]).
    destruct (placed (at_key parts k)); lia.
Qed.

End Unplaced.

(** A positive count means that some key's part is not placed. *)
Lemma pending_positive (parts : gmap string PliPart) (l : list string) :
  0 < pending (fun _ => 1) parts l ->
  exists key, key ∈ l ∧ placed (at_key parts key) = false.
Proof.
  induction l as [|k l IH]; simpl; [lia|].
  destruct (placed (at_key parts k)) eqn:Hp.
  - intros H. destruct IH as (key & Hin & Hun); [lia|]. exists key. split; [by right|done].
  - intros _. exists k. split; [by left|done].
Qed.

Lemma pending_count_le (parts : gmap string PliPart) (l : list string) :
  pending (fun _ => 1) parts l <= Z.of_nat (length l).
Proof.
  induction l as [|k l IH]; simpl; [done|].
  destruct (placed (at_key parts k)); lia.
Qed.

(** ** What the searches of [placePli] find *)

Lemma first_fit_Some (parts : gmap string PliPart) (l : list string)
    (left xConstraint : Z) (k : string) :
  k ∈ l -> placed (at_key parts k) = false ->
  left + width (at_key parts k) < xConstraint ->
  exists key, first_fit parts l left xConstraint = Some key.
Proof.
  induction l as [|k' l IH]; intros Hin Hun Hfit; [by apply elem_of_nil in Hin|].
  simpl. destruct (negb _ && _) eqn:Htest; [by eexists|].
  apply elem_of_cons in Hin as [->|Hin]; [|by apply IH].
  rewrite Hun in Htest. simpl in Htest. lia.
Qed.

Lemma first_fit_found (parts : gmap string PliPart) (l : list string)
    (left xConstraint : Z) (key : string) :
  first_fit parts l left xConstraint = Some key ->
  key ∈ l ∧ placed (at_key parts key) = false
  ∧ left + width (at_key parts key) < xConstraint.
Proof.
  induction l as [|k l IH]; simpl; [done|].
  destruct (negb _ && _) eqn:Htest.
  - intros [= ->]. apply andb_true_iff in Htest as [Hun Hfit].
    split; [by left|]. split; [by apply negb_true_iff in Hun | lia].
  - intros H. destruct (IH H) as (? & ? & ?). split; [by right|done].
Qed.

Lemma first_fit_None (parts : gmap string PliPart) (l : list string)
    (left xConstraint : Z) :
  first_fit parts l left xConstraint = None ->
  forall k, k ∈ l -> placed (at_key parts k) = false ->
            xConstraint <= left + width (at_key parts k).
Proof.
  intros Hnone k Hin Hun.
  destruct (decide (left + width (at_key parts k) < xConstraint)) as [Hlt|]; [|lia].
  destruct (first_fit_Some parts l left xConstraint k Hin Hun Hlt) as [key Hkey].
  congruence.
Qed.

Lemma side_fit_found (parts : gmap string PliPart) (prevPart : PliPart)
    (l : list string) (cur key partKey : string) :
  side_fit parts prevPart l cur = (Some key, partKey) ->
  key ∈ l ∧ placed (at_key parts key) = false ∧ partKey = key
  ∧ fits_beside prevPart (at_key parts key) = true.
Proof.
  revert cur. induction l as [|k l IH]; intros cur; simpl; [done|].
  destruct (negb _ && _) eqn:Htest.
  - intros [= -> ->]. apply andb_true_iff in Htest as [Hun Hfit].
    split; [by left|]. split; [by apply negb_true_iff in Hun | done].
  - intros H. destruct (IH _ H) as (? & ? & ? & ?). split; [by right|done].
Qed.

Lemma stack_fit_found (parts : gmap string PliPart) (prevPart : PliPart)
    (l : list string) (bot yConstraint : Z) (key : string) (overlap splitMargin : Z) :
  stack_fit parts prevPart l bot yConstraint = Some (key, overlap, splitMargin) ->
  key ∈ l ∧ placed (at_key parts key) = false
  ∧ splitMargin = Z.max (topMargin prevPart) (csiMarginY (at_key parts key))
  ∧ overlap = overlap_of prevPart (at_key parts key) splitMargin
  ∧ bot + height (at_key parts key) + splitMargin - overlap <= yConstraint.
Proof.
  induction l as [|k l IH]; simpl; [done|].
  destruct (placed (at_key parts k)) eqn:Hp.
  - intros H. destruct (IH H) as (? & ?). split; [by right|done].
  - destruct (_ <=? _) eqn:Htest.
    + intros [= -> <- <-]. split; [by left|]. repeat split; try done. lia.
    + intros H. destruct (IH H) as (? & ?). split; [by right|done].
Qed.

(** ** [placePli] succeeds when the widths leave room *)

Section Feasible.
Variable cfg : PliConfig.
Variable keys : list string.
Variable parts0 : gmap string PliPart.
Variables xConstraint yConstraint : Z.
Variable sortType : bool.
Hypothesis keys_nodup : NoDup keys.
Hypothesis widths_nonneg : forall k, k ∈ keys -> 0 <= width (at_key parts0 k).

(** The width a key has on entry, and the sum over all keys. *)
Definition width0 (k : string) : Z := width (at_key parts0 k).
Definition total_width : Z := foldr (fun k acc => width0 k + acc) 0 keys.

(** The parts are the ones of the start, up to the fields that placing
    writes. *)
Definition kept (parts : gmap string PliPart) : Prop :=
  (forall k, k ∈ keys -> is_Some (parts !! k))
  ∧ (forall k, width (at_key parts k) = width0 k).

(** The counters of the packing agree with the flags: [nPlaced] counts
    the placed keys, and the columns so far together with the column under
    way are no wider than the parts placed in them. *)
Definition packed (parts : gmap string PliPart) (left nPlaced colWidth : Z) : Prop :=
  kept parts
  ∧ nPlaced + pending (fun _ => 1) parts keys = Z.of_nat (length keys)
  ∧ 0 <= colWidth
  ∧ left + colWidth + pending width0 parts keys <= total_width.

Lemma kept_alter (f : PliPart -> PliPart) (parts : gmap string PliPart) (key : string) :
  keeps_size f -> kept parts -> kept (alter f key parts).
Proof.
  intros Hf [Hin Hw]. split.
  - intros k Hk. apply is_Some_alter. by apply Hin.
  - intros k. rewrite width_alter by done. apply Hw.
Qed.

Lemma packed_put (parts : gmap string PliPart) (left nPlaced colWidth : Z)
    (key : string) (x y c : Z) :
  packed parts left nPlaced colWidth ->
  key ∈ keys -> placed (at_key parts key) = false ->
  packed (alter (put x y c) key parts) left (nPlaced + 1) colWidth
  ∧ packed (alter (put x y c) key parts) left (nPlaced + 1) (width (at_key parts key)).
Proof.
  intros (Hkept & Hn & Hc & Hw) Hin Hun.
  pose proof (proj1 Hkept key Hin) as Hsome.
  pose proof (pending_put (fun _ => 1) parts keys key x y c keys_nodup Hin Hsome Hun) as H1.
  pose proof (pending_put width0 parts keys key x y c keys_nodup Hin Hsome Hun) as H2.
  assert (0 <= width0 key) as Hk by (by apply widths_nonneg).
  assert (width (at_key parts key) = width0 key) as Hwk by apply Hkept.
  assert (kept (alter (put x y c) key parts)) as Hkept'
    by (apply kept_alter; [apply put_keeps_size | done]).
  cbn beta in H1.
  split; (split; [done|]); (split; [lia|]); (split; [lia|]); lia.
Qed.

Lemma stack_loop_packed (fuel : nat) :
  forall (c : column) (left cols : Z),
    packed (c_parts c) left (c_nPlaced c) (c_width c) ->
    pending (fun _ => 1) (c_parts c) keys < Z.of_nat fuel ->
    exists c',
      stack_loop fuel keys yConstraint sortType left cols c = Some c'
      ∧ packed (c_parts c') left (c_nPlaced c') (c_width c')
      ∧ c_nPlaced c <= c_nPlaced c'.
Proof.
  induction fuel as [|fuel IH]; intros c left cols Hp Hfuel.
  - pose proof (pending_nonneg (fun _ => 1) (c_parts c) keys) as H.
    specialize (H ltac:(intros; lia)). lia.
  - cbn [stack_loop].
    destruct (c_nPlaced c <? _); [|by exists c].
    destruct (stack_fit _ _ _ _ _) as [[[key overlap] splitMargin]|] eqn:Hfit;
      [|by exists c].
    apply stack_fit_found in Hfit as (Hin & Hun & _).
    destruct (packed_put _ _ _ _ key left (c_bot c + splitMargin - overlap) cols Hp Hin Hun)
      as [Hsame Hwide].
    pose proof (proj1 (proj1 Hp) key Hin) as Hsome.
    pose proof (pending_put (fun _ => 1) (c_parts c) keys key
                  left (c_bot c + splitMargin - overlap) cols
                  keys_nodup Hin Hsome Hun) as H1.
    cbn beta in H1.
    destruct (sortType && (width (at_key (c_parts c) key) >? c_width c)).
    + edestruct IH as (c' & Hrun & Hp' & Hn'); cycle 2.
      * exists c'. split; [exact Hrun|]. split; [exact Hp'|].
        cbn [c_nPlaced] in Hn'. lia.
      * exact Hwide.
      * cbn [c_parts]. lia.
    + edestruct IH as (c' & Hrun & Hp' & Hn'); cycle 2.
      * exists c'. split; [exact Hrun|]. split; [exact Hp'|].
        cbn [c_nPlaced] in Hn'. lia.
      * exact Hsame.
      * cbn [c_parts]. lia.
Qed.

Lemma place_column_packed (p : packing) (key : string) :
  packed (p_parts p) (p_left p) (p_nPlaced p) 0 ->
  key ∈ keys -> placed (at_key (p_parts p) key) = false ->
  exists p',
    place_column cfg keys yConstraint sortType key p = Some p'
    ∧ packed (p_parts p') (p_left p') (p_nPlaced p') 0
    ∧ p_nPlaced p < p_nPlaced p'.
Proof.
  intros Hp Hin Hun. unfold place_column.
  destruct (packed_put _ _ _ _ key (p_left p) 0 (p_cols p + 1) Hp Hin Hun) as [_ Hfirst].
  set (parts1 := alter (put (p_left p) 0 (p_cols p + 1)) key (p_parts p)) in *.
  assert (width (at_key parts1 key) = width (at_key (p_parts p) key)) as Hw1
    by apply width_alter, put_keeps_size.
  rewrite <- Hw1 in Hfirst.
  destruct (side_fit parts1 (at_key parts1 key) keys key) as [fit partKey] eqn:Hside.
  assert (exists parts2 nPlaced2,
             (match fit with
              | Some k =>
                  (alter (put (left (at_key parts1 key) + width (at_key parts1 key)
                               - width (at_key parts1 k)) 0 (p_cols p + 1)) k parts1,
                   p_nPlaced p + 1 + 1)
              | None => (parts1, p_nPlaced p + 1)
              end) = (parts2, nPlaced2)
             ∧ packed parts2 (p_left p) nPlaced2 (width (at_key parts1 key))
             ∧ p_nPlaced p < nPlaced2) as (parts2 & nPlaced2 & Heq & Hp2 & Hn2).
  { destruct fit as [k|].
    - apply side_fit_found in Hside as (Hk & Hunk & _).
      eexists _, _. split; [reflexivity|]. split; [|lia].
      by apply packed_put.
    - eexists _, _. split; [reflexivity|]. split; [done|lia]. }
  rewrite Heq.
  set (c0 := mkColumn parts2 key _ _ _ _ _ nPlaced2).
  destruct (stack_loop_packed (S (length keys)) c0 (p_left p) (p_cols p + 1))
    as (c' & Hrun & Hp' & Hn').
  - exact Hp2.
  - pose proof (pending_count_le parts2 keys). cbn [c0 c_parts]. lia.
  - rewrite Hrun. cbn [mbind option_bind]. eexists. split; [reflexivity|].
    cbn [p_parts p_left p_nPlaced]. cbn [c0 c_nPlaced] in Hn'.
    destruct Hp' as (Hk' & Hn2' & Hc2 & Hw2).
    split; [|lia]. split; [exact Hk'|]. split; [exact Hn2'|]. split; lia.
Qed.

Lemma place_columns_packed (fuel : nat) :
  total_width < xConstraint ->
  forall p : packing,
    packed (p_parts p) (p_left p) (p_nPlaced p) 0 ->
    pending (fun _ => 1) (p_parts p) keys < Z.of_nat fuel ->
    exists p',
      place_columns fuel cfg keys xConstraint yConstraint sortType p = Some (inr p')
      ∧ kept (p_parts p').
Proof.
  intros Hroom. induction fuel as [|fuel IH]; intros p Hp Hfuel.
  - pose proof (pending_nonneg (fun _ => 1) (p_parts p) keys) as H.
    specialize (H ltac:(intros; lia)). lia.
  - cbn [place_columns].
    destruct (p_nPlaced p <? Z.of_nat (length keys)) eqn:Hlt;
      [|exists p; split; [done | apply Hp]].
    apply Z.ltb_lt in Hlt.
    destruct Hp as (Hkept & Hn & Hc & Hw).
    destruct (pending_positive (p_parts p) keys) as (k & Hk & Hunk); [lia|].
    pose proof (pending_bounds width0 (p_parts p) keys k widths_nonneg Hk Hunk) as Hshare.
    destruct (first_fit_Some (p_parts p) keys (p_left p) xConstraint k Hk Hunk)
      as [key Hkey].
    { rewrite (proj2 Hkept k). lia. }
    rewrite Hkey. apply first_fit_found in Hkey as (Hin & Hun & _).
    destruct (place_column_packed p key) as (p' & Hrun & Hp' & Hn');
      [exact (conj Hkept (conj Hn (conj Hc Hw))) | done | done |].
    rewrite Hrun. cbn [mbind option_bind]. apply IH; [done|].
    destruct Hp' as (_ & Hn2 & _). lia.
Qed.

End Feasible.

(** ** The first loop of [placePli] *)

Lemma reset_parts_cons (key : string) (l : list string) (parts : gmap string PliPart)
    (y : Z) :
  reset_parts (key :: l) parts y
  = reset_parts l (alter (set_placed false) key parts)
      (if height (at_key (alter (set_placed false) key parts) key) >? y
       then height (at_key (alter (set_placed false) key parts) key) else y).
Proof. reflexivity. Qed.

Lemma reset_parts_lookup (l : list string) :
  forall (parts : gmap string PliPart) (y : Z) (k : string),
    (reset_parts l parts y).1 !! k
    = if decide (k ∈ l) then set_placed false <$> parts !! k else parts !! k.
Proof.
  induction l as [|key l IH]; intros parts y k.
  - by rewrite decide_False by apply not_elem_of_nil.
  - rewrite reset_parts_cons, IH.
    destruct (decide (k = key)) as [->|Hne].
    + rewrite lookup_alter_eq. rewrite (decide_True _ _ (list_elem_of_here key l)).
      case_decide; [|done]. by destruct (parts !! key) as [[]|].
    + rewrite lookup_alter_ne by done.
      destruct (decide (k ∈ l)) as [Hin|Hout].
      * by rewrite decide_True by (by right).
      * rewrite decide_False; [done|]. by intros [?|?]%elem_of_cons.
Qed.

(** The height limit that the packing works with is never below the
    height of a part. *)
Lemma reset_parts_limit (l : list string) :
  forall (parts : gmap string PliPart) (y : Z),
    y <= (reset_parts l parts y).2
    ∧ forall k, k ∈ l -> height (at_key parts k) <= (reset_parts l parts y).2.
Proof.
  induction l as [|key l IH]; intros parts y.
  - split; [done|]. intros k Hk. by apply elem_of_nil in Hk.
  - rewrite reset_parts_cons.
    set (parts1 := alter (set_placed false) key parts).
    set (y1 := if height (at_key parts1 key) >? y then _ else y).
    destruct (IH parts1 y1) as [Hy Hall].
    assert (y <= y1 ∧ height (at_key parts key) <= y1) as [Hy1 Hk1].
    { subst y1. rewrite <- (height_alter (set_placed false) parts key key)
        by apply set_placed_keeps_size.
      fold parts1. destruct (_ >? _) eqn:E; lia. }
    split; [lia|]. intros k [->|Hk]%elem_of_cons; [lia|].
    rewrite <- (height_alter (set_placed false) parts key k)
      by apply set_placed_keeps_size.
    by apply Hall.
Qed.

Lemma reset_parts_at_key (l : list string) (parts : gmap string PliPart) (y : Z)
    (k : string) :
  k ∈ l -> at_key (reset_parts l parts y).1 k = set_placed false (at_key parts k).
Proof.
  intros Hk. unfold at_key. rewrite reset_parts_lookup, decide_True by done.
  by destruct (parts !! k).
Qed.

Lemma reset_parts_width (l : list string) (parts : gmap string PliPart) (y : Z)
    (k : string) :
  width (at_key (reset_parts l parts y).1 k) = width (at_key parts k).
Proof.
  unfold at_key. rewrite reset_parts_lookup.
  case_decide; [|done]. by destruct (parts !! k) as [[]|].
Qed.

Lemma pending_all (g : string -> Z) (parts : gmap string PliPart) (l : list string) :
  (forall k, k ∈ l -> placed (at_key parts k) = false) ->
  pending g parts l = foldr (fun k acc => g k + acc) 0 l.
Proof.
  induction l as [|k l IH]; intros Hun; simpl; [done|].
  rewrite Hun by left. rewrite IH; [done|]. intros k' Hk'. apply Hun. by right.
Qed.

Lemma foldr_ones (l : list string) :
  foldr (fun _ acc => 1 + acc) 0 l = Z.of_nat (length l).
Proof. induction l as [|k l IH]; simpl; [done|]. rewrite IH. lia. Qed.

(** ** What [placePli] leaves alone *)

(** A part without the four fields that placing writes. *)
Definition unplaced_part (p : PliPart) : PliPart :=
  mkPliPart (width p) (height p) (leftEdge p) (rightEdge p) (instanceMarginX p)
            (csiMarginX p) (csiMarginY p) (styleMarginX p) (styled p) (topMargin p)
            (annotWidth p) (sortColour p) (sortCategory p) (sortSize p) (sortElement p)
            false 0 0 0.

Section Untouched.
Context {A : Type}.
Variable view : PliPart -> A.
Variable keys : list string.

(** [parts'] has the keys of [parts], shows the same under [view] for
    every key, and is [parts] outside the key list. *)
Definition same_view (parts parts' : gmap string PliPart) : Prop :=
  (forall k, is_Some (parts' !! k) <-> is_Some (parts !! k))
  ∧ (forall k, view (at_key parts' k) = view (at_key parts k))
  ∧ (forall k, k ∉ keys -> parts' !! k = parts !! k).

Lemma same_view_refl (parts : gmap string PliPart) : same_view parts parts.
Proof. by repeat split. Qed.

Lemma same_view_trans (p1 p2 p3 : gmap string PliPart) :
  same_view p1 p2 -> same_view p2 p3 -> same_view p1 p3.
Proof.
  intros (Ha & Hb & Hc) (Ha' & Hb' & Hc'). split; [|split].
  - intros k. by rewrite Ha', Ha.
  - intros k. by rewrite Hb', Hb.
  - intros k Hk. by rewrite Hc', Hc.
Qed.

Lemma same_view_alter (f : PliPart -> PliPart) (parts : gmap string PliPart)
    (key : string) :
  (forall p, view (f p) = view p) -> key ∈ keys ->
  same_view parts (alter f key parts).
Proof.
  intros Hf Hkey. split; [|split].
  - intros k. apply is_Some_alter.
  - intros k. rewrite at_key_alter. case_decide as Hk; [subst k|done].
    unfold at_key. destruct (parts !! key); [apply Hf | done].
  - intros k Hk. apply lookup_alter_ne. by intros ->.
Qed.

(** A loop that alters the parts of some keys of a list. *)
Lemma same_view_foldl (f : PliPart -> PliPart)
    (test : gmap string PliPart -> string -> bool) (l : list string) :
  (forall p, view (f p) = view p) -> (forall k, k ∈ l -> k ∈ keys) ->
  forall parts,
    same_view parts
      (foldl (fun parts key => if test parts key then alter f key parts else parts)
             parts l).
Proof.
  intros Hf. induction l as [|key l IH]; intros Hl parts; [apply same_view_refl|].
  cbn [foldl]. eapply same_view_trans; [|apply IH; intros k Hk; apply Hl; by right].
  destruct (test parts key); [|apply same_view_refl].
  apply same_view_alter; [done | apply Hl; left].
Qed.

Hypothesis view_set_placed : forall b p, view (set_placed b p) = view p.

Lemma reset_parts_same_view (l : list string) :
  (forall k, k ∈ l -> k ∈ keys) ->
  forall parts y, same_view parts (reset_parts l parts y).1.
Proof.
  induction l as [|key l IH]; intros Hl parts y; [apply same_view_refl|].
  rewrite reset_parts_cons.
  eapply same_view_trans; [|apply IH; intros k Hk; apply Hl; by right].
  apply same_view_alter; [apply view_set_placed | apply Hl; left].
Qed.

Hypothesis view_add_left : forall d p, view (add_left d p) = view p.
Hypothesis view_add_bot : forall d p, view (add_bot d p) = view p.

Lemma spread_margins_same_view (cfg : PliConfig) (ks : list string)
    (margins : list (Z * Z)) (parts : gmap string PliPart) (pliWidth : Z) :
  (forall k, k ∈ ks -> k ∈ keys) ->
  same_view parts (spread_margins cfg ks margins parts pliWidth).1.1.
Proof.
  intros Hks. unfold spread_margins.
  generalize (zip (seqZ 0 (Z.of_nat (length margins))) margins) as cols.
  intros cols.
  assert (forall parts0 w lastMargin,
             same_view parts0
               (foldl (fun '(parts, pliWidth, lastMargin) '(col, (first, second)) =>
                   let margin :=
                     if decide (col = 0)
                     then Z.max (Qtrunc (thickness cfg + marginX cfg)%Q) first
                     else Z.max first second in
                   let parts :=
                     foldl (fun parts key =>
                              if col + 1 <=? Pli.col (at_key parts key)
                              then alter (add_left margin) key parts else parts)
                           parts ks in
                   (parts, pliWidth + margin, second))
                  (parts0, w, lastMargin) cols).1.1) as H; [|apply H].
  induction cols as [|[col [first second]] cols IH]; intros parts0 w lastMargin;
    [apply same_view_refl|].
  cbn [foldl]. eapply same_view_trans; [|apply IH].
  by apply (same_view_foldl _ (fun parts key => col + 1 <=? Pli.col (at_key parts key)));
    [apply view_add_left|].
Qed.

Lemma add_bot_same_view (d : Z) (ks : list string) (parts : gmap string PliPart) :
  (forall k, k ∈ ks -> k ∈ keys) ->
  same_view parts (foldl (fun parts key => alter (add_bot d) key parts) parts ks).
Proof.
  intros Hks.
  by apply (same_view_foldl (add_bot d) (fun _ _ => true)); [apply view_add_bot|].
Qed.

Hypothesis view_put : forall x y c p, view (put x y c p) = view p.

Lemma stack_loop_same_view (fuel : nat) (yConstraint : Z) (sortType : bool) :
  forall (c c' : column) (left cols : Z),
    stack_loop fuel keys yConstraint sortType left cols c = Some c' ->
    same_view (c_parts c) (c_parts c').
Proof.
  induction fuel as [|fuel IH]; intros c c' left cols; [done|].
  cbn [stack_loop].
  destruct (c_nPlaced c <? _); [|intros [= <-]; apply same_view_refl].
  destruct (stack_fit _ _ _ _ _) as [[[key overlap] splitMargin]|] eqn:Hfit;
    [|intros [= <-]; apply same_view_refl].
  apply stack_fit_found in Hfit as (Hin & _).
  destruct (sortType && _); intros Hrun; apply IH in Hrun; cbn [c_parts] in Hrun;
    (eapply same_view_trans; [|exact Hrun]);
    by apply same_view_alter.
Qed.

Lemma place_column_same_view (cfg : PliConfig) (yConstraint : Z) (sortType : bool)
    (key : string) (p p' : packing) :
  key ∈ keys ->
  place_column cfg keys yConstraint sortType key p = Some p' ->
  same_view (p_parts p) (p_parts p').
Proof.
  intros Hkey. unfold place_column.
  set (parts1 := alter (put (p_left p) 0 (p_cols p + 1)) key (p_parts p)).
  assert (same_view (p_parts p) parts1) as H1 by (by apply same_view_alter).
  destruct (side_fit parts1 (at_key parts1 key) keys key) as [fit partKey] eqn:Hside.
  destruct fit as [k|].
  - apply side_fit_found in Hside as (Hk & _).
    destruct (stack_loop _ _ _ _ _ _ _) as [c|] eqn:Hrun; [|done].
    cbn [mbind option_bind]. intros [= <-]. cbn [p_parts].
    apply stack_loop_same_view in Hrun. cbn [c_parts] in Hrun.
    eapply same_view_trans; [exact H1|]. eapply same_view_trans; [|exact Hrun].
    by apply same_view_alter.
  - destruct (stack_loop _ _ _ _ _ _ _) as [c|] eqn:Hrun; [|done].
    cbn [mbind option_bind]. intros [= <-]. cbn [p_parts].
    apply stack_loop_same_view in Hrun. cbn [c_parts] in Hrun.
    eapply same_view_trans; [exact H1 | exact Hrun].
Qed.

Lemma place_columns_same_view (fuel : nat) (cfg : PliConfig)
    (xConstraint yConstraint : Z) (sortType : bool) :
  forall (p : packing) (r : packing + packing),
    place_columns fuel cfg keys xConstraint yConstraint sortType p = Some r ->
    same_view (p_parts p) (p_parts (match r with inl q => q | inr q => q end)).
Proof.
  induction fuel as [|fuel IH]; intros p r; [done|].
  cbn [place_columns].
  destruct (p_nPlaced p <? _); [|intros [= <-]; apply same_view_refl].
  destruct (first_fit _ _ _ _) as [key|] eqn:Hfit; [|intros [= <-]; apply same_view_refl].
  apply first_fit_found in Hfit as (Hkey & _).
  destruct (place_column _ _ _ _ _ _) as [p'|] eqn:Hcol; [|done].
  cbn [mbind option_bind]. intros Hrun. apply IH in Hrun.
  eapply same_view_trans; [|exact Hrun].
  by eapply place_column_same_view.
Qed.

End Untouched.

(** Two hashes with the same keys have the same size. *)
Lemma same_keys_size (parts parts' : gmap string PliPart) :
  (forall k, is_Some (parts' !! k) <-> is_Some (parts !! k)) -> size parts' = size parts.
Proof.
  intros H. rewrite <- !size_dom. f_equal. apply set_eq. intros k.
  rewrite !elem_of_dom. apply H.
Qed.

Lemma leading_keys_Some (parts : gmap string PliPart) (keys ks : list string) :
  leading_keys parts keys = Some ks ->
  (size parts <= length keys)%nat ∧ ks = take (size parts) keys
  ∧ forall k, k ∈ ks -> k ∈ keys.
Proof.
  unfold leading_keys. case_decide as Hle; [|done]. intros [= <-].
  split; [done|]. split; [done|]. intros k Hk.
  by apply elem_of_take in Hk as (i & Hi & _); eapply list_elem_of_lookup_2.
Qed.

(** The three ways a run of [placePli] goes, once every key is a key of
    the hash: the packing gives up ([inl]), or it ends and the key list
    is as long as the two last loops need it. *)
Lemma placePli_run (cfg : PliConfig) (parts : gmap string PliPart) (keys : list string)
    (xConstraint yConstraint : Z) (packSubs sortType : bool) (r : placed_pli) :
  placePli cfg parts keys xConstraint yConstraint packSubs sortType = Some r ->
  Forall (fun key => is_Some (parts !! key)) keys
  ∧ exists res,
      place_columns (S (length keys)) cfg keys xConstraint
        (reset_parts keys parts yConstraint).2 sortType
        (mkPacking (reset_parts keys parts yConstraint).1 0 0 0
           (Qtrunc (marginY cfg + thickness cfg)%Q) (Qtrunc (marginY cfg + thickness cfg)%Q)
           0 []) = Some res
      ∧ match res with
        | inl p => r = mkPlaced (-1) (p_parts p) (p_cols p) 0 0
        | inr p =>
            exists ks,
              leading_keys (p_parts p) keys = Some ks
              ∧ rc r = 0
              ∧ r_parts r
                = foldl (fun parts key => alter (add_bot (p_botMargin p)) key parts)
                    (spread_margins cfg ks (p_margins p) (p_parts p) (p_left p)).1.1 ks
        end.
Proof.
  unfold placePli. case_decide as Hdom; [|done]. intros H. split; [done|].
  destruct (reset_parts keys parts yConstraint) as [parts1 y1]. cbn [fst snd].
  destruct (place_columns _ _ _ _ _ _ _) as [res|]; [|done].
  exists res. split; [done|]. cbn [mbind option_bind] in H. destruct res as [p|p].
  - by injection H as <-.
  - destruct (leading_keys (p_parts p) keys) as [ks|]; [|done].
    cbn [mbind option_bind] in H. exists ks. split; [done|].
    destruct (spread_margins _ _ _ _ _) as [[parts2 w2] m2].
    injection H as <-. done.
Qed.

Lemma placePli_same_view {A : Type} (view : PliPart -> A) (cfg : PliConfig)
    (parts : gmap string PliPart) (keys : list string) (xConstraint yConstraint : Z)
    (packSubs sortType : bool) (r : placed_pli) :
  (forall x y c p, view (put x y c p) = view p) ->
  (forall b p, view (set_placed b p) = view p) ->
  (forall d p, view (add_left d p) = view p) ->
  (forall d p, view (add_bot d p) = view p) ->
  placePli cfg parts keys xConstraint yConstraint packSubs sortType = Some r ->
  same_view view keys parts (r_parts r).
Proof.
  intros Hput Hset Hleft Hbot Hr.
  apply placePli_run in Hr as (_ & res & Hrun & Hres).
  pose proof (reset_parts_same_view view keys Hset keys ltac:(done) parts yConstraint) as H1.
  apply (place_columns_same_view view keys Hput) in Hrun. cbn [p_parts] in Hrun.
  destruct res as [p|p].
  - subst r. cbn [r_parts]. by eapply same_view_trans.
  - destruct Hres as (ks & Hks & _ & ->).
    apply leading_keys_Some in Hks as (_ & _ & Hks).
    eapply same_view_trans; [exact H1|]. eapply same_view_trans; [exact Hrun|].
    eapply same_view_trans; [by apply spread_margins_same_view|].
    by apply add_bot_same_view.
Qed.

(** [placePli] keeps the size of the hash. *)
Lemma placePli_size (cfg : PliConfig) (parts : gmap string PliPart) (keys : list string)
    (xConstraint yConstraint : Z) (packSubs sortType : bool) (r : placed_pli) :
  placePli cfg parts keys xConstraint yConstraint packSubs sortType = Some r ->
  size (r_parts r) = size parts.
Proof.
  intros Hr. apply (placePli_same_view (fun _ => tt)) in Hr; [|done..].
  apply same_keys_size, Hr.
Qed.

(** The return value is 0 or -1, and -1 comes with the zeros that
    [pliWidth] and [pliHeight] were given at the start. *)
Lemma placePli_rc (cfg : PliConfig) (parts : gmap string PliPart) (keys : list string)
    (xConstraint yConstraint : Z) (packSubs sortType : bool) (r : placed_pli) :
  placePli cfg parts keys xConstraint yConstraint packSubs sortType = Some r ->
  rc r = 0 ∨ (rc r = -1 ∧ pliWidth r = 0 ∧ pliHeight r = 0).
Proof.
  intros Hr. apply placePli_run in Hr as (_ & res & _ & Hres). destruct res as [p|p].
  - subst r. by right.
  - destruct Hres as (ks & _ & Hrc & _). by left.
Qed.

(** ** The count of the placed parts *)

Lemma pending_put_le (parts : gmap string PliPart) (l : list string) (key : string)
    (x y c : Z) :
  is_Some (parts !! key) ->
  pending (fun _ => 1) (alter (put x y c) key parts) l
  <= pending (fun _ => 1) parts l.
Proof.
  intros Hsome. induction l as [|k l IH]; simpl; [done|].
  destruct (decide (k = key)) as [->|Hne].
  - rewrite at_key_alter_in by done. cbn [put placed].
    destruct (placed (at_key parts key)); lia.
  - rewrite at_key_alter_ne by done. destruct (placed (at_key parts k)); lia.
Qed.

Lemma pending_put_lt (parts : gmap string PliPart) (l : list string) (key : string)
    (x y c : Z) :
  key ∈ l -> is_Some (parts !! key) -> placed (at_key parts key) = false ->
  pending (fun _ => 1) (alter (put x y c) key parts) l
  < pending (fun _ => 1) parts l.
Proof.
  intros Hin Hsome Hun. induction l as [|k l IH]; [by apply elem_of_nil in Hin|].
  simpl. pose proof (pending_put_le parts l key x y c Hsome) as Hle.
  destruct (decide (k = key)) as [->|Hne].
  - rewrite at_key_alter_in by done. rewrite Hun. cbn [put placed]. lia.
  - rewrite at_key_alter_ne by done.
    apply elem_of_cons in Hin as [->|Hin]; [done|]. specialize (IH Hin).
    destruct (placed (at_key parts k)); lia.
Qed.

Lemma pending_none (parts : gmap string PliPart) (l : list string) :
  pending (fun _ => 1) parts l <= 0 ->
  forall k, k ∈ l -> placed (at_key parts k) = true.
Proof.
  induction l as [|k' l IH]; intros Hz k Hk; [by apply elem_of_nil in Hk|].
  simpl in Hz.
  pose proof (pending_nonneg (fun _ => 1) parts l ltac:(intros; lia)) as Hnn.
  destruct (placed (at_key parts k')) eqn:Hp; [|lia].
  apply elem_of_cons in Hk as [->|Hk]; [done|]. apply IH; [lia|done].
Qed.

Section Counting.
Variable cfg : PliConfig.
Variable keys : list string.
Variables xConstraint yConstraint : Z.
Variable sortType : bool.

(** Every key has its part, and for distinct keys [nPlaced] is the number
    of placed parts. *)
Definition counted (parts : gmap string PliPart) (nPlaced : Z) : Prop :=
  (forall k, k ∈ keys -> is_Some (parts !! k))
  ∧ (NoDup keys ->
     nPlaced + pending (fun _ => 1) parts keys = Z.of_nat (length keys)).

Lemma counted_put (parts : gmap string PliPart) (nPlaced : Z) (key : string)
    (x y c : Z) :
  counted parts nPlaced -> key ∈ keys -> placed (at_key parts key) = false ->
  counted (alter (put x y c) key parts) (nPlaced + 1)
  ∧ pending (fun _ => 1) (alter (put x y c) key parts) keys
    < pending (fun _ => 1) parts keys.
Proof.
  intros [Hdom Hn] Hin Hun. split; [split|].
  - intros k Hk. apply is_Some_alter. by apply Hdom.
  - intros Hnd.
    pose proof (pending_put (fun _ => 1) parts keys key x y c Hnd Hin (Hdom key Hin) Hun)
      as H1.
    cbn beta in H1. specialize (Hn Hnd). lia.
  - apply pending_put_lt; [done | by apply Hdom | done].
Qed.

Lemma stack_loop_counted (fuel : nat) :
  forall (c : column) (left cols : Z),
    counted (c_parts c) (c_nPlaced c) ->
    pending (fun _ => 1) (c_parts c) keys < Z.of_nat fuel ->
    exists c',
      stack_loop fuel keys yConstraint sortType left cols c = Some c'
      ∧ counted (c_parts c') (c_nPlaced c')
      ∧ c_nPlaced c <= c_nPlaced c'.
Proof.
  induction fuel as [|fuel IH]; intros c left cols Hc Hfuel.
  - pose proof (pending_nonneg (fun _ => 1) (c_parts c) keys ltac:(intros; lia)). lia.
  - cbn [stack_loop].
    destruct (c_nPlaced c <? _); [|by exists c].
    destruct (stack_fit _ _ _ _ _) as [[[key overlap] splitMargin]|] eqn:Hfit;
      [|by exists c].
    apply stack_fit_found in Hfit as (Hin & Hun & _).
    destruct (counted_put _ _ key left (c_bot c + splitMargin - overlap) cols Hc Hin Hun)
      as [Hc' Hlt].
    destruct (sortType && _);
      (edestruct IH as (c' & Hrun & Hc'' & Hn'); cycle 2;
       [exists c'; split; [exact Hrun|]; split; [exact Hc''|];
        cbn [c_nPlaced] in Hn'; lia
       | exact Hc' | cbn [c_parts]; lia]).
Qed.

Lemma place_column_counted (p : packing) (key : string) :
  counted (p_parts p) (p_nPlaced p) ->
  key ∈ keys -> placed (at_key (p_parts p) key) = false ->
  exists p',
    place_column cfg keys yConstraint sortType key p = Some p'
    ∧ counted (p_parts p') (p_nPlaced p')
    ∧ p_nPlaced p < p_nPlaced p'.
Proof.
  intros Hp Hin Hun. unfold place_column.
  destruct (counted_put _ _ key (p_left p) 0 (p_cols p + 1) Hp Hin Hun) as [H1 _].
  set (parts1 := alter (put (p_left p) 0 (p_cols p + 1)) key (p_parts p)) in *.
  destruct (side_fit parts1 (at_key parts1 key) keys key) as [fit partKey] eqn:Hside.
  assert (exists parts2 nPlaced2,
             (match fit with
              | Some k =>
                  (alter (put (left (at_key parts1 key) + width (at_key parts1 key)
                               - width (at_key parts1 k)) 0 (p_cols p + 1)) k parts1,
                   p_nPlaced p + 1 + 1)
              | None => (parts1, p_nPlaced p + 1)
              end) = (parts2, nPlaced2)
             ∧ counted parts2 nPlaced2
             ∧ p_nPlaced p < nPlaced2) as (parts2 & nPlaced2 & Heq & H2 & Hn2).
  { destruct fit as [k|].
    - apply side_fit_found in Hside as (Hk & Hunk & _).
      eexists _, _. split; [reflexivity|]. split; [|lia].
      by apply counted_put.
    - eexists _, _. split; [reflexivity|]. split; [done|lia]. }
  rewrite Heq.
  set (c0 := mkColumn parts2 key _ _ _ _ _ nPlaced2).
  destruct (stack_loop_counted (S (length keys)) c0 (p_left p) (p_cols p + 1))
    as (c' & Hrun & Hc' & Hn').
  - exact H2.
  - pose proof (pending_count_le parts2 keys). cbn [c0 c_parts]. lia.
  - rewrite Hrun. cbn [mbind option_bind]. eexists. split; [reflexivity|].
    cbn [p_parts p_nPlaced]. cbn [c0 c_nPlaced] in Hn'. split; [exact Hc'|lia].
Qed.

Lemma place_columns_counted (fuel : nat) :
  forall p : packing,
    counted (p_parts p) (p_nPlaced p) ->
    Z.of_nat (length keys) - p_nPlaced p < Z.of_nat fuel -> (0 < fuel)%nat ->
    exists r,
      place_columns fuel cfg keys xConstraint yConstraint sortType p = Some r
      ∧ match r with
        | inl _ => True
        | inr p' => counted (p_parts p') (p_nPlaced p')
                    ∧ Z.of_nat (length keys) <= p_nPlaced p'
        end.
Proof.
  induction fuel as [|fuel IH]; intros p Hp Hfuel Hpos; [lia|].
  cbn [place_columns].
  destruct (p_nPlaced p <? Z.of_nat (length keys)) eqn:Hlt.
  - apply Z.ltb_lt in Hlt.
    destruct (first_fit _ _ _ _) as [key|] eqn:Hfit; [|by eexists (inl p)].
    apply first_fit_found in Hfit as (Hin & Hun & _).
    destruct (place_column_counted p key Hp Hin Hun) as (p' & Hrun & Hp' & Hn').
    rewrite Hrun. cbn [mbind option_bind]. apply IH; [done|lia|lia].
  - apply Z.ltb_ge in Hlt. exists (inr p). by split.
Qed.

End Counting.

(** ** Runs of [placePli] on a key list that lists the hash *)

(** With every key in the hash, the packing loops come to an end. *)
Lemma place_columns_ends (cfg : PliConfig) (parts : gmap string PliPart)
    (keys : list string) (xConstraint yConstraint : Z) (sortType : bool) :
  (forall k, k ∈ keys -> is_Some (parts !! k)) ->
  exists res,
    place_columns (S (length keys)) cfg keys xConstraint
      (reset_parts keys parts yConstraint).2 sortType
      (mkPacking (reset_parts keys parts yConstraint).1 0 0 0
         (Qtrunc (marginY cfg + thickness cfg)%Q) (Qtrunc (marginY cfg + thickness cfg)%Q)
         0 []) = Some res
    ∧ match res with
      | inl _ => True
      | inr p => NoDup keys -> forall k, k ∈ keys -> placed (at_key (p_parts p) k) = true
      end.
Proof.
  intros Hdom.
  pose proof (reset_parts_lookup keys parts yConstraint) as Hlook.
  pose proof (reset_parts_at_key keys parts yConstraint) as Hat.
  destruct (reset_parts keys parts yConstraint) as [parts1 y1]. cbn [fst snd] in *.
  set (p0 := mkPacking parts1 0 0 0 _ _ 0 []).
  destruct (place_columns_counted cfg keys xConstraint y1 sortType (S (length keys)) p0)
    as (res & Hrun & Hres).
  - split.
    + intros k Hk. cbn [p0 p_parts]. rewrite Hlook, decide_True by done.
      apply fmap_is_Some. by apply Hdom.
    + intros _. cbn [p0 p_parts p_nPlaced]. rewrite pending_all, foldr_ones; [lia|].
      intros k Hk. rewrite Hat by done. by destruct (at_key parts k).
  - cbn [p0 p_nPlaced]. lia.
  - lia.
  - exists res. split; [exact Hrun|]. destruct res as [p|p]; [done|].
    intros Hnd. destruct Hres as [[_ Hn] Hall]. specialize (Hn Hnd).
    apply pending_none. lia.
Qed.

(** [placePli] has a result when the key list has an entry for every part
    of the hash and every entry is a key of the hash. *)
Lemma placePli_result (cfg : PliConfig) (parts : gmap string PliPart)
    (keys : list string) (xConstraint yConstraint : Z) (packSubs sortType : bool) :
  length keys = size parts ->
  (forall k, k ∈ keys -> is_Some (parts !! k)) ->
  exists r, placePli cfg parts keys xConstraint yConstraint packSubs sortType = Some r.
Proof.
  intros Hlen Hdom.
  destruct (place_columns_ends cfg parts keys xConstraint yConstraint sortType Hdom)
    as (res & Hrun & _).
  pose proof (reset_parts_same_view (fun _ => tt) keys ltac:(done) keys ltac:(done)
                parts yConstraint) as H1.
  pose proof (place_columns_same_view (fun _ => tt) keys ltac:(done) _ _ _ _ _ _ _ Hrun)
    as H2.
  unfold placePli. rewrite decide_True by (by apply Forall_forall).
  destruct (reset_parts keys parts yConstraint) as [parts1 y1]. cbn [fst snd] in *.
  rewrite Hrun. cbn [mbind option_bind]. destruct res as [p|p]; [by eexists|].
  cbn [p_parts] in H2. unfold leading_keys. rewrite decide_True.
  - cbn [mbind option_bind]. destruct (spread_margins _ _ _ _ _) as [[parts2 w2] m2].
    by eexists.
  - rewrite (same_keys_size parts1 (p_parts p)) by apply H2.
    rewrite (same_keys_size parts parts1) by apply H1. lia.
Qed.

(** A result of 0 for distinct keys means that every part is placed. *)
Lemma placePli_places_all (cfg : PliConfig) (parts : gmap string PliPart)
    (keys : list string) (xConstraint yConstraint : Z) (packSubs sortType : bool)
    (r : placed_pli) :
  NoDup keys ->
  placePli cfg parts keys xConstraint yConstraint packSubs sortType = Some r ->
  rc r = 0 ->
  forall k, k ∈ keys -> placed (at_key (r_parts r) k) = true.
Proof.
  intros Hnd Hr Hrc.
  apply placePli_run in Hr as (Hdom & res & Hrun & Hres).
  destruct (place_columns_ends cfg parts keys xConstraint yConstraint sortType)
    as (res' & Hrun' & Hall); [by apply Forall_forall|].
  rewrite Hrun in Hrun'. injection Hrun' as <-.
  destruct res as [p|p]; [by subst r|].
  destruct Hres as (ks & Hks & _ & Hparts). specialize (Hall Hnd).
  apply leading_keys_Some in Hks as (_ & _ & Hks).
  pose proof (spread_margins_same_view placed keys ltac:(by intros ? []) cfg ks
                (p_margins p) (p_parts p) (p_left p) Hks) as (_ & H3 & _).
  pose proof (add_bot_same_view placed keys ltac:(by intros ? []) (p_botMargin p) ks
                (spread_margins cfg ks (p_margins p) (p_parts p) (p_left p)).1.1 Hks)
    as (_ & H4 & _).
  intros k Hk. rewrite Hparts, H4, H3. by apply Hall.
Qed.

(** With room for all widths in front of [xConstraint] the result is 0,
    whatever the height limit is. *)
Lemma placePli_feasible (cfg : PliConfig) (parts : gmap string PliPart)
    (keys : list string) (xConstraint yConstraint : Z) (packSubs sortType : bool) :
  NoDup keys ->
  length keys = size parts ->
  (forall k, k ∈ keys -> is_Some (parts !! k)) ->
  (forall k, k ∈ keys -> 0 <= width (at_key parts k)) ->
  total_width keys parts < xConstraint ->
  exists r,
    placePli cfg parts keys xConstraint yConstraint packSubs sortType = Some r
    ∧ rc r = 0.
Proof.
  intros Hnd Hlen Hdom Hw Hroom.
  destruct (placePli_result cfg parts keys xConstraint yConstraint packSubs sortType
              Hlen Hdom) as [r Hr].
  exists r. split; [done|].
  apply placePli_run in Hr as (_ & res & Hrun & Hres).
  pose proof (reset_parts_at_key keys parts yConstraint) as Hat.
  pose proof (reset_parts_width keys parts yConstraint) as Hwidth.
  pose proof (reset_parts_lookup keys parts yConstraint) as Hlook.
  destruct (reset_parts keys parts yConstraint) as [parts1 y1]. cbn [fst snd] in *.
  set (p0 := mkPacking parts1 0 0 0 _ _ 0 []) in Hrun.
  assert (forall k, k ∈ keys -> placed (at_key parts1 k) = false) as Hun.
  { intros k Hk. rewrite Hat by done. by destruct (at_key parts k). }
  destruct (place_columns_packed cfg keys parts xConstraint y1 sortType Hnd Hw
              (S (length keys)) Hroom p0) as (p' & Hrun' & _).
  - split; [split|].
    + intros k Hk. rewrite Hlook, decide_True by done. apply fmap_is_Some. by apply Hdom.
    + intros k. apply Hwidth.
    + cbn [p0 p_parts p_left p_nPlaced].
      rewrite !pending_all by done. rewrite foldr_ones. unfold total_width.
      split; [lia|]. split; [lia|]. lia.
  - cbn [p0 p_parts]. pose proof (pending_count_le parts1 keys). lia.
  - rewrite Hrun in Hrun'. injection Hrun' as ->.
    by destruct Hres as (ks & _ & Hrc & _).
Qed.

(** ** Claims C2 and C1: feasibility and the height *)

(** A solid rectangle: every scanline runs from column 0 to column
    [w-1]. *)
Definition rect (w h : Z) : PliPart :=
  mkPliPart w h (replicate (Z.to_nat h) 0) (replicate (Z.to_nat h) (w - 1))
            0 0 0 0 false 0 0 "" "" "" "" false 0 0 0.

(** No border and no margins. *)
Definition bare : PliConfig := mkPliConfig 0 0 0 false false.

Definition two_small_one_wide : gmap string PliPart :=
  <["a" := rect 10 10]> (<["b" := rect 10 15]> (<["c" := rect 200 10]> ∅)).

(** The same three parts with [c] as wide as the width limit that
    [resizePli] passes. *)
Definition one_too_wide : gmap string PliPart :=
  <["a" := rect 10 10]> (<["b" := rect 10 15]> (<["c" := rect 10000000 10]> ∅)).

(** C2 does not hold: with a width limit of 100 the three parts are
    packed under the height 20 ([c], which is too wide to start a column,
    is stacked on [a], and [b] starts a second column), but not under the
    height 23: there [b] goes on top of [a], [c] no longer fits above
    them, and no column can start with [c].  The same happens under the
    width limit 10000000 of [resizePli] when [c] is that wide. *)
Lemma C2_taller_limit_fails :
  (rc <$> placePli bare two_small_one_wide ["a"; "b"; "c"] 100 20 false false) = Some 0
  ∧ (rc <$> placePli bare two_small_one_wide ["a"; "b"; "c"] 100 23 false false)
    = Some (-1)
  ∧ (rc <$> placePli bare one_too_wide ["a"; "b"; "c"] 10000000 20 false false)
    = Some 0
  ∧ (rc <$> placePli bare one_too_wide ["a"; "b"; "c"] 10000000 23 false false)
    = Some (-1).
Proof. repeat split; vm_compute; reflexivity. Qed.

(** C2, as the code has it: [placePli] fails only for want of width.
    When the key list names every part of the hash once (distinct keys
    of the hash, as many as the hash has parts) and the widths of the
    parts add up to less than [xConstraint], it succeeds for every height
    limit, so that for such parts feasibility does not depend on the
    height at all. *)
Theorem C2_room_in_width_succeeds (cfg : PliConfig) (parts : gmap string PliPart)
    (keys : list string) (xConstraint : Z) (packSubs sortType : bool) :
  NoDup keys ->
  length keys = size parts ->
  (forall k, k ∈ keys -> is_Some (parts !! k)) ->
  (forall k, k ∈ keys -> 0 <= width (at_key parts k)) ->
  total_width keys parts < xConstraint ->
  forall yConstraint : Z,
    exists r,
      placePli cfg parts keys xConstraint yConstraint packSubs sortType = Some r
      ∧ rc r = 0.
Proof.
  intros Hnd Hlen Hdom Hw Hroom yConstraint. by apply placePli_feasible.
Qed.

Lemma C2_room_in_width_succeeds_witness :
  NoDup ["a"; "b"; "c"]
  ∧ length ["a"; "b"; "c"] = size two_small_one_wide
  ∧ (forall k, k ∈ ["a"; "b"; "c"] -> is_Some (two_small_one_wide !! k))
  ∧ (forall k, k ∈ ["a"; "b"; "c"] -> 0 <= width (at_key two_small_one_wide k))
  ∧ total_width ["a"; "b"; "c"] two_small_one_wide < 10000000
  ∧ forall yConstraint : Z,
      exists r,
        placePli bare two_small_one_wide ["a"; "b"; "c"] 10000000 yConstraint false false
        = Some r
        ∧ rc r = 0.
Proof.
  assert (NoDup ["a"; "b"; "c"]) as Hnd
    by (apply (bool_decide_unpack _); vm_compute; exact I).
  assert (length ["a"; "b"; "c"] = size two_small_one_wide) as Hlen
    by (vm_compute; reflexivity).
  assert (forall k, k ∈ ["a"; "b"; "c"] -> is_Some (two_small_one_wide !! k)) as Hdom.
  { intros k Hk. repeat (apply elem_of_cons in Hk as [->|Hk]; [by eexists|]).
    by apply elem_of_nil in Hk. }
  assert (forall k, k ∈ ["a"; "b"; "c"] -> 0 <= width (at_key two_small_one_wide k)) as Hw.
  { intros k Hk. repeat (apply elem_of_cons in Hk as [->|Hk]; [by vm_compute|]).
    by apply elem_of_nil in Hk. }
  assert (total_width ["a"; "b"; "c"] two_small_one_wide < 10000000) as Hroom
    by (by vm_compute).
  split; [exact Hnd|]. split; [exact Hlen|]. split; [exact Hdom|].
  split; [exact Hw|]. split; [exact Hroom|].
  exact (C2_room_in_width_succeeds bare two_small_one_wide ["a"; "b"; "c"] 10000000
           false false Hnd Hlen Hdom Hw Hroom).
Defined.

(** Sizing without border or margins, with the scan step of 15 pixels
    (a tenth of an inch at 150 DPI) and parts sorted by colour. *)
Definition plain : SizeConfig :=
  mkSizeConfig bare false true 15 (mkSortOrder PartColour NoSort NoSort true true true).

(** What a sizing call hands back, for the comparison of two calls: the
    return value, [size], the constraint type afterwards and, for every
    key, whether its part is placed. *)
Definition sized (r : option (Z * PliState * ConstrainData))
    : option (Z * (Z * Z) * PliConstrain * list bool) :=
  '(z, st, cd) ← r;
  Some (z, pli_size st, type cd,
        (fun k => placed (at_key (parts st) k)) <$> sortedKeys st).




(** ** Claim C9: the size and the parts *)

(** A part whose scanlines all run from column [l] to column [r]. *)
Definition strip (w h l r : Z) : PliPart :=
  mkPliPart w h (replicate (Z.to_nat h) l) (replicate (Z.to_nat h) r)
            0 0 0 0 false 0 0 "" "" "" "" false 0 0 0.

(** A low part that keeps to the left of its image and a tall part that
    keeps to the right of its image. *)
Definition low_and_tall : gmap string PliPart :=
  <["a" := strip 20 10 0 4]> (<["b" := strip 20 30 15 19]> ∅).

(** Where the parts of a sized list are: [left], [bot], [width] and
    [height] of every key, with the return value and [size]. *)
Definition layout (r : option (Z * PliState * ConstrainData))
    : option (Z * (Z * Z) * list (Z * Z * Z * Z)) :=
  '(z, st, _) ← r;
  Some (z, pli_size st,
        (fun k => let p := at_key (parts st) k in (left p, bot p, width p, height p))
          <$> sortedKeys st).

(** C9 is not kept by the code.  [sizePli] returns 0 for the two parts
    below with a size of 20 by 10, and the part [b], which was put beside
    the first part of its column, stands at [bot = 0] with a height of 30:
    it reaches 20 pixels above the list.  The column's height is taken
    from its first part and from the parts stacked on it, not from the
    part put beside the first.  [partSize] is taken to measure the two
    parts as they are given; [resizePli], called on the sorted keys
    without [sortPli] (as the second [sizePli] does), gives the same. *)
Theorem C9_part_reaches_above_the_list :
  layout (sizePli 2 (fun _ => low_and_tall) plain (mkConstrainData PliConstrainArea 0)
                  ["a"; "b"] (mkPliState low_and_tall [] (0, 0)))
  = Some (0, (20, 10), [(0, 0, 20, 10); (0, 0, 20, 30)])
  ∧ layout (sizePli 2 (fun _ => low_and_tall) plain
                    (mkConstrainData PliConstrainHeight (inject_Z 40)) ["a"; "b"]
                    (mkPliState low_and_tall [] (0, 0)))
    = Some (0, (20, 10), [(0, 0, 20, 10); (0, 0, 20, 30)])
  ∧ layout (resizePli plain (mkConstrainData PliConstrainArea 0)
                      (mkPliState low_and_tall ["a"; "b"] (0, 0)))
    = Some (0, (20, 10), [(0, 0, 20, 10); (0, 0, 20, 30)])
  ∧ layout (resizePli plain (mkConstrainData PliConstrainHeight (inject_Z 40))
                      (mkPliState low_and_tall ["a"; "b"] (0, 0)))
    = Some (0, (20, 10), [(0, 0, 20, 10); (0, 0, 20, 30)]).
Proof. repeat split; vm_compute; reflexivity. Qed.

(** * Part V: further properties of the parts-list engine *)

(** ** The return value of [placePli] *)

(** X1.  [placePli] ends with 0 or with -1; the code -2 that [resizePli] tests
    for is not among its results.  When it gives up, [pliWidth] and
    [pliHeight] are still the zeros of its start. *)
Theorem placePli_returns_0_or_minus_1 (cfg : PliConfig) (parts : gmap string PliPart)
    (keys : list string) (xConstraint yConstraint : Z) (packSubs sortType : bool)
    (r : placed_pli) :
  placePli cfg parts keys xConstraint yConstraint packSubs sortType = Some r ->
  rc r = 0 ∨ (rc r = -1 ∧ pliWidth r = 0 ∧ pliHeight r = 0).
Proof. apply placePli_rc. Qed.

(** The three parts after [a] and [b] were packed under the height 23. *)
Definition two_stacked : gmap string PliPart :=
  <["a" := put 0 0 1 (rect 10 10)]>
    (<["b" := put 0 8 1 (rect 10 15)]> (<["c" := rect 200 10]> ∅)).

Lemma placePli_returns_0_or_minus_1_witness :
  placePli bare two_small_one_wide ["a"; "b"; "c"] 100 23 false false
  = Some (mkPlaced (-1) two_stacked 1 0 0)
  ∧ (-1 = 0 ∨ (-1 = -1 ∧ 0 = 0 ∧ 0 = 0)).
Proof.
  assert (placePli bare two_small_one_wide ["a"; "b"; "c"] 100 23 false false
          = Some (mkPlaced (-1) two_stacked 1 0 0)) as Hrun
    by (vm_compute; reflexivity).
  split; [exact Hrun|].
  exact (placePli_returns_0_or_minus_1 _ _ _ _ _ _ _ _ Hrun).
Defined.

(** ** [resizePli] under the Height constraint *)

(** X2.  Under the Height constraint [resizePli] is the single [placePli] call
    and nothing else: whatever that call reports, the return value is 0,
    [size] is what the call left in [pliWidth] and [pliHeight], and the
    constraint is handed back as it came.  The branch that would switch to
    the Area constraint is never taken. *)
Theorem resizePli_height_is_one_call (sc : SizeConfig) (cd : ConstrainData)
    (st : PliState) :
  type cd = PliConstrainHeight ->
  resizePli sc cd st
  = (r ← placePli (pli sc) (parts st) (sortedKeys st) 10000000
                  (Qtrunc (constraint cd)) (pack sc) (sort sc);
     Some (0, mkPliState (r_parts r) (sortedKeys st) (pliWidth r, pliHeight r), cd)).
Proof.
  intros Hty. unfold resizePli. rewrite Hty.
  destruct (placePli _ _ _ _ _ _ _) as [r|] eqn:Hrun; cbn [mbind option_bind]; [|done].
  destruct (placePli_rc _ _ _ _ _ _ _ _ Hrun) as [H0|[H1 _]];
    rewrite decide_False by lia; reflexivity.
Qed.

Lemma resizePli_height_is_one_call_witness :
  type (mkConstrainData PliConstrainHeight (inject_Z 23)) = PliConstrainHeight
  ∧ resizePli plain (mkConstrainData PliConstrainHeight (inject_Z 23))
              (mkPliState one_too_wide ["a"; "b"; "c"] (0, 0))
    = (r ← placePli (pli plain) one_too_wide ["a"; "b"; "c"] 10000000
                    (Qtrunc (inject_Z 23)) (pack plain) (sort plain);
       Some (0, mkPliState (r_parts r) ["a"; "b"; "c"] (pliWidth r, pliHeight r),
             mkConstrainData PliConstrainHeight (inject_Z 23))).
Proof.
  split; [reflexivity|].
  exact (resizePli_height_is_one_call plain
           (mkConstrainData PliConstrainHeight (inject_Z 23))
           (mkPliState one_too_wide ["a"; "b"; "c"] (0, 0)) eq_refl).
Defined.

(** ** The height limit is raised to the tallest part *)

(** The height limit after the first loop of [placePli]. *)
Definition raised (parts : gmap string PliPart) (keys : list string) (y : Z) : Z :=
  foldl (fun y key => if height (at_key parts key) >? y
                      then height (at_key parts key) else y) y keys.

Lemma raised_cons (parts : gmap string PliPart) (key : string) (l : list string)
    (y : Z) :
  raised parts (key :: l) y
  = raised parts l (if height (at_key parts key) >? y
                    then height (at_key parts key) else y).
Proof. reflexivity. Qed.

Lemma raised_alter (f : PliPart -> PliPart) (parts : gmap string PliPart)
    (key : string) (l : list string) :
  keeps_size f -> forall y, raised (alter f key parts) l y = raised parts l y.
Proof.
  intros Hf. induction l as [|k l IH]; intros y; [done|].
  cbn [raised foldl]. rewrite height_alter by done. apply IH.
Qed.

Lemma reset_parts_raised (l : list string) :
  forall (parts : gmap string PliPart) (y : Z),
    reset_parts l parts y = ((reset_parts l parts 0).1, raised parts l y).
Proof.
  induction l as [|key l IH]; intros parts y; [done|].
  rewrite !reset_parts_cons. rewrite IH. symmetry. rewrite IH. cbn [fst].
  f_equal. rewrite raised_cons.
  rewrite !height_alter by apply set_placed_keeps_size.
  symmetry. apply raised_alter, set_placed_keeps_size.
Qed.

Lemma raised_above (parts : gmap string PliPart) (l : list string) :
  forall y, y <= raised parts l y
            ∧ forall k, k ∈ l -> height (at_key parts k) <= raised parts l y.
Proof.
  induction l as [|key l IH]; intros y.
  - split; [done|]. intros k Hk. by apply elem_of_nil in Hk.
  - rewrite raised_cons.
    destruct (IH (if height (at_key parts key) >? y
                  then height (at_key parts key) else y)) as [Hy Hall].
    destruct (Z.gtb_spec (height (at_key parts key)) y) as [Hgt|Hle].
    + split; [lia|]. intros k [->|Hk]%elem_of_cons; [lia | by apply Hall].
    + split; [lia|]. intros k [->|Hk]%elem_of_cons; [lia | by apply Hall].
Qed.

Lemma raised_fixed (parts : gmap string PliPart) (l : list string) (y : Z) :
  (forall k, k ∈ l -> height (at_key parts k) <= y) -> raised parts l y = y.
Proof.
  induction l as [|key l IH]; intros Hall; [done|].
  rewrite raised_cons.
  assert (height (at_key parts key) <= y) as Hk by (apply Hall; left).
  destruct (Z.gtb_spec (height (at_key parts key)) y) as [Hgt|Hle]; [lia|].
  apply IH. intros k Hk'. apply Hall. by right.
Qed.

(** X3.  A height limit below the tallest part counts as the height of the
    tallest part: [placePli] gives the same result for [yConstraint] and
    for the limit raised over the heights of all parts. *)
Theorem placePli_height_limit_is_raised (cfg : PliConfig) (parts : gmap string PliPart)
    (keys : list string) (xConstraint yConstraint : Z) (packSubs sortType : bool) :
  yConstraint <= raised parts keys yConstraint
  ∧ (forall k, k ∈ keys -> height (at_key parts k) <= raised parts keys yConstraint)
  ∧ placePli cfg parts keys xConstraint yConstraint packSubs sortType
    = placePli cfg parts keys xConstraint (raised parts keys yConstraint) packSubs sortType.
Proof.
  destruct (raised_above parts keys yConstraint) as [Hy Hall].
  split; [done|]. split; [done|].
  unfold placePli.
  rewrite (reset_parts_raised keys parts yConstraint).
  rewrite (reset_parts_raised keys parts (raised parts keys yConstraint)).
  by rewrite (raised_fixed parts keys (raised parts keys yConstraint)).
Qed.

(** ** What [placePli] leaves alone *)

(** X4.  [placePli] moves parts and nothing else: the hash keeps its keys
    and its size, and every part keeps its size, silhouette, margins and
    sort values; only [placed], [left], [bot] and [col] are written. *)
Theorem placePli_only_places (cfg : PliConfig) (parts : gmap string PliPart)
    (keys : list string) (xConstraint yConstraint : Z) (packSubs sortType : bool)
    (r : placed_pli) :
  placePli cfg parts keys xConstraint yConstraint packSubs sortType = Some r ->
  (forall k, is_Some (r_parts r !! k) <-> is_Some (parts !! k))
  ∧ size (r_parts r) = size parts
  ∧ (forall k, unplaced_part (at_key (r_parts r) k) = unplaced_part (at_key parts k)).
Proof.
  intros Hrun. pose proof (placePli_size _ _ _ _ _ _ _ _ Hrun) as Hsize.
  apply (placePli_same_view unplaced_part) in Hrun; [|by intros; destruct p..].
  destruct Hrun as (Hdom & Hview & _). done.
Qed.

(** The three parts after they were packed under the width limit
    10000000 and the height 23: [b] on [a], and [c] in a column of its
    own. *)
Definition three_packed : gmap string PliPart :=
  <["a" := put 0 0 1 (rect 10 10)]>
    (<["b" := put 0 8 1 (rect 10 15)]> (<["c" := put 10 0 2 (rect 200 10)]> ∅)).

Lemma placePli_only_places_witness :
  placePli bare two_small_one_wide ["a"; "b"; "c"] 10000000 23 false false
  = Some (mkPlaced 0 three_packed 2 210 23)
  ∧ (forall k, is_Some (three_packed !! k) <-> is_Some (two_small_one_wide !! k))
  ∧ size three_packed = size two_small_one_wide
  ∧ (forall k,
       unplaced_part (at_key three_packed k) = unplaced_part (at_key two_small_one_wide k)).
Proof.
  assert (placePli bare two_small_one_wide ["a"; "b"; "c"] 10000000 23 false false
          = Some (mkPlaced 0 three_packed 2 210 23)) as Hrun by (vm_compute; reflexivity).
  split; [exact Hrun|].
  exact (placePli_only_places _ _ _ _ _ _ _ _ Hrun).
Defined.

(** ** [placePli] ends, and on success every part is placed *)

(** X5.  [placePli] comes to an end when the key list has an entry for every
    part of the hash and every entry is a key of the hash: the two nested
    loops place a part in every round, so that a number of rounds of one
    more than the number of keys is never used up, and the loops at the
    end find the keys they read. *)
Theorem placePli_ends (cfg : PliConfig) (parts : gmap string PliPart)
    (keys : list string) (xConstraint yConstraint : Z) (packSubs sortType : bool) :
  length keys = size parts ->
  (forall k, k ∈ keys -> is_Some (parts !! k)) ->
  exists r, placePli cfg parts keys xConstraint yConstraint packSubs sortType = Some r.
Proof. apply placePli_result. Qed.

Lemma placePli_ends_witness :
  length ["a"; "b"; "c"] = size two_small_one_wide
  ∧ (forall k, k ∈ ["a"; "b"; "c"] -> is_Some (two_small_one_wide !! k))
  ∧ exists r,
      placePli bare two_small_one_wide ["a"; "b"; "c"] 10000000 23 false false = Some r.
Proof.
  assert (length ["a"; "b"; "c"] = size two_small_one_wide) as Hlen
    by (vm_compute; reflexivity).
  assert (forall k, k ∈ ["a"; "b"; "c"] -> is_Some (two_small_one_wide !! k)) as Hdom.
  { intros k Hk. repeat (apply elem_of_cons in Hk as [->|Hk]; [by eexists|]).
    by apply elem_of_nil in Hk. }
  split; [exact Hlen|]. split; [exact Hdom|].
  exact (placePli_ends bare two_small_one_wide ["a"; "b"; "c"] 10000000 23 false false
           Hlen Hdom).
Defined.

(** X6.  When [placePli] returns 0 for distinct keys of the hash, the part of
    every key is placed. *)
Theorem placePli_success_places_all (cfg : PliConfig) (parts : gmap string PliPart)
    (keys : list string) (xConstraint yConstraint : Z) (packSubs sortType : bool)
    (r : placed_pli) :
  NoDup keys ->
  (forall k, k ∈ keys -> is_Some (parts !! k)) ->
  placePli cfg parts keys xConstraint yConstraint packSubs sortType = Some r ->
  rc r = 0 ->
  forall k, k ∈ keys -> placed (at_key (r_parts r) k) = true.
Proof. intros Hnd _. by apply placePli_places_all. Qed.

Lemma placePli_success_places_all_witness :
  NoDup ["a"; "b"; "c"]
  ∧ (forall k, k ∈ ["a"; "b"; "c"] -> is_Some (two_small_one_wide !! k))
  ∧ (exists r,
       placePli bare two_small_one_wide ["a"; "b"; "c"] 100 20 false false = Some r
       ∧ rc r = 0
       ∧ forall k, k ∈ ["a"; "b"; "c"] -> placed (at_key (r_parts r) k) = true).
Proof.
  assert (NoDup ["a"; "b"; "c"]) as Hnd
    by (apply (bool_decide_unpack _); vm_compute; exact I).
  assert (forall k, k ∈ ["a"; "b"; "c"] -> is_Some (two_small_one_wide !! k)) as Hdom.
  { intros k Hk. repeat (apply elem_of_cons in Hk as [->|Hk]; [by eexists|]).
    by apply elem_of_nil in Hk. }
  split; [exact Hnd|]. split; [exact Hdom|].
  destruct (placePli bare two_small_one_wide ["a"; "b"; "c"] 100 20 false false)
    as [r|] eqn:Hrun; [|by vm_compute in Hrun].
  assert (rc r = 0) as Hrc.
  { assert (rc <$> placePli bare two_small_one_wide ["a"; "b"; "c"] 100 20 false false
            = Some 0) as H by (vm_compute; reflexivity).
    rewrite Hrun in H. by injection H. }
  exists r. split; [reflexivity|]. split; [exact Hrc|].
  exact (placePli_success_places_all bare two_small_one_wide ["a"; "b"; "c"] 100 20
           false false r Hnd Hdom Hrun Hrc).
Defined.

(** ** More on [sortParts] *)

Lemma StronglySorted_of_lookup {A : Type} (R : A -> A -> Prop) (l : list A) :
  (forall (i j : nat) (x y : A),
     (i < j)%nat -> l !! i = Some x -> l !! j = Some y -> R x y) ->
  StronglySorted R l.
Proof.
  induction l as [|z l IH]; intros H; constructor.
  - apply IH. intros i j x y Hij Hi Hj. apply (H (S i) (S j)); [lia|done..].
  - apply Forall_forall. intros y Hy.
    apply list_elem_of_lookup in Hy as [j Hj]. apply (H 0%nat (S j)); [lia|done..].
Qed.

(** X7.  A key list that is in order already comes back unchanged after a
    single round: [sortParts] exchanges nothing, not even entries that
    compare equal. *)
Theorem sortParts_keeps_a_sorted_list (parts : gmap string PliPart) (so : SortOrder)
    (setSplit : bool) (keys : list string) (fuel : nat) :
  length keys = size parts -> (1 <= fuel)%nat ->
  (forall (i j : nat) (x y : string),
     (i < j)%nat -> keys !! i = Some x -> keys !! j = Some y ->
     needs_swap so setSplit true (at_key parts x) (at_key parts y) = false) ->
  sortParts fuel parts so setSplit keys = Some keys.
Proof.
  intros Hlen Hfuel Hsorted. destruct fuel as [|fuel]; [lia|].
  cbn [sortParts]. rewrite sort_round_pass by done.
  rewrite (pass_sorted (key_gt parts so setSplit)); [done|].
  by apply StronglySorted_of_lookup.
Qed.

Lemma sortParts_keeps_a_sorted_list_witness :
  length ["k3"; "k2"; "k1"] = size three_parts
  ∧ (1 <= 1)%nat
  ∧ (forall (i j : nat) (x y : string),
       (i < j)%nat -> ["k3"; "k2"; "k1"] !! i = Some x -> ["k3"; "k2"; "k1"] !! j = Some y ->
       needs_swap by_colour false true (at_key three_parts x) (at_key three_parts y) = false)
  ∧ sortParts 1 three_parts by_colour false ["k3"; "k2"; "k1"] = Some ["k3"; "k2"; "k1"].
Proof.
  assert (forall (i j : nat) (x y : string),
            (i < j)%nat -> ["k3"; "k2"; "k1"] !! i = Some x ->
            ["k3"; "k2"; "k1"] !! j = Some y ->
            needs_swap by_colour false true (at_key three_parts x) (at_key three_parts y)
            = false) as Hsorted.
  { intros i j x y Hij Hi Hj.
    destruct i as [|[|[|i]]], j as [|[|[|j]]]; simpl in Hi, Hj; try lia; try done;
      injection Hi as <-; injection Hj as <-; vm_compute; reflexivity. }
  split; [vm_compute; reflexivity|]. split; [lia|]. split; [exact Hsorted|].
  apply (sortParts_keeps_a_sorted_list three_parts by_colour false ["k3"; "k2"; "k1"] 1);
    [vm_compute; reflexivity | lia | exact Hsorted].
Defined.

Lemma levels_split (so : SortOrder) :
  levels so true
  = if decide (primary so ≠ NoSort) then [(primary so, primaryDirection so)] else [].
Proof. reflexivity. Qed.

Lemma sortParts_same_test (parts : gmap string PliPart) (so so' : SortOrder)
    (setSplit : bool) :
  (forall a b, needs_swap so setSplit true a b = needs_swap so' setSplit true a b) ->
  forall (fuel : nat) (keys : list string),
    sortParts fuel parts so setSplit keys = sortParts fuel parts so' setSplit keys.
Proof.
  intros Hsame.
  assert (forall keys, sort_round parts so setSplit keys = sort_round parts so' setSplit keys)
    as Hround.
  { intros keys. unfold sort_round. apply foldl_pointwise. intros s x.
    apply foldl_pointwise. intros [ks u] y. unfold sort_step. by rewrite Hsame. }
  induction fuel as [|fuel IH]; intros keys; [done|].
  cbn [sortParts]. rewrite Hround.
  destruct (sort_round parts so' setSplit keys) as [ks u]. destruct u; [apply IH|done].
Qed.

(** X8.  The sort for a split BOM looks at the primary sort option only: two
    sort orders with the same primary option and direction sort alike,
    whatever their secondary and tertiary options are. *)
Theorem sortParts_split_uses_primary_only (parts : gmap string PliPart)
    (so so' : SortOrder) (fuel : nat) (keys : list string) :
  primary so = primary so' -> primaryDirection so = primaryDirection so' ->
  sortParts fuel parts so true keys = sortParts fuel parts so' true keys.
Proof.
  intros Hp Hd. apply sortParts_same_test. intros a b.
  by rewrite !needs_swap_lex, !levels_split, Hp, Hd.
Qed.

Lemma sortParts_split_uses_primary_only_witness :
  primary by_colour = primary (mkSortOrder PartColour NoSort PartElement true false false)
  ∧ primaryDirection by_colour
    = primaryDirection (mkSortOrder PartColour NoSort PartElement true false false)
  ∧ sortParts 2 ten_parts by_colour true ten_keys
    = sortParts 2 ten_parts (mkSortOrder PartColour NoSort PartElement true false false)
                true ten_keys.
Proof.
  split; [reflexivity|]. split; [reflexivity|].
  apply sortParts_split_uses_primary_only; reflexivity.
Defined.

(** ** More on the split of a BOM *)

Lemma elem_of_concat {A : Type} (ls : list (list A)) (x : A) :
  x ∈ concat ls <-> exists l, l ∈ ls ∧ x ∈ l.
Proof.
  induction ls as [|l0 ls IH]; cbn [concat].
  - split; [by intros ?%elem_of_nil | by intros (l & ?%elem_of_nil & _)].
  - rewrite elem_of_app, IH. split.
    + intros [H|(l & Hl & Hx)]; [exists l0; split; [left|done] | exists l; split; [by right|done]].
    + intros (l & [->|Hl]%elem_of_cons & Hx); [by left | right; by exists l].
Qed.

Lemma concat_elem_unique {A : Type} (ls : list (list A)) (i j : nat) (l1 l2 : list A)
    (x : A) :
  NoDup (concat ls) -> ls !! i = Some l1 -> ls !! j = Some l2 ->
  x ∈ l1 -> x ∈ l2 -> i = j.
Proof.
  revert i j. induction ls as [|l ls IH]; intros i j Hnd Hi Hj H1 H2; [done|].
  cbn [concat] in Hnd. apply NoDup_app in Hnd as (Hl & Hdis & Hrest).
  destruct i as [|i], j as [|j]; simpl in Hi, Hj; simplify_eq; [done|..].
  - exfalso. apply (Hdis x H1). apply elem_of_concat. exists l2.
    split; [|done]. by eapply list_elem_of_lookup_2.
  - exfalso. apply (Hdis x H2). apply elem_of_concat. exists l1.
    split; [|done]. by eapply list_elem_of_lookup_2.
  - f_equal. by eapply IH.
Qed.

(** Every key of the sorted list is on exactly one page. *)
Lemma page_unique (sortedKeys : list string) (boms : Z) (key : string) :
  NoDup sortedKeys -> 0 < boms -> key ∈ sortedKeys ->
  exists bomOccurrence,
    1 <= bomOccurrence <= boms
    ∧ key ∈ page sortedKeys boms bomOccurrence
    ∧ forall other, 1 <= other <= boms -> key ∈ page sortedKeys boms other ->
                    other = bomOccurrence.
Proof.
  intros Hnd Hb Hkey.
  pose proof (pages_concat sortedKeys boms Hb) as Hcat.
  assert (forall occ, 1 <= occ <= boms ->
            (page sortedKeys boms <$> seqZ 1 boms) !! Z.to_nat (occ - 1)
            = Some (page sortedKeys boms occ)) as Hat.
  { intros occ Ho. rewrite list_lookup_fmap.
    rewrite (lookup_seqZ_lt 1 boms (Z.to_nat (occ - 1))) by lia.
    simpl. f_equal. f_equal. lia. }
  rewrite <- Hcat in Hkey. apply elem_of_concat in Hkey as (l & Hin & Hl).
  apply list_elem_of_fmap in Hin as (occ & -> & Hocc).
  apply elem_of_seqZ in Hocc.
  exists occ. split; [lia|]. split; [done|].
  intros other Ho Hother.
  assert (Z.to_nat (other - 1) = Z.to_nat (occ - 1)) as Heq; [|lia].
  eapply (concat_elem_unique (page sortedKeys boms <$> seqZ 1 boms));
    [by rewrite Hcat | apply Hat; lia | apply Hat; lia | done | done].
Qed.

(** X9.  In a split BOM no part is lost and none is shown twice: every key
    of [tempParts] is in the hash [parts] that exactly one of the
    occurrences [1 .. boms] is left with, and it is there with its own
    part. *)
Theorem bom_pages_partition (tempParts : gmap string PliPart) (so : SortOrder)
    (keys0 : list string) (boms : Z) (fuel : nat) (key : string) :
  NoDup keys0 -> length keys0 = size tempParts -> (2 <= fuel)%nat -> 0 < boms ->
  key ∈ keys0 ->
  exists bomOccurrence parts,
    1 <= bomOccurrence <= boms
    ∧ setParts_split fuel so boms bomOccurrence tempParts keys0 ∅ = Some parts
    ∧ parts !! key = Some (at_key tempParts key)
    ∧ forall other parts',
        1 <= other <= boms ->
        setParts_split fuel so boms other tempParts keys0 ∅ = Some parts' ->
        is_Some (parts' !! key) -> other = bomOccurrence.
Proof.
  intros Hnd Hlen Hfuel Hb Hkey.
  pose proof (pass_perm (key_gt tempParts so true) (length keys0 - 1) keys0) as Hperm.
  pose proof (fun bomOccurrence =>
                setParts_split_run tempParts so keys0 boms bomOccurrence fuel ∅
                  Hlen Hfuel Hb) as Hrun.
  set (sortedKeys := (pass (key_gt tempParts so true) (length keys0 - 1) keys0).1) in *.
  destruct (page_unique sortedKeys boms key) as (occ & Ho & Hin & Huniq);
    [by rewrite Hperm | done | by rewrite Hperm |].
  exists occ, (insert_all tempParts (page sortedKeys boms occ) ∅).
  split; [done|]. split; [by apply Hrun|]. split.
  - by rewrite insert_all_lookup, decide_True.
  - intros other parts' Hother Hsplit Hsome. apply Huniq; [done|].
    rewrite Hrun in Hsplit by done. injection Hsplit as <-.
    rewrite insert_all_lookup in Hsome. case_decide; [done|].
    rewrite lookup_empty in Hsome. by destruct Hsome.
Qed.

Lemma bom_pages_partition_witness :
  NoDup ten_keys_unsorted ∧ length ten_keys_unsorted = size ten_parts
  ∧ (2 <= 2)%nat ∧ 0 < 3 ∧ "p4" ∈ ten_keys_unsorted
  ∧ exists bomOccurrence parts,
      1 <= bomOccurrence <= 3
      ∧ setParts_split 2 by_colour 3 bomOccurrence ten_parts ten_keys_unsorted ∅
        = Some parts
      ∧ parts !! "p4" = Some (at_key ten_parts "p4")
      ∧ forall other parts',
          1 <= other <= 3 ->
          setParts_split 2 by_colour 3 other ten_parts ten_keys_unsorted ∅ = Some parts' ->
          is_Some (parts' !! "p4") -> other = bomOccurrence.
Proof.
  assert (NoDup ten_keys_unsorted) as Hnd
    by (apply (bool_decide_unpack _); vm_compute; exact I).
  assert ("p4" ∈ ten_keys_unsorted) as Hin
    by (apply (bool_decide_unpack _); vm_compute; exact I).
  assert (length ten_keys_unsorted = size ten_parts) as Hlen by (vm_compute; reflexivity).
  split; [exact Hnd|]. split; [exact Hlen|]. split; [lia|]. split; [lia|].
  split; [exact Hin|].
  apply (bom_pages_partition ten_parts by_colour ten_keys_unsorted 3 2 "p4");
    [exact Hnd | exact Hlen | lia | lia | exact Hin].
Defined.

(** With fewer entries than occurrences every page but the last is empty
    and the last page is the whole list. *)
Lemma page_fewer (sortedKeys : list string) (boms : Z) :
  Z.of_nat (length sortedKeys) < boms ->
  (forall bomOccurrence, 1 <= bomOccurrence < boms ->
     page sortedKeys boms bomOccurrence = [])
  ∧ page sortedKeys boms boms = sortedKeys.
Proof.
  intros Hfew.
  set (n := Z.of_nat (length sortedKeys)).
  assert (n `quot` boms = 0) as Hq by (apply Z.quot_small; lia).
  assert (n `rem` boms = n) as Hr by (apply Z.rem_small; lia).
  split.
  - intros occ Ho. unfold page, split_range. fold n.
    rewrite decide_False by lia. rewrite Hq.
    replace (occ * 0 - (occ * 0 - 0)) with 0 by lia. done.
  - unfold page, split_range. fold n.
    rewrite decide_True by done. rewrite Hq, Hr.
    replace (boms * 0 + n - 0 - n) with 0 by lia.
    replace (boms * 0 + n - 0) with n by lia.
    cbn [Z.to_nat drop]. apply take_ge. subst n. lia.
Qed.

(** A list of distinct keys of a hash that is as long as the hash lists
    every key of the hash. *)
Lemma keys_cover (parts : gmap string PliPart) (keys : list string) :
  NoDup keys -> length keys = size parts ->
  (forall k, k ∈ keys -> is_Some (parts !! k)) ->
  forall k, is_Some (parts !! k) -> k ∈ keys.
Proof.
  intros Hnd Hlen Hdom k Hk.
  assert (keys ≡ₚ elements (dom parts)) as Hperm.
  { apply submseteq_length_Permutation.
    - apply NoDup_submseteq; [done|]. intros x Hx.
      apply elem_of_elements, elem_of_dom. by apply Hdom.
    - rewrite Hlen, <- size_dom. done. }
  rewrite Hperm. by apply elem_of_elements, elem_of_dom.
Qed.

(** X10.  With fewer parts than occurrences the quotient is 0: every occurrence
    but the last is left with an empty hash, and the last one with all
    the parts. *)
Theorem bom_fewer_parts_than_pages (tempParts : gmap string PliPart) (so : SortOrder)
    (keys0 : list string) (boms : Z) (fuel : nat) :
  NoDup keys0 -> length keys0 = size tempParts ->
  (forall k, k ∈ keys0 -> is_Some (tempParts !! k)) ->
  (2 <= fuel)%nat ->
  Z.of_nat (size tempParts) < boms ->
  (forall bomOccurrence, 1 <= bomOccurrence < boms ->
     setParts_split fuel so boms bomOccurrence tempParts keys0 ∅ = Some ∅)
  ∧ setParts_split fuel so boms boms tempParts keys0 ∅ = Some tempParts.
Proof.
  intros Hnd Hlen Hdom Hfuel Hfew.
  assert (0 < boms) as Hb by lia.
  pose proof (pass_perm (key_gt tempParts so true) (length keys0 - 1) keys0) as Hperm.
  pose proof (fun bomOccurrence =>
                setParts_split_run tempParts so keys0 boms bomOccurrence fuel ∅
                  Hlen Hfuel Hb) as Hrun.
  set (sortedKeys := (pass (key_gt tempParts so true) (length keys0 - 1) keys0).1) in *.
  destruct (page_fewer sortedKeys boms) as [Hempty Hall].
  { rewrite (Permutation_length Hperm). lia. }
  split.
  - intros occ Ho. rewrite Hrun by lia. by rewrite Hempty.
  - rewrite Hrun by lia. rewrite Hall. f_equal. apply map_eq. intros k.
    rewrite insert_all_lookup, lookup_empty. case_decide as Hk.
    + rewrite Hperm in Hk. destruct (Hdom k Hk) as [p Hp].
      unfold at_key. by rewrite Hp.
    + destruct (tempParts !! k) eqn:Hp; [|done].
      exfalso. apply Hk. rewrite Hperm. by apply (keys_cover tempParts).
Qed.

(** Two parts, for three pages. *)
Definition two_parts : gmap string PliPart :=
  <["k1" := sort_entry "b"]> (<["k2" := sort_entry "a"]> ∅).

Lemma bom_fewer_parts_than_pages_witness :
  NoDup ["k1"; "k2"] ∧ length ["k1"; "k2"] = size two_parts
  ∧ (forall k, k ∈ ["k1"; "k2"] -> is_Some (two_parts !! k))
  ∧ (2 <= 2)%nat
  ∧ Z.of_nat (size two_parts) < 3
  ∧ (forall bomOccurrence, 1 <= bomOccurrence < 3 ->
       setParts_split 2 by_colour 3 bomOccurrence two_parts ["k1"; "k2"] ∅ = Some ∅)
  ∧ setParts_split 2 by_colour 3 3 two_parts ["k1"; "k2"] ∅ = Some two_parts.
Proof.
  assert (NoDup ["k1"; "k2"]) as Hnd
    by (apply (bool_decide_unpack _); vm_compute; exact I).
  assert (length ["k1"; "k2"] = size two_parts) as Hlen by (vm_compute; reflexivity).
  assert (forall k, k ∈ ["k1"; "k2"] -> is_Some (two_parts !! k)) as Hdom.
  { intros k Hk. repeat (apply elem_of_cons in Hk as [->|Hk]; [by eexists|]).
    by apply elem_of_nil in Hk. }
  assert (Z.of_nat (size two_parts) < 3) as Hfew by (vm_compute; reflexivity).
  split; [exact Hnd|]. split; [exact Hlen|]. split; [exact Hdom|].
  split; [lia|]. split; [exact Hfew|].
  apply (bom_fewer_parts_than_pages two_parts by_colour ["k1"; "k2"] 3 2);
    [exact Hnd | exact Hlen | exact Hdom | lia | exact Hfew].
Defined.

(** ** [placeCols]: a flat row holds its parts *)

Lemma Qtrunc_floor (q : Q) : (0 <= q)%Q -> Qtrunc q = Qfloor q.
Proof.
  destruct q as [n d]. unfold Qle, Qtrunc, Qfloor. simpl. intros H.
  apply Z.quot_div_nonneg; lia.
Qed.

Lemma Qtrunc_above (q : Q) (z : Z) : (inject_Z z <= q)%Q -> 0 <= z -> z <= Qtrunc q.
Proof.
  intros Hz H0.
  assert (0 <= q)%Q as Hq.
  { eapply Qle_trans; [|exact Hz]. unfold Qle. simpl. lia. }
  rewrite Qtrunc_floor by done.
  rewrite <- (Qfloor_Z z). by apply Qfloor_resp_le.
Qed.

Lemma Qtrunc_nonneg (q : Q) : (0 <= q)%Q -> 0 <= Qtrunc q.
Proof. intros Hq. by apply (Qtrunc_above q 0). Qed.

Lemma Qtrunc_below (q : Q) : (0 <= q)%Q -> (inject_Z (Qtrunc q) <= q)%Q.
Proof. intros Hq. rewrite Qtrunc_floor by done. apply Qfloor_le. Qed.

Lemma qMaxQ_l (a b : Q) : (a <= qMaxQ a b)%Q.
Proof. unfold qMaxQ. destruct (Qlt_le_dec a b); [by apply Qlt_le_weak | apply Qle_refl]. Qed.

Lemma qMaxQ_r (a b : Q) : (b <= qMaxQ a b)%Q.
Proof. unfold qMaxQ. destruct (Qlt_le_dec a b); [apply Qle_refl | done]. Qed.

Lemma put_col_fields (x y c : Z) (p : PliPart) :
  width (put_col x y c p) = width p ∧ height (put_col x y c p) = height p
  ∧ maxMargin (put_col x y c p) = maxMargin p
  ∧ left (put_col x y c p) = x ∧ bot (put_col x y c p) = y ∧ col (put_col x y c p) = c.
Proof. by destruct p. Qed.

Section Row.
Variable botMargin : Q.

Lemma cols_loop_row (keys : list string) :
  forall (i : Z) (parts : gmap string PliPart) (w h : Z),
    NoDup keys ->
    (forall k, k ∈ keys -> is_Some (parts !! k)) ->
    (forall k, k ∈ keys -> 0 <= width (at_key parts k) ∧ 0 <= maxMargin (at_key parts k)) ->
    let '(parts', w', h') := cols_loop keys i botMargin parts w h in
    w <= w' ∧ h <= h'
    ∧ (forall k, k ∉ keys -> parts' !! k = parts !! k)
    ∧ (forall (n : nat) (k : string), keys !! n = Some k ->
         col (at_key parts' k) = i + Z.of_nat n
         ∧ bot (at_key parts' k) = Qtrunc botMargin
         ∧ w <= left (at_key parts' k)
         ∧ left (at_key parts' k) + width (at_key parts k) <= w'
         ∧ width (at_key parts' k) = width (at_key parts k)
         ∧ height (at_key parts' k) = height (at_key parts k)
         ∧ height (at_key parts k) <= h')
    ∧ (forall (n m : nat) (kn km : string),
         (n < m)%nat -> keys !! n = Some kn -> keys !! m = Some km ->
         left (at_key parts' kn) + width (at_key parts kn) <= left (at_key parts' km)).
Proof.
  induction keys as [|key rest IH]; intros i parts w h Hnd Hdom Hsize.
  - cbn [cols_loop]. repeat split; try done; lia.
  - cbn [cols_loop].
    apply NoDup_cons in Hnd as [Hkey Hnd].
    set (parts1 := alter (put_col w (Qtrunc botMargin) i) key parts).
    set (w1 := w + width (at_key parts key)).
    set (h1 := if height (at_key parts key) >? h then height (at_key parts key) else h).
    set (w2 := match rest with
               | next :: _ => w1 + Z.max (maxMargin (at_key parts key))
                                        (maxMargin (at_key parts1 next))
               | [] => w1
               end).
    assert (forall k, k ≠ key -> at_key parts1 k = at_key parts k) as Hother
      by (intros k Hk; by apply at_key_alter_ne).
    assert (at_key parts1 key = put_col w (Qtrunc botMargin) i (at_key parts key)) as Hself
      by (apply at_key_alter_in, Hdom; left).
    destruct (Hsize key ltac:(left)) as [Hwk Hmk].
    assert (h <= h1 ∧ height (at_key parts key) <= h1) as [Hh1 Hhk].
    { subst h1. destruct (Z.gtb_spec (height (at_key parts key)) h); lia. }
    assert (w1 <= w2) as Hw2.
    { subst w2. destruct rest as [|next rest']; [lia|]. lia. }
    specialize (IH (i + 1) parts1 w2 h1 Hnd).
    destruct (cols_loop rest (i + 1) botMargin parts1 w2 h1) as [[parts' w'] h'].
    destruct IH as (Hw' & Hh' & Hout & Hin & Hord).
    { intros k Hk. apply is_Some_alter. apply Hdom. by right. }
    { intros k Hk. rewrite Hother by (intros ->; done). apply Hsize. by right. }
    assert (at_key parts' key = at_key parts1 key) as Hkey'.
    { unfold at_key. by rewrite Hout. }
    destruct (put_col_fields w (Qtrunc botMargin) i (at_key parts key))
      as (Hf1 & Hf2 & _ & Hf4 & Hf5 & Hf6).
    split; [subst w1; lia|]. split; [lia|]. split; [|split].
    + intros k Hk. rewrite Hout by (intros ?; apply Hk; by right).
      apply lookup_alter_ne. intros ->. apply Hk. left.
    + intros [|n] k Hn; simpl in Hn.
      * injection Hn as <-. rewrite Hkey', Hself, Hf1, Hf2, Hf4, Hf5, Hf6.
        subst w1. repeat split; lia.
      * assert (k ≠ key) as Hne by (intros ->; apply Hkey; by eapply list_elem_of_lookup_2).
        destruct (Hin n k Hn) as (Hc & Hb & Hl & Hr & Hwd & Hht & Hhh).
        rewrite (Hother k Hne) in Hr, Hwd, Hht, Hhh.
        subst w1. repeat split; try done; lia.
    + intros [|n] [|m] kn km Hnm Hn Hm; simpl in Hn, Hm; try lia.
      * injection Hn as <-.
        destruct (Hin m km Hm) as (_ & _ & Hl & _).
        rewrite Hkey', Hself, Hf4. subst w1. lia.
      * assert (kn ≠ key) as Hne by (intros ->; apply Hkey; by eapply list_elem_of_lookup_2).
        rewrite <- (Hother kn Hne). apply (Hord n m); [lia|done..].
Qed.

Lemma cols_loop_maxMargin (keys : list string) :
  forall (i : Z) (parts : gmap string PliPart) (w h : Z) (k : string),
    maxMargin (at_key (cols_loop keys i botMargin parts w h).1.1 k)
    = maxMargin (at_key parts k).
Proof.
  induction keys as [|key rest IH]; intros i parts w h k; [done|].
  cbn [cols_loop]. rewrite IH. rewrite at_key_alter.
  case_decide as Hk; [subst k|done].
  unfold at_key. destruct (parts !! key) as [p|]; [by destruct p | done].
Qed.

End Row.

(** X11.  In the flat row of [placeCols] the size holds every part.  For
    distinct keys of the hash, widths and margins that are not negative
    and a border that is not negative: the parts stand in the order of the
    key list, part [n] in column [n], each to the right of the one before
    it; no part starts left of 0 or below 0, and none reaches beyond
    [size[0]] or above [size[1]]. *)
Theorem placeCols_holds_its_parts (cfg : PliConfig) (parts : gmap string PliPart)
    (keys : list string) :
  keys ≠ [] -> NoDup keys ->
  (forall k, k ∈ keys -> is_Some (parts !! k)) ->
  (forall k, k ∈ keys -> 0 <= width (at_key parts k) ∧ 0 <= maxMargin (at_key parts k)) ->
  (0 <= marginY cfg + thickness cfg)%Q ->
  exists parts' w h,
    placeCols cfg parts keys = Some (parts', (w, h))
    ∧ (forall k, k ∉ keys -> parts' !! k = parts !! k)
    ∧ (forall (n : nat) (k : string), keys !! n = Some k ->
         col (at_key parts' k) = Z.of_nat n
         ∧ width (at_key parts' k) = width (at_key parts k)
         ∧ height (at_key parts' k) = height (at_key parts k)
         ∧ 0 <= left (at_key parts' k)
         ∧ left (at_key parts' k) + width (at_key parts' k) <= w
         ∧ 0 <= bot (at_key parts' k)
         ∧ bot (at_key parts' k) + height (at_key parts' k) <= h)
    ∧ (forall (n m : nat) (kn km : string),
         (n < m)%nat -> keys !! n = Some kn -> keys !! m = Some km ->
         left (at_key parts' kn) + width (at_key parts' kn) <= left (at_key parts' km)).
Proof.
  intros Hne Hnd Hdom Hsize Hborder. unfold placeCols.
  destruct keys as [|key0 rest] eqn:Hkeys; [done|]. rewrite <- Hkeys in *.
  assert (head keys = Some key0) as -> by (by rewrite Hkeys).
  destruct (last keys) as [lastKey|] eqn:Hlast;
    [|apply last_None in Hlast; congruence].
  cbn [mbind option_bind].
  set (border := (marginY cfg + thickness cfg)%Q) in *.
  set (topM := qMaxQ border (inject_Z (topMargin (at_key parts key0)))).
  set (botM := qMaxQ border (inject_Z (csiMarginY (at_key parts key0)))).
  set (w0 := Qtrunc (qMaxQ (thickness cfg + marginX cfg)%Q
                           (inject_Z (maxMargin (at_key parts key0))))).
  assert (0 <= topM)%Q as Htop by (eapply Qle_trans; [exact Hborder | apply qMaxQ_l]).
  assert (0 <= botM)%Q as Hbot by (eapply Qle_trans; [exact Hborder | apply qMaxQ_l]).
  assert (0 <= maxMargin (at_key parts key0)) as Hm0
    by (apply Hsize; rewrite Hkeys; left).
  assert (0 <= w0) as Hw0.
  { apply (Qtrunc_above _ 0); [|lia].
    eapply Qle_trans; [|apply qMaxQ_r]. unfold Qle. simpl. lia. }
  pose proof (cols_loop_row botM keys 0 parts w0 0 Hnd Hdom Hsize) as Hrow.
  pose proof (cols_loop_maxMargin botM keys 0 parts w0 0) as Hmax.
  destruct (cols_loop keys 0 botM parts w0 0) as [[parts' w'] h']. cbn [fst] in Hmax.
  destruct Hrow as (Hw' & Hh' & Hout & Hin & Hord).
  set (wl := Qtrunc (qMaxQ (inject_Z (maxMargin (at_key parts' lastKey)))
                           (thickness cfg + marginX cfg)%Q)).
  assert (0 <= wl) as Hwl.
  { assert (lastKey ∈ keys) as Hl.
    { apply last_Some in Hlast as [l' ->]. apply elem_of_app. right. left. }
    apply (Qtrunc_above _ 0); [|lia].
    eapply Qle_trans; [|apply qMaxQ_l]. unfold Qle. simpl. rewrite Hmax.
    destruct (Hsize lastKey Hl). lia. }
  exists parts', (w' + wl), (Qtrunc (topM + inject_Z h' + botM)%Q).
  split; [reflexivity|]. split; [exact Hout|]. split.
  - intros n k Hn. destruct (Hin n k Hn) as (Hc & Hb & Hl & Hr & Hwd & Hht & Hhh).
    rewrite Hwd, Hht, Hb.
    assert (0 <= Qtrunc botM) by (by apply Qtrunc_nonneg).
    assert (0 <= height (at_key parts k) \/ height (at_key parts k) < 0) as [Hpos|Hneg]
      by lia.
    + repeat split; try lia.
      apply Qtrunc_above; [|lia].
      rewrite inject_Z_plus.
      apply Qle_trans with (0 + inject_Z h' + botM)%Q.
      * rewrite Qplus_0_l. rewrite (Qplus_comm (inject_Z h')).
        apply Qplus_le_compat; [by apply Qtrunc_below|].
        rewrite <- Zle_Qle. lia.
      * apply Qplus_le_compat; [|apply Qle_refl].
        apply Qplus_le_compat; [done | apply Qle_refl].
    + repeat split; try lia.
      assert (Qtrunc botM <= Qtrunc (topM + inject_Z h' + botM)%Q); [|lia].
      apply Qtrunc_above; [|lia].
      apply Qle_trans with (0 + 0 + botM)%Q.
      * rewrite !Qplus_0_l. by apply Qtrunc_below.
      * apply Qplus_le_compat; [|apply Qle_refl].
        apply Qplus_le_compat; [done|]. rewrite <- (Zle_Qle 0). lia.
  - intros n m kn km Hnm Hn Hm.
    destruct (Hin n kn Hn) as (_ & _ & _ & _ & Hwd & _). rewrite Hwd.
    by apply (Hord n m).
Qed.

Lemma placeCols_holds_its_parts_witness :
  ["a"; "b"] ≠ [] ∧ NoDup ["a"; "b"]
  ∧ (forall k, k ∈ ["a"; "b"] -> is_Some (two_small_one_wide !! k))
  ∧ (forall k, k ∈ ["a"; "b"] ->
       0 <= width (at_key two_small_one_wide k)
       ∧ 0 <= maxMargin (at_key two_small_one_wide k))
  ∧ (0 <= marginY bare + thickness bare)%Q
  ∧ exists parts' w h,
      placeCols bare two_small_one_wide ["a"; "b"] = Some (parts', (w, h))
      ∧ (forall k, k ∉ ["a"; "b"] -> parts' !! k = two_small_one_wide !! k)
      ∧ (forall (n : nat) (k : string), ["a"; "b"] !! n = Some k ->
           col (at_key parts' k) = Z.of_nat n
           ∧ width (at_key parts' k) = width (at_key two_small_one_wide k)
           ∧ height (at_key parts' k) = height (at_key two_small_one_wide k)
           ∧ 0 <= left (at_key parts' k)
           ∧ left (at_key parts' k) + width (at_key parts' k) <= w
           ∧ 0 <= bot (at_key parts' k)
           ∧ bot (at_key parts' k) + height (at_key parts' k) <= h)
      ∧ (forall (n m : nat) (kn km : string),
           (n < m)%nat -> ["a"; "b"] !! n = Some kn -> ["a"; "b"] !! m = Some km ->
           left (at_key parts' kn) + width (at_key parts' kn) <= left (at_key parts' km)).
Proof.
  assert (["a"; "b"] ≠ []) as Hne by done.
  assert (NoDup ["a"; "b"]) as Hnd
    by (apply (bool_decide_unpack _); vm_compute; exact I).
  assert (forall k, k ∈ ["a"; "b"] -> is_Some (two_small_one_wide !! k)) as Hdom.
  { intros k Hk. repeat (apply elem_of_cons in Hk as [->|Hk]; [by eexists|]).
    by apply elem_of_nil in Hk. }
  assert (forall k, k ∈ ["a"; "b"] ->
            0 <= width (at_key two_small_one_wide k)
            ∧ 0 <= maxMargin (at_key two_small_one_wide k)) as Hsize.
  { intros k Hk.
    repeat (apply elem_of_cons in Hk as [->|Hk]; [split; by vm_compute|]).
    by apply elem_of_nil in Hk. }
  assert (0 <= marginY bare + thickness bare)%Q as Hborder by (by vm_compute).
  split; [exact Hne|]. split; [exact Hnd|]. split; [exact Hdom|].
  split; [exact Hsize|]. split; [exact Hborder|].
  exact (placeCols_holds_its_parts bare two_small_one_wide ["a"; "b"]
           Hne Hnd Hdom Hsize Hborder).
Defined.

(** ** What [sizePli] returns *)

Lemma resizePli_returns_0 (sc : SizeConfig) (cd : ConstrainData) (st : PliState)
    (z : Z) (st' : PliState) (cd' : ConstrainData) :
  resizePli sc cd st = Some (z, st', cd') ->
  z = 0 ∧ sortedKeys st' = sortedKeys st.
Proof.
  unfold resizePli. intros H.
  repeat match type of H with
         | Some _ = Some _ => injection H as <- <- <-; by split
         | None = Some _ => discriminate H
         | (?m ≫= _) = Some _ =>
             let x := fresh "x" in
             destruct m as [x|]; cbn [mbind option_bind] in H
         | (let '(_, _) := ?p in _) = Some _ => destruct p
         | (match ?x with _ => _ end) = Some _ => destruct x
         end.
Qed.

(** X12.  [sizePli] returns 1 exactly when there is no part to size.  For an
    empty hash it returns 1 at once and changes nothing.  For a hash from
    which [partSize] removes every part it returns 1 as well, and leaves
    the emptied hash behind.  When [partSize] leaves a part, the return
    value is 0, whether or not every part could be placed, and
    [sortedKeys] is the key list as [sortParts] left it. *)
Theorem sizePli_returns_1_only_when_empty (fuel : nat)
    (partSize : gmap string PliPart -> gmap string PliPart) (sc : SizeConfig)
    (cd : ConstrainData) (keys0 : list string) (st : PliState) :
  (size (parts st) = 0%nat -> sizePli fuel partSize sc cd keys0 st = Some (1, st, cd))
  ∧ (size (parts st) ≠ 0%nat -> size (partSize (parts st)) = 0%nat ->
     sizePli fuel partSize sc cd keys0 st
     = Some (1, mkPliState (partSize (parts st)) (sortedKeys st) (pli_size st), cd))
  ∧ (forall (z : Z) (st' : PliState) (cd' : ConstrainData),
       size (parts st) ≠ 0%nat -> size (partSize (parts st)) ≠ 0%nat ->
       sizePli fuel partSize sc cd keys0 st = Some (z, st', cd') ->
       z = 0
       ∧ sortParts fuel (partSize (parts st)) (sortOrder sc) false keys0
         = Some (sortedKeys st')).
Proof.
  unfold sizePli. split; [|split].
  - intros Hsize. by rewrite decide_True.
  - intros Hsize Hnone. rewrite decide_False by done. by rewrite decide_True by lia.
  - intros z st' cd' Hsize Hsome. rewrite decide_False by done.
    rewrite decide_False by lia. intros H.
    assert (sortOrder (if bom (pli sc) then sc
                       else mkSizeConfig (pli sc) (pack sc) true (step sc) (sortOrder sc))
            = sortOrder sc) as Hso by (by destruct (bom (pli sc))).
    rewrite Hso in H.
    destruct (sortParts fuel (partSize (parts st)) (sortOrder sc) false keys0)
      as [keys|]; [|done].
    cbn [mbind option_bind] in H.
    apply resizePli_returns_0 in H as [-> Hkeys]. split; [done|].
    by rewrite Hkeys.
Qed.

(** The parts of [one_too_wide] after [a] and [b] were packed under the
    height 23. *)
Definition two_stacked_wide : gmap string PliPart :=
  <["a" := put 0 0 1 (rect 10 10)]>
    (<["b" := put 0 8 1 (rect 10 15)]> (<["c" := rect 10000000 10]> ∅)).

(** Two runs on the three parts of [one_too_wide]: one in which no part
    is known to [partSize], and one in which all are and the part [c]
    finds no place. *)
Lemma sizePli_returns_1_only_when_empty_witness :
  sizePli 2 (fun _ => ∅) plain (mkConstrainData PliConstrainHeight (inject_Z 23))
          ["a"; "b"; "c"] (mkPliState one_too_wide [] (0, 0))
  = Some (1, mkPliState ∅ [] (0, 0), mkConstrainData PliConstrainHeight (inject_Z 23))
  ∧ (sizePli 2 (fun _ => one_too_wide) plain
             (mkConstrainData PliConstrainHeight (inject_Z 23)) ["a"; "b"; "c"]
             (mkPliState one_too_wide [] (0, 0))
     = Some (0, mkPliState two_stacked_wide ["a"; "b"; "c"] (0, 0),
             mkConstrainData PliConstrainHeight (inject_Z 23))
     ∧ 0 = 0
     ∧ sortParts 2 one_too_wide (sortOrder plain) false ["a"; "b"; "c"]
       = Some ["a"; "b"; "c"]).
Proof.
  split.
  - apply (proj1 (proj2 (sizePli_returns_1_only_when_empty 2 (fun _ => ∅) plain
             (mkConstrainData PliConstrainHeight (inject_Z 23)) ["a"; "b"; "c"]
             (mkPliState one_too_wide [] (0, 0)))));
      vm_compute; [discriminate|reflexivity].
  - assert (sizePli 2 (fun _ => one_too_wide) plain
                    (mkConstrainData PliConstrainHeight (inject_Z 23)) ["a"; "b"; "c"]
                    (mkPliState one_too_wide [] (0, 0))
            = Some (0, mkPliState two_stacked_wide ["a"; "b"; "c"] (0, 0),
                    mkConstrainData PliConstrainHeight (inject_Z 23))) as Hrun
      by (vm_compute; reflexivity).
    split; [exact Hrun|].
    apply (proj2 (proj2 (sizePli_returns_1_only_when_empty 2 (fun _ => one_too_wide) plain
             (mkConstrainData PliConstrainHeight (inject_Z 23)) ["a"; "b"; "c"]
             (mkPliState one_too_wide [] (0, 0)))) 0
             (mkPliState two_stacked_wide ["a"; "b"; "c"] (0, 0))
             (mkConstrainData PliConstrainHeight (inject_Z 23)));
      [vm_compute; discriminate | vm_compute; discriminate | exact Hrun].
Defined.

(** ** The silhouettes read from a part image *)

Section Edges.
Variable image : AlphaImage.
Hypothesis width_positive : 0 < img_width image.

Lemma left_entry_one (y : Z) :
  exists l, left_entry image y = [l] ∧ 0 <= l < img_width image
    ∧ ((exists x, 0 <= x < img_width image ∧ opaque image y x = true) ->
       opaque image y l = true
       ∧ forall x, 0 <= x < l -> opaque image y x = false)
    ∧ ((forall x, 0 <= x < img_width image -> opaque image y x = false) ->
       l = img_width image - 1).
Proof.
  unfold left_entry.
  destruct (list_find _ _) as [[i x]|] eqn:Hfind.
  - apply list_find_Some in Hfind as (Hi & Hx & Hbefore).
    apply lookup_seqZ in Hi as [-> Hi].
    exists (0 + Z.of_nat i). split; [done|]. split; [lia|]. split.
    + intros _. split; [done|]. intros x' Hx'.
      destruct (opaque image y x') eqn:E; [|done]. exfalso.
      apply (Hbefore (Z.to_nat x') x'); [|lia|done].
      apply lookup_seqZ. lia.
    + intros Hnone. rewrite Hnone in Hx by lia. done.
  - apply list_find_None in Hfind. rewrite decide_True by lia.
    exists (img_width image - 1). split; [done|]. split; [lia|]. split; [|done].
    intros (x & Hx & Hop). exfalso.
    apply (proj1 (Forall_forall _ _) Hfind x); [|done]. apply elem_of_seqZ. lia.
Qed.

Lemma right_entry_one (y : Z) :
  exists r, right_entry image y = [r] ∧ 0 <= r < img_width image
    ∧ ((exists x, 0 <= x < img_width image ∧ opaque image y x = true) ->
       opaque image y r = true
       ∧ forall x, r < x < img_width image -> opaque image y x = false)
    ∧ ((forall x, 0 <= x < img_width image -> opaque image y x = false) ->
       r = 0).
Proof.
  unfold right_entry.
  destruct (list_find _ _) as [[i x]|] eqn:Hfind.
  - apply list_find_Some in Hfind as (Hi & Hx & Hbefore).
    assert (x ∈ seqZ 0 (img_width image)) as Hin.
    { apply elem_of_reverse. by eapply list_elem_of_lookup_2. }
    apply elem_of_seqZ in Hin.
    exists x. split; [done|]. split; [lia|]. split.
    + intros _. split; [done|]. intros x' Hx'.
      destruct (opaque image y x') eqn:E; [|done]. exfalso.
      (* x' lies before x in the reversed list *)
      assert (length (seqZ 0 (img_width image)) = Z.to_nat (img_width image)) as Hlen
        by apply length_seqZ.
      assert (reverse (seqZ 0 (img_width image))
                !! (Z.to_nat (img_width image) - 1 - Z.to_nat x')%nat = Some x') as Hx'at.
      { rewrite reverse_lookup by (rewrite Hlen; lia). rewrite Hlen.
        apply lookup_seqZ. lia. }
      assert (i = (Z.to_nat (img_width image) - 1 - Z.to_nat x)%nat) as Hi'.
      { pose proof (lookup_lt_Some _ _ _ Hi) as Hlt.
        rewrite length_reverse, Hlen in Hlt.
        rewrite reverse_lookup in Hi by (rewrite Hlen; lia).
        rewrite Hlen in Hi. apply lookup_seqZ in Hi. lia. }
      apply (Hbefore _ x' Hx'at); [lia|done].
    + intros Hnone. rewrite Hnone in Hx by lia. done.
  - apply list_find_None in Hfind.
    exists 0. split; [done|]. split; [lia|]. split; [|done].
    intros (x & Hx & Hop). exfalso.
    apply (proj1 (Forall_forall _ _) Hfind x); [|done].
    apply elem_of_reverse, elem_of_seqZ. lia.
Qed.

Lemma scan_rows (entry : Z -> list Z) (f : Z -> Z) (rows : list Z) (edge : list Z) :
  (forall y, y ∈ rows -> entry y = [f y]) ->
  foldl (fun edge y => edge ++ entry y) edge rows = edge ++ (f <$> rows).
Proof.
  revert edge. induction rows as [|y rows IH]; intros edge H; simpl.
  - by rewrite app_nil_r.
  - rewrite IH by (intros y' Hy'; apply H; by right).
    rewrite (H y) by left. by rewrite <- app_assoc.
Qed.

(** The entry of a scanline. *)
Definition left_of (y : Z) : Z := default 0 (head (left_entry image y)).
Definition right_of (y : Z) : Z := default 0 (head (right_entry image y)).

Lemma getLeftEdge_rows (edge : list Z) :
  getLeftEdge image edge = edge ++ (left_of <$> seqZ 0 (img_height image)).
Proof.
  apply scan_rows. intros y _. unfold left_of.
  destruct (left_entry_one y) as (l & -> & _). done.
Qed.

Lemma getRightEdge_rows (edge : list Z) :
  getRightEdge image edge = edge ++ (right_of <$> seqZ 0 (img_height image)).
Proof.
  apply scan_rows. intros y _. unfold right_of.
  destruct (right_entry_one y) as (r & -> & _). done.
Qed.

End Edges.

(** X13.  For an image that has a width, [getLeftEdge] and [getRightEdge]
    append one entry per scanline to the list they are given, and every
    entry is a column of the image. *)
Theorem edges_have_one_entry_per_scanline (image : AlphaImage) (edge : list Z) :
  0 < img_width image ->
  exists ls rs,
    getLeftEdge image edge = edge ++ ls
    ∧ getRightEdge image edge = edge ++ rs
    ∧ length ls = Z.to_nat (img_height image)
    ∧ length rs = Z.to_nat (img_height image)
    ∧ Forall (fun e => 0 <= e < img_width image) ls
    ∧ Forall (fun e => 0 <= e < img_width image) rs.
Proof.
  intros Hw.
  exists (left_of image <$> seqZ 0 (img_height image)),
         (right_of image <$> seqZ 0 (img_height image)).
  split; [by apply getLeftEdge_rows|]. split; [by apply getRightEdge_rows|].
  rewrite !length_fmap, length_seqZ. split; [done|]. split; [done|].
  split; apply Forall_fmap, Forall_forall; intros y _; simpl.
  - unfold left_of. destruct (left_entry_one image Hw y) as (l & -> & Hl & _). done.
  - unfold right_of. destruct (right_entry_one image Hw y) as (r & -> & Hr & _). done.
Qed.

(** A small image: three columns, two scanlines; the first scanline shows
    its middle pixel only, the second one is empty. *)
Definition dot_image : AlphaImage :=
  mkAlphaImage 3 2 (fun x y => if (x =? 1) && (y =? 0) then 255 else 0).

Lemma edges_have_one_entry_per_scanline_witness :
  0 < img_width dot_image
  ∧ exists ls rs,
      getLeftEdge dot_image [7] = [7] ++ ls
      ∧ getRightEdge dot_image [7] = [7] ++ rs
      ∧ length ls = Z.to_nat (img_height dot_image)
      ∧ length rs = Z.to_nat (img_height dot_image)
      ∧ Forall (fun e => 0 <= e < img_width dot_image) ls
      ∧ Forall (fun e => 0 <= e < img_width dot_image) rs.
Proof.
  split; [by vm_compute|].
  apply (edges_have_one_entry_per_scanline dot_image [7]). by vm_compute.
Defined.

(** X14.  The two edges of a scanline, read from lists that were empty: when
    the scanline shows a pixel, the entries are its first and its last
    pixel that show, so every pixel that shows lies between them; when it
    shows none, the left entry is the last column and the right entry is
    column 0. *)
Theorem edges_enclose_the_scanline (image : AlphaImage) (y : Z) :
  0 < img_width image -> 0 <= y < img_height image ->
  exists l r,
    getLeftEdge image [] !! Z.to_nat y = Some l
    ∧ getRightEdge image [] !! Z.to_nat y = Some r
    ∧ ((exists x, 0 <= x < img_width image ∧ opaque image y x = true) ->
       opaque image y l = true ∧ opaque image y r = true
       ∧ forall x, 0 <= x < img_width image -> opaque image y x = true -> l <= x <= r)
    ∧ ((forall x, 0 <= x < img_width image -> opaque image y x = false) ->
       l = img_width image - 1 ∧ r = 0).
Proof.
  intros Hw Hy.
  exists (left_of image y), (right_of image y).
  rewrite getLeftEdge_rows, getRightEdge_rows by done. cbn [app].
  rewrite !list_lookup_fmap, (lookup_seqZ_lt 0 (img_height image)) by lia.
  replace (0 + Z.of_nat (Z.to_nat y)) with y by lia. cbn [fmap option_fmap option_map].
  split; [done|]. split; [done|].
  unfold left_of, right_of.
  destruct (left_entry_one image Hw y) as (l & -> & Hl & Hsome & Hnone).
  destruct (right_entry_one image Hw y) as (r & -> & Hr & Hsome' & Hnone').
  cbn [head default]. split.
  - intros Hex. destruct (Hsome Hex) as [Hlo Hlbefore].
    destruct (Hsome' Hex) as [Hro Hrafter].
    split; [done|]. split; [done|]. intros x Hx Hop. split.
    + destruct (decide (l <= x)); [done|]. rewrite Hlbefore in Hop by lia. done.
    + destruct (decide (x <= r)); [done|]. rewrite Hrafter in Hop by lia. done.
  - intros Hno. split; [by apply Hnone | by apply Hnone'].
Qed.

Lemma edges_enclose_the_scanline_witness :
  0 < img_width dot_image ∧ 0 <= 0 < img_height dot_image
  ∧ exists l r,
      getLeftEdge dot_image [] !! Z.to_nat 0 = Some l
      ∧ getRightEdge dot_image [] !! Z.to_nat 0 = Some r
      ∧ ((exists x, 0 <= x < img_width dot_image ∧ opaque dot_image 0 x = true) ->
         opaque dot_image 0 l = true ∧ opaque dot_image 0 r = true
         ∧ forall x, 0 <= x < img_width dot_image -> opaque dot_image 0 x = true ->
                     l <= x <= r)
      ∧ ((forall x, 0 <= x < img_width dot_image -> opaque dot_image 0 x = false) ->
         l = img_width dot_image - 1 ∧ r = 0).
Proof.
  split; [by vm_compute|]. split; [by vm_compute|].
  apply (edges_enclose_the_scanline dot_image 0); by vm_compute.
Defined.

(** * Part VI: further properties of the meta-command leaves *)

Section MoreLeafFacts.
Context `{E : Ext}.
Variable reportErrors : bool.

Lemma wr_rd {A : Type} (s : slots A) (b : bool) : wr s b (rd s b) = s.
Proof. by destruct s, b. Qed.

Lemma set_same {T : Type} (m : LeafMeta T) :
  set_here (set_value m (value m)) (here_of m) = m.
Proof.
  destruct m as [pre pu gl v h]. unfold set_here, set_value, value, here_of. simpl.
  by rewrite !wr_rd.
Qed.

(** ** [IntMeta::parse]: the three ways it ends *)

(** X15.  [IntMeta::parse] ends in one of three ways.  The token at [index] is
    the last one and a number within the range: the result is the leaf's
    own code, and the number and the location are stored in the active
    slot.  The token is the last one and a number outside the range: the
    result is the range error and the leaf is as before.  The token is
    the last one and not a number: the result is the failure code, with
    the leaf as before.  A run that returns has gone one of these ways,
    or has failed, leaf unchanged, because [index] is not the last
    position. *)
Theorem IntMeta_parse_ends_in_three_ways (lo hi : Z) (rc : Rc) (argv : list string)
    (index : Z) (here : Where) (m : LeafMeta Z) :
  (forall s v,
     index = size_of argv - 1 -> tok argv index = Done s -> toInt s = Some v ->
     lo <= v <= hi ->
     IntMeta_parse reportErrors lo hi rc argv index here m
     = Done (rc, set_here (set_value m v) here))
  ∧ (forall s v,
       index = size_of argv - 1 -> tok argv index = Done s -> toInt s = Some v ->
       v < lo ∨ hi < v ->
       IntMeta_parse reportErrors lo hi rc argv index here m = Done (RangeErrorRc, m))
  ∧ (forall s,
       index = size_of argv - 1 -> tok argv index = Done s -> toInt s = None ->
       IntMeta_parse reportErrors lo hi rc argv index here m = Done (FailureRc, m))
  ∧ (forall r m',
       IntMeta_parse reportErrors lo hi rc argv index here m = Done (r, m') ->
       (exists s v, index = size_of argv - 1 ∧ tok argv index = Done s ∧ toInt s = Some v
                    ∧ lo <= v <= hi ∧ r = rc ∧ m' = set_here (set_value m v) here)
       ∨ (exists s v, index = size_of argv - 1 ∧ tok argv index = Done s
                      ∧ toInt s = Some v
                      ∧ (v < lo ∨ hi < v) ∧ r = RangeErrorRc ∧ m' = m)
       ∨ ((index ≠ size_of argv - 1
           ∨ exists s, tok argv index = Done s ∧ toInt s = None)
          ∧ r = FailureRc ∧ m' = m)).
Proof.
  unfold IntMeta_parse. split; [|split; [|split]].
  - intros s v Hi Hs Hv Hrange. rewrite decide_True by done. rewrite Hs.
    cbn [mbind outcome_bind]. rewrite Hv.
    by replace ((v <? lo) || (v >? hi)) with false by lia.
  - intros s v Hi Hs Hv Hrange. rewrite decide_True by done. rewrite Hs.
    cbn [mbind outcome_bind]. rewrite Hv.
    by replace ((v <? lo) || (v >? hi)) with true by lia.
  - intros s Hi Hs Hv. rewrite decide_True by done. rewrite Hs.
    cbn [mbind outcome_bind]. rewrite Hv. cbn [mbind outcome_bind mret outcome_ret].
    unfold report. destruct reportErrors; [by rewrite Hs|done].
  - intros r m' H.
    destruct (decide (index = size_of argv - 1)) as [Hi|Hi].
    + destruct (tok argv index) as [s|i] eqn:Hs; [|done]. cbn [mbind outcome_bind] in H.
      destruct (toInt s) as [v|] eqn:Hv.
      * destruct ((v <? lo) || (v >? hi)) eqn:Hrange.
        -- injection H as <- <-. right. left. exists s, v.
           split; [done|]. split; [done|]. split; [done|]. split; [|done].
           destruct (Z.ltb_spec v lo), (Z.gtb_spec v hi); simpl in Hrange; try done; lia.
        -- injection H as <- <-. left. exists s, v.
           split; [done|]. split; [done|]. split; [done|]. split; [|done].
           destruct (Z.ltb_spec v lo), (Z.gtb_spec v hi); simpl in Hrange; try done; lia.
      * right. right. split; [right; by exists s|].
        unfold report in H. destruct reportErrors.
        -- rewrite Hs in H. by injection H as <- <-.
        -- by injection H as <- <-.
    + right. right. split; [by left|].
      cbn [mbind outcome_bind mret outcome_ret] in H.
      unfold report in H. destruct reportErrors.
      * destruct (tok argv index); [|done]. by injection H as <- <-.
      * by injection H as <- <-.
Qed.

(** ** Leaves whose formatted value is read back *)

(** X16.  [BoolMeta]: the formatted directive ends in a single word, and parsing
    that word at the leaf's own location gives the leaf back unchanged. *)
Theorem BoolMeta_reads_its_format (local glob : bool) (m : LeafMeta bool) :
  exists word,
    BoolMeta_format local glob m = LeafMeta_format local glob word m
    ∧ BoolMeta_parse reportErrors [word] 0 (here_of m) m = Done (OkRc, m).
Proof.
  exists (if value m then "TRUE" else "FALSE"). split; [done|].
  destruct (value m) eqn:Hv.
  - transitivity (Done (A := Rc * LeafMeta bool)
                       (OkRc, set_here (set_value m true) (here_of m))); [done|].
    by rewrite <- Hv, set_same.
  - transitivity (Done (A := Rc * LeafMeta bool)
                       (OkRc, set_here (set_value m false) (here_of m))); [done|].
    by rewrite <- Hv, set_same.
Qed.

(** X17.  [AllocMeta]: the same round trip; and a directive tail that is not
    exactly one of the two words fails and leaves the leaf as it was. *)
Theorem AllocMeta_reads_its_format (local glob : bool) (m : LeafMeta AllocEnc) :
  (exists word,
     AllocMeta_format local glob m = LeafMeta_format local glob word m
     ∧ AllocMeta_parse reportErrors [word] 0 (here_of m) m = Done (OkRc, m))
  ∧ (forall argv index here r m',
       AllocMeta_parse reportErrors argv index here m = Done (r, m') ->
       (r = OkRc ∧ index = size_of argv - 1
        ∧ ((tok argv index = Done "HORIZONTAL" ∧ value m' = Horizontal)
           ∨ (tok argv index = Done "VERTICAL" ∧ value m' = Vertical))
        ∧ here_of m' = here)
       ∨ (r = FailureRc ∧ m' = m)).
Proof.
  split.
  - exists (match value m with Horizontal => "HORIZONTAL" | Vertical => "VERTICAL" end).
    split; [done|].
    destruct (value m) eqn:Hv.
    + transitivity (Done (A := Rc * LeafMeta AllocEnc)
                         (OkRc, set_here (set_value m Horizontal) (here_of m))); [done|].
      by rewrite <- Hv, set_same.
    + transitivity (Done (A := Rc * LeafMeta AllocEnc)
                         (OkRc, set_here (set_value m Vertical) (here_of m))); [done|].
      by rewrite <- Hv, set_same.
  - intros argv index here r m'. unfold AllocMeta_parse. intros H.
    destruct (decide (size_of argv - index = 1)) as [Hn|Hn].
    + destruct (tok argv index) as [s|i] eqn:Hs; [|done]. cbn [mbind outcome_bind] in H.
      destruct (one_of s ["HORIZONTAL"; "VERTICAL"]) eqn:Hw.
      * injection H as <- <-. left. split; [done|]. split; [lia|].
        rewrite value_set_here, value_set_value, here_set_here. split; [|done].
        apply bool_decide_eq_true_1 in Hw.
        apply elem_of_cons in Hw as [->|Hw]; [by left|].
        apply elem_of_cons in Hw as [->|Hw]; [by right|]. by apply elem_of_nil in Hw.
      * right. unfold report in H. destruct reportErrors.
        -- rewrite Hs in H. by injection H as <- <-.
        -- by injection H as <- <-.
    + right. cbn [mbind outcome_bind mret outcome_ret] in H.
      unfold report in H. destruct reportErrors.
      * destruct (tok argv index); [|done]. by injection H as <- <-.
      * by injection H as <- <-.
Qed.

(** X18.  [PageOrientationMeta]: PORTRAIT and LANDSCAPE are read back as they
    were formatted; the third value of the enumeration,
    [InvalidOrientation], is formatted as LANDSCAPE and so comes back as
    [Landscape]. *)
Theorem PageOrientationMeta_reads_its_format (local glob : bool)
    (m : LeafMeta OrientationEnc) :
  exists word m',
    PageOrientationMeta_format local glob m = LeafMeta_format local glob word m
    ∧ PageOrientationMeta_parse reportErrors [word] 0 (here_of m) m
      = Done (PageOrientationRc, m')
    ∧ value m' = (match value m with Portrait => Portrait | _ => Landscape end)
    ∧ (value m ≠ InvalidOrientation -> m' = m).
Proof.
  exists (match value m with Portrait => "PORTRAIT" | _ => "LANDSCAPE" end).
  exists (set_here (set_value m (match value m with
                                 | Portrait => Portrait | _ => Landscape end))
                   (here_of m)).
  split; [done|]. split; [by destruct (value m)|].
  rewrite value_set_here, value_set_value. split; [done|].
  intros Hne.
  replace (match value m with Portrait => Portrait | _ => Landscape end) with (value m)
    by (by destruct (value m)).
  apply set_same.
Qed.

(** ** [ConstrainMeta::parse] *)

(** X19.  [ConstrainMeta::parse] accepts AREA or SQUARE alone and WIDTH, HEIGHT
    or COLS followed by a number; it then stores the type and (for the
    second form) the number, the location, and clears [_default].  A run
    that returns has accepted one of the two forms, or has failed and
    left the leaf, the location and [_default] as they were. *)
Theorem ConstrainMeta_parse_all_or_nothing (argv : list string) (index : Z)
    (here : Where) (cm : ConstrainMeta) :
  (forall a,
     size_of argv - index = 1 -> tok argv index = Done a ->
     a = "AREA" ∨ a = "SQUARE" ->
     ConstrainMeta_parse argv index here cm
     = Done (OkRc,
             mkConstrainMeta
               (set_here
                  (set_value (cm_leaf cm)
                     (mkConstrainValue (tokenMap_at a)
                                       (cv_constraint (value (cm_leaf cm)))))
                  here)
               false))
  ∧ (forall a b f,
       size_of argv - index = 2 -> tok argv index = Done a ->
       tok argv (index + 1) = Done b ->
       a = "WIDTH" ∨ a = "HEIGHT" ∨ a = "COLS" -> toFloat b = Some f ->
       ConstrainMeta_parse argv index here cm
       = Done (OkRc,
               mkConstrainMeta
                 (set_here (set_value (cm_leaf cm) (mkConstrainValue (tokenMap_at a) f))
                           here)
                 false))
  ∧ (forall r cm',
       ConstrainMeta_parse argv index here cm = Done (r, cm') ->
       (r = OkRc ∧ _default cm' = false ∧ here_of (cm_leaf cm') = here
        ∧ ((size_of argv - index = 1
            ∧ exists a, tok argv index = Done a ∧ (a = "AREA" ∨ a = "SQUARE")
                ∧ value (cm_leaf cm')
                  = mkConstrainValue (tokenMap_at a)
                                     (cv_constraint (value (cm_leaf cm))))
           ∨ (size_of argv - index = 2
              ∧ exists a b f, tok argv index = Done a ∧ tok argv (index + 1) = Done b
                  ∧ (a = "WIDTH" ∨ a = "HEIGHT" ∨ a = "COLS") ∧ toFloat b = Some f
                  ∧ value (cm_leaf cm') = mkConstrainValue (tokenMap_at a) f)))
       ∨ (r = FailureRc ∧ cm' = cm)).
Proof.
  unfold ConstrainMeta_parse. split; [|split].
  - intros a H1 Ha Hw. rewrite decide_True by done. rewrite Ha.
    cbn [mbind outcome_bind].
    replace (one_of a ["AREA"; "SQUARE"]) with true; [done|].
    symmetry. apply bool_decide_eq_true_2. destruct Hw as [-> | ->]; set_solver.
  - intros a b f H2 Ha Hb Hw Hf. rewrite decide_False by lia.
    rewrite decide_True by done. rewrite Hb. cbn [mbind outcome_bind].
    rewrite Hf, Ha. cbn [mbind outcome_bind].
    replace (one_of a ["WIDTH"; "HEIGHT"; "COLS"]) with true; [done|].
    symmetry. apply bool_decide_eq_true_2. destruct Hw as [-> | [-> | ->]]; set_solver.
  - intros r cm' H.
    assert (mkConstrainMeta (cm_leaf cm) (_default cm) = cm) as Hcm by (by destruct cm).
    destruct (decide (size_of argv - index = 1)) as [H1|H1];
      [|destruct (decide (size_of argv - index = 2)) as [H2|H2]].
    + destruct (tok argv index) as [a|i] eqn:Ha; [|done]. cbn [mbind outcome_bind] in H.
      destruct (one_of a ["AREA"; "SQUARE"]) eqn:Hw.
      * cbn in H. injection H as <- <-. left.
        split; [done|]. split; [done|]. cbn [cm_leaf]. rewrite here_set_here.
        split; [done|]. left. split; [done|]. exists a. split; [done|].
        rewrite value_set_here, value_set_value. split; [|done].
        apply bool_decide_eq_true_1 in Hw.
        apply elem_of_cons in Hw as [->|Hw]; [by left|].
        apply elem_of_cons in Hw as [->|Hw]; [by right|]. by apply elem_of_nil in Hw.
      * cbn in H. injection H as <- <-. by right.
    + destruct (tok argv (index + 1)) as [b|i] eqn:Hb; [|done].
      cbn [mbind outcome_bind] in H.
      destruct (toFloat b) as [f|] eqn:Hf.
      * destruct (tok argv index) as [a|i] eqn:Ha; [|done]. cbn [mbind outcome_bind] in H.
        destruct (one_of a ["WIDTH"; "HEIGHT"; "COLS"]) eqn:Hw.
        -- cbn in H. injection H as <- <-. left.
           split; [done|]. split; [done|]. cbn [cm_leaf]. rewrite here_set_here.
           split; [done|]. right. split; [done|]. exists a, b, f.
           split; [done|]. split; [done|].
           rewrite value_set_here, value_set_value. split; [|done].
           apply bool_decide_eq_true_1 in Hw.
           apply elem_of_cons in Hw as [->|Hw]; [by left|].
           apply elem_of_cons in Hw as [->|Hw]; [right; by left|].
           apply elem_of_cons in Hw as [->|Hw]; [right; by right|].
           by apply elem_of_nil in Hw.
        -- cbn in H. injection H as <- <-. by right.
      * cbn in H. injection H as <- <-. by right.
    + cbn in H. injection H as <- <-. by right.
Qed.

(** ** [BackgroundMeta::parse] and [PlacementMeta::parse] *)

(** X20.  [BackgroundMeta::parse] ends with the failure code or with [OkRc];
    after a failure the leaf is as it was, after a success the location
    of the active slot is the one given, and the slot that is not active
    is untouched either way. *)
Theorem BackgroundMeta_parse_all_or_nothing (argv : list string) (index : Z)
    (here : Where) (m m' : LeafMeta BackgroundData) (r : Rc) :
  BackgroundMeta_parse argv index here m = Done (r, m') ->
  ((r = FailureRc ∧ m' = m) ∨ (r = OkRc ∧ here_of m' = here))
  ∧ pushed m' = pushed m
  ∧ rd (_value m') (negb (pushed m)) = rd (_value m) (negb (pushed m))
  ∧ rd (_here m') (negb (pushed m)) = rd (_here m) (negb (pushed m)).
Proof.
  intros H. split.
  - assert (r = FailureRc ∨ r = OkRc) as [->| ->].
    { revert H. unfold BackgroundMeta_parse. intros H. parser_inv; auto. }
    + left. split; [done|]. by eapply BackgroundMeta_parse_atomic.
    + right. split; [done|]. by eapply BackgroundMeta_parse_sets_here.
  - apply BackgroundMeta_parse_frame in H. unfold frame in H. tauto.
Qed.

End MoreLeafFacts.

(** ** The placement table is read back *)

(** The directive words of a row of the table, with a word for what the
    placement is relative to. *)
Definition row_words (row : string * string * string) (rel : string) : list string :=
  let '(p, j, prep) := row in
  [p] ++ (if decide (j = "") then [] else [j]) ++ [rel; prep].

Lemma relativeTos_words (rel : string) :
  rel ∈ relativeTos ->
  one_of rel relativeTos = true
  ∧ one_of rel ["LEFT"; "CENTER"; "RIGHT"] = false
  ∧ one_of rel ["TOP"; "CENTER"; "BOTTOM"] = false.
Proof.
  intros Hrel. split; [by apply bool_decide_eq_true_2|].
  unfold relativeTos in Hrel.
  repeat (apply elem_of_cons in Hrel as [->|Hrel]; [split; vm_compute; reflexivity|]).
  by apply elem_of_nil in Hrel.
Qed.

(** As [eval_closed], with the tests on a word that is not known left to
    three facts about it. *)
Ltac eval_row H1 H2 H3 :=
  repeat first
    [ progress cbn [mbind outcome_bind mret outcome_ret fst snd]
    | rewrite H1 | rewrite H2 | rewrite H3
    | match goal with
      | |- context [tok ?l ?i] =>
          let v := eval vm_compute in (tok l i) in change (tok l i) with v
      | |- context [one_of (String ?c ?s) ?l] =>
          let v := eval vm_compute in (one_of (String c s) l) in
          change (one_of (String c s) l) with v
      | |- context [find_spot ?r ?i ?p ?j ?q] =>
          let v := eval vm_compute in (find_spot r i p j q) in
          change (find_spot r i p j q) with v
      | |- context [decide ?P] =>
          first [ rewrite (decide_True (P := P)) by (repeat split; vm_compute; reflexivity)
                | rewrite (decide_False (P := P))
                    by (vm_compute; intuition discriminate) ]
      end ].

Section Table.
Context `{E : Ext}.

Lemma placement_row_parsed (i : nat) (row : string * string * string) (rel : string)
    (here : Where) (m : LeafMeta PlacementData) :
  placementOptions !! i = Some row -> rel ∈ relativeTos ->
  PlacementMeta_parse (row_words row rel) 0 here m
  = Done (OkRc,
          set_here (set_offsets (PlacementMeta_setValue (Z.of_nat i) (tokenMap_at rel) m)
                                (fzero, fzero)) here).
Proof.
  intros Hrow Hrel.
  destruct (relativeTos_words rel Hrel) as (H1 & H2 & H3).
  do 25 (destruct i as [|i];
    [injection Hrow as <-;
     unfold row_words, PlacementMeta_parse, placement_shape, placement_tail;
     cbn [app]; eval_row H1 H2 H3; reflexivity|]).
  done.
Qed.

Lemma value_after_setValue (i relTo : Z) (o : float * float) (here : Where)
    (m : LeafMeta PlacementData) :
  value (set_here (set_offsets (PlacementMeta_setValue i relTo m) o) here)
  = mkPlacementData (decode_row i).1.1 (decode_row i).1.2 relTo (decode_row i).2 i o.
Proof.
  unfold PlacementMeta_setValue. destruct (decode_row i) as [[p j] pr].
  destruct m as [pre pu gl [v0 v1] [h0 h1]]. by destruct pu.
Qed.

(** The enumeration codes of [metatypes.h]. *)
Definition PlacementEnc_code (p : PlacementEnc) : Z :=
  match p with
  | TopLeft => 0 | Top => 1 | TopRight => 2 | Right => 3 | BottomRight => 4
  | Bottom => 5 | BottomLeft => 6 | Left => 7 | Center => 8
  end.

Definition PrepositionEnc_code (p : PrepositionEnc) : Z :=
  match p with Inside => 0 | Outside => 1 end.

(** X21.  Every row of the placement table can be written as a directive and is
    read back: the words of row [i], with any of the relative-to words,
    are accepted; the zone stored is [i]; the placement and the
    preposition stored are the ones [tokenMap] has for the row's words,
    and so is the justification when the row has one ([Center]
    otherwise); the relative-to type is the one [tokenMap] has for its
    word, the offsets are 0 and the location is the one given. *)
Theorem placement_table_is_read_back (i : nat) (p j prep rel : string)
    (here : Where) (m : LeafMeta PlacementData) :
  placementOptions !! i = Some (p, j, prep) -> rel ∈ relativeTos ->
  exists m',
    PlacementMeta_parse (row_words (p, j, prep) rel) 0 here m = Done (OkRc, m')
    ∧ rectPlacement (value m') = Z.of_nat i
    ∧ PlacementEnc_code (placement (value m')) = tokenMap_at p
    ∧ PlacementEnc_code (justification (value m'))
      = (if decide (j = "") then PlacementEnc_code Center else tokenMap_at j)
    ∧ PrepositionEnc_code (preposition (value m')) = tokenMap_at prep
    ∧ relativeTo (value m') = tokenMap_at rel
    ∧ offsets (value m') = (fzero, fzero)
    ∧ here_of m' = here.
Proof.
  intros Hrow Hrel. eexists. split; [by apply placement_row_parsed|].
  rewrite value_after_setValue, here_set_here.
  cbn [rectPlacement placement justification preposition relativeTo offsets].
  split; [done|].
  do 25 (destruct i as [|i];
    [injection Hrow as <- <- <-; vm_compute; by repeat split|]).
  done.
Qed.

End Table.

Lemma placement_table_is_read_back_witness :
  placementOptions !! 1%nat = Some ("TOP", "LEFT", "OUTSIDE")
  ∧ "PAGE" ∈ relativeTos
  ∧ exists m',
      PlacementMeta_parse (E := Decimal.ext)
        (row_words ("TOP", "LEFT", "OUTSIDE") "PAGE") 0 here2 placement_leaf
      = Done (OkRc, m')
      ∧ rectPlacement (value m') = Z.of_nat 1
      ∧ PlacementEnc_code (placement (value m')) = tokenMap_at "TOP"
      ∧ PlacementEnc_code (justification (value m'))
        = (if decide ("LEFT" = "") then PlacementEnc_code Center else tokenMap_at "LEFT")
      ∧ PrepositionEnc_code (preposition (value m')) = tokenMap_at "OUTSIDE"
      ∧ relativeTo (value m') = tokenMap_at "PAGE"
      ∧ offsets (value m') = (fzero, fzero)
      ∧ here_of m' = here2.
Proof.
  assert ("PAGE" ∈ relativeTos) as Hrel by (apply (bool_decide_unpack _); vm_compute; exact I).
  split; [reflexivity|]. split; [exact Hrel|].
  exact (placement_table_is_read_back (E := Decimal.ext) 1 "TOP" "LEFT" "OUTSIDE" "PAGE"
           here2 placement_leaf eq_refl Hrel).
Defined.

(** ** [BranchMeta::parse]: what a directive reaches *)

Section Branches.
Context `{E : Ext}.
Variable reportErrors : bool.

Lemma on_child_none {N : Type} (sel : string -> bool) (run : N -> outcome (Rc * N))
    (kids : list (string * N)) :
  (forall k, k ∈ kids.*1 -> sel k = false) -> on_child sel run kids = None.
Proof.
  induction kids as [|[k c] kids IH]; intros Hsel; [done|].
  cbn [on_child]. rewrite (Hsel k) by (simpl; left).
  rewrite IH; [done|]. intros k' Hk'. apply Hsel. simpl. by right.
Qed.

(** X22.  A directive that has run out of words, or whose last word is no
    keyword of the branch, is a syntax error: the result is the failure
    code and the branch with everything below it is as it was. *)
Theorem BranchMeta_parse_rejects_unknown_word (p g : bool)
    (kids : list (string * Node)) (argv : list string) (index : Z) (here : Where) :
  size_of argv <= index
  ∨ (index = size_of argv - 1
     ∧ exists a, tok argv index = Done a ∧ a ∉ kids.*1) ->
  BranchMeta_parse reportErrors (NBranch p g kids) argv index here
  = Done (FailureRc, NBranch p g kids).
Proof.
  unfold BranchMeta_parse. cbn [Node_parse mark_flags].
  intros [Hend|(Hlast & a & Ha & Hkey)].
  - by rewrite decide_False by lia.
  - rewrite decide_True by lia. rewrite Ha. cbn [mbind outcome_bind].
    rewrite on_child_none.
    + by rewrite decide_False by lia.
    + intros k Hk. apply bool_decide_eq_false. by intros ->.
Qed.

(** X23.  A directive whose word at [index] is a keyword of the branch reaches
    the entry of that keyword and no other: the branch keeps its flags
    and all other entries, whatever the result. *)
Theorem BranchMeta_parse_reaches_one_entry (p g : bool)
    (pre post : list (string * Node)) (K : string) (c : Node)
    (argv : list string) (index : Z) (here : Where) (r : Rc) (n' : Node) :
  K ∉ pre.*1 -> tok argv index = Done K ->
  BranchMeta_parse reportErrors (NBranch p g (pre ++ (K, c) :: post)) argv index here
  = Done (r, n') ->
  exists c', n' = NBranch p g (pre ++ (K, c') :: post).
Proof.
  intros Hpre Ht. unfold BranchMeta_parse.
  assert (index < size_of argv) as Hi.
  { unfold tok in Ht. destruct (decide (0 <= index)); [|done].
    destruct (argv !! Z.to_nat index) eqn:Hl; [|done].
    apply lookup_lt_Some in Hl. unfold size_of. lia. }
  rewrite Node_parse_exact by done. intros H.
  apply bind_Done in H as ([rc c'] & _ & H). injection H as <- <-. by exists c'.
Qed.

(** X24.  A scope token with nothing after it: the directive [K LOCAL] fails,
    and the entry of [K] has its [pushed] flag set all the same. *)
Theorem BranchMeta_parse_scope_without_value (p g : bool)
    (pre post : list (string * Node)) (K : string) (c : Node)
    (argv : list string) (index : Z) (here : Where) :
  K ∉ pre.*1 -> tok argv index = Done K -> tok argv (index + 1) = Done "LOCAL" ->
  size_of argv = index + 2 ->
  BranchMeta_parse reportErrors (NBranch p g (pre ++ (K, c) :: post)) argv index here
  = Done (FailureRc, NBranch p g (pre ++ (K, mark_node SetPushed c) :: post)).
Proof.
  intros Hpre Ht Hl Hsize. unfold BranchMeta_parse.
  rewrite Node_parse_exact by (done || lia).
  unfold scope_token. rewrite decide_True by lia. rewrite Hl.
  cbn [mbind outcome_bind]. destruct (decide ("LOCAL" = "LOCAL")); [|done].
  cbn [mbind outcome_bind mret outcome_ret].
  destruct (decide (size_of argv - index > 1 ∧ index + 2 >= size_of argv)) as [_|Hn];
    [done | exfalso; apply Hn; lia].
Qed.

End Branches.

Lemma BranchMeta_parse_rejects_unknown_word_witness :
  (size_of ["COLOR"] <= 0
   ∨ (0 = size_of ["COLOR"] - 1
      ∧ exists a, tok ["COLOR"] 0 = Done a ∧ a ∉ (sub_entry ++ [("SCALE", NLeaf scale_leaf)]).*1))
  ∧ BranchMeta_parse (E := Decimal.ext) false scale_tree ["COLOR"] 0 here2
    = Done (FailureRc, scale_tree).
Proof.
  assert (size_of ["COLOR"] <= 0
          ∨ (0 = size_of ["COLOR"] - 1
             ∧ exists a, tok ["COLOR"] 0 = Done a
                 ∧ a ∉ (sub_entry ++ [("SCALE", NLeaf scale_leaf)]).*1)) as H.
  { right. split; [reflexivity|]. exists "COLOR". split; [reflexivity|].
    apply (bool_decide_unpack _). vm_compute. exact I. }
  split; [exact H|].
  exact (BranchMeta_parse_rejects_unknown_word (E := Decimal.ext) false false false
           (sub_entry ++ [("SCALE", NLeaf scale_leaf)]) ["COLOR"] 0 here2 H).
Defined.

Lemma BranchMeta_parse_reaches_one_entry_witness :
  ("SCALE" ∉ sub_entry.*1)
  ∧ tok ["SCALE"; "5"] 0 = Done "SCALE"
  ∧ exists r n',
      BranchMeta_parse (E := Decimal.ext) false
        (NBranch false false (sub_entry ++ ("SCALE", NLeaf scale_leaf) :: []))
        ["SCALE"; "5"] 0 here2 = Done (r, n')
      ∧ exists c', n' = NBranch false false (sub_entry ++ ("SCALE", c') :: []).
Proof.
  assert ("SCALE" ∉ sub_entry.*1) as Hn
    by (apply (bool_decide_unpack _); vm_compute; exact I).
  split; [exact Hn|]. split; [reflexivity|].
  eexists _, _. split; [reflexivity|].
  eapply (BranchMeta_parse_reaches_one_entry (E := Decimal.ext) false false false
            sub_entry [] "SCALE" (NLeaf scale_leaf) ["SCALE"; "5"] 0 here2);
    [exact Hn | reflexivity | reflexivity].
Defined.

Lemma BranchMeta_parse_scope_without_value_witness :
  ("SCALE" ∉ sub_entry.*1)
  ∧ tok ["SCALE"; "LOCAL"] 0 = Done "SCALE"
  ∧ tok ["SCALE"; "LOCAL"] (0 + 1) = Done "LOCAL"
  ∧ size_of ["SCALE"; "LOCAL"] = 0 + 2
  ∧ BranchMeta_parse (E := Decimal.ext) false
      (NBranch false false (sub_entry ++ ("SCALE", NLeaf scale_leaf) :: []))
      ["SCALE"; "LOCAL"] 0 here2
    = Done (FailureRc,
            NBranch false false
              (sub_entry ++ ("SCALE", mark_node SetPushed (NLeaf scale_leaf)) :: [])).
Proof.
  assert ("SCALE" ∉ sub_entry.*1) as Hn
    by (apply (bool_decide_unpack _); vm_compute; exact I).
  split; [exact Hn|]. split; [reflexivity|]. split; [reflexivity|]. split; [reflexivity|].
  apply (BranchMeta_parse_scope_without_value (E := Decimal.ext) false false false
           sub_entry [] "SCALE" (NLeaf scale_leaf) ["SCALE"; "LOCAL"] 0 here2);
    [exact Hn | reflexivity | reflexivity | reflexivity].
Defined.

(** ** The OFFSET form of a placement directive *)

Section Offset.
Context `{E : Ext}.

(** X25.  [OFFSET x y] moves a placement without changing it: the two numbers
    become the offsets of the active slot and its location is set; the
    zone, the placement words and the relative-to type stay. *)
Theorem PlacementMeta_offset_keeps_the_zone (argv : list string) (index : Z)
    (x y : string) (a b : float) (here : Where) (m : LeafMeta PlacementData) :
  tok argv index = Done "OFFSET" ->
  tok argv (index + 1) = Done x -> tok argv (index + 2) = Done y ->
  size_of argv = index + 3 ->
  toFloat x = Some a -> toFloat y = Some b ->
  exists m',
    PlacementMeta_parse argv index here m = Done (OkRc, m')
    ∧ offsets (value m') = (a, b)
    ∧ rectPlacement (value m') = rectPlacement (value m)
    ∧ placement (value m') = placement (value m)
    ∧ justification (value m') = justification (value m)
    ∧ preposition (value m') = preposition (value m)
    ∧ relativeTo (value m') = relativeTo (value m)
    ∧ here_of m' = here.
Proof.
  intros H0 Hx Hy Hsize Ha Hb.
  exists (set_here (set_offsets m (a, b)) here). split.
  - unfold PlacementMeta_parse. rewrite H0. cbn [mbind outcome_bind].
    rewrite decide_True by done. rewrite decide_True by lia.
    rewrite Hx. replace (index + 1 + 1) with (index + 2) by lia. rewrite Hy.
    cbn [mbind outcome_bind]. by rewrite Ha, Hb.
  - rewrite here_set_here, value_set_here. unfold set_offsets.
    rewrite value_set_value. by repeat split.
Qed.

End Offset.

Lemma PlacementMeta_offset_keeps_the_zone_witness :
  tok ["OFFSET"; "0.1"; "0.2"] 0 = Done "OFFSET"
  ∧ tok ["OFFSET"; "0.1"; "0.2"] (0 + 1) = Done "0.1"
  ∧ tok ["OFFSET"; "0.1"; "0.2"] (0 + 2) = Done "0.2"
  ∧ size_of ["OFFSET"; "0.1"; "0.2"] = 0 + 3
  ∧ toFloat (Ext := Decimal.ext) "0.1" = Some (Decimal.mkDec 1 1)
  ∧ toFloat (Ext := Decimal.ext) "0.2" = Some (Decimal.mkDec 2 1)
  ∧ exists m',
      PlacementMeta_parse (E := Decimal.ext) ["OFFSET"; "0.1"; "0.2"] 0 here2 placement_leaf
      = Done (OkRc, m')
      ∧ offsets (value m') = (Decimal.mkDec 1 1, Decimal.mkDec 2 1)
      ∧ rectPlacement (value m') = rectPlacement (value placement_leaf)
      ∧ placement (value m') = placement (value placement_leaf)
      ∧ justification (value m') = justification (value placement_leaf)
      ∧ preposition (value m') = preposition (value placement_leaf)
      ∧ relativeTo (value m') = relativeTo (value placement_leaf)
      ∧ here_of m' = here2.
Proof.
  repeat (split; [reflexivity|]).
  apply (PlacementMeta_offset_keeps_the_zone (E := Decimal.ext)
           ["OFFSET"; "0.1"; "0.2"] 0 "0.1" "0.2"); reflexivity.
Defined.

(** ** Witnesses for the leaves *)

(** SCALE in the range 0 to 100: 5 is stored, 500 is out of range, and
    [five] is no number. *)
Lemma IntMeta_parse_ends_in_three_ways_witness :
  IntMeta_parse (E := Decimal.ext) false 0 100 OkRc ["5"] 0 here2 int_leaf
  = Done (OkRc, set_here (set_value int_leaf 5) here2)
  ∧ IntMeta_parse (E := Decimal.ext) false 0 100 OkRc ["500"] 0 here2 int_leaf
    = Done (RangeErrorRc, int_leaf)
  ∧ IntMeta_parse (E := Decimal.ext) false 0 100 OkRc ["five"] 0 here2 int_leaf
    = Done (FailureRc, int_leaf).
Proof.
  split; [|split].
  - apply (proj1 (IntMeta_parse_ends_in_three_ways (E := Decimal.ext) false 0 100 OkRc
                    ["5"] 0 here2 int_leaf) "5" 5); [reflexivity..|lia].
  - apply (proj1 (proj2 (IntMeta_parse_ends_in_three_ways (E := Decimal.ext) false 0 100
                           OkRc ["500"] 0 here2 int_leaf)) "500" 500);
      [reflexivity..|lia].
  - apply (proj1 (proj2 (proj2 (IntMeta_parse_ends_in_three_ways (E := Decimal.ext) false
                                  0 100 OkRc ["five"] 0 here2 int_leaf))) "five");
      reflexivity.
Defined.

Definition constrain_leaf : @ConstrainMeta Decimal.ext :=
  mkConstrainMeta (E := Decimal.ext)
    (mkLeaf "0 !LPUB PLI CONSTRAIN " false false
            (Slots (mkConstrainValue (E := Decimal.ext) 0 (Decimal.mkDec 0 0))
                   (mkConstrainValue (E := Decimal.ext) 0 (Decimal.mkDec 0 0)))
            (Slots here1 here1))
    true.

Definition constrain_leaf_height : @ConstrainMeta Decimal.ext :=
  mkConstrainMeta (E := Decimal.ext)
    (mkLeaf "0 !LPUB PLI CONSTRAIN " false false
            (Slots (mkConstrainValue (E := Decimal.ext) 3 (Decimal.mkDec 23 0))
                   (mkConstrainValue (E := Decimal.ext) 0 (Decimal.mkDec 0 0)))
            (Slots here2 here1))
    false.

(** HEIGHT 23 is accepted and stored; HEIGHT alone is not. *)
Lemma ConstrainMeta_parse_all_or_nothing_witness :
  ConstrainMeta_parse (E := Decimal.ext) ["HEIGHT"; "23"] 0 here2 constrain_leaf
  = Done (OkRc, constrain_leaf_height)
  ∧ (ConstrainMeta_parse (E := Decimal.ext) ["HEIGHT"] 0 here2 constrain_leaf
     = Done (FailureRc, constrain_leaf)
     ∧ ((FailureRc = OkRc ∧ _default constrain_leaf = false
         ∧ here_of (cm_leaf constrain_leaf) = here2
         ∧ ((size_of ["HEIGHT"] - 0 = 1
             ∧ exists a, tok ["HEIGHT"] 0 = Done a ∧ (a = "AREA" ∨ a = "SQUARE")
                 ∧ value (cm_leaf constrain_leaf)
                   = mkConstrainValue (tokenMap_at a)
                                      (cv_constraint (value (cm_leaf constrain_leaf))))
            ∨ (size_of ["HEIGHT"] - 0 = 2
               ∧ exists a b f, tok ["HEIGHT"] 0 = Done a
                   ∧ tok ["HEIGHT"] (0 + 1) = Done b
                   ∧ (a = "WIDTH" ∨ a = "HEIGHT" ∨ a = "COLS")
                   ∧ toFloat (Ext := Decimal.ext) b = Some f
                   ∧ value (cm_leaf constrain_leaf)
                     = mkConstrainValue (tokenMap_at a) f)))
        ∨ (FailureRc = FailureRc ∧ constrain_leaf = constrain_leaf))).
Proof.
  split.
  - apply (proj1 (proj2 (ConstrainMeta_parse_all_or_nothing (E := Decimal.ext)
                           ["HEIGHT"; "23"] 0 here2 constrain_leaf))
             "HEIGHT" "23" (Decimal.mkDec 23 0));
      [reflexivity | reflexivity | reflexivity | right; by left | reflexivity].
  - split; [reflexivity|].
    apply (proj2 (proj2 (ConstrainMeta_parse_all_or_nothing (E := Decimal.ext)
                           ["HEIGHT"] 0 here2 constrain_leaf))
             FailureRc constrain_leaf).
    reflexivity.
Defined.

Definition background_at (here : Where) : LeafMeta (@BackgroundData Decimal.ext) :=
  let v := mkBackgroundData (E := Decimal.ext) BgTransparent 0 0 0 [] []
             (Decimal.mkDec 0 0, Decimal.mkDec 0 0) (Decimal.mkDec 0 0) "" false in
  mkLeaf "0 !LPUB PLI BACKGROUND " false false (Slots v v) (Slots here here1).

Lemma BackgroundMeta_parse_all_or_nothing_witness :
  BackgroundMeta_parse (E := Decimal.ext) ["TRANS"] 0 here2 (background_at here1)
  = Done (OkRc, background_at here2)
  ∧ ((OkRc = FailureRc ∧ background_at here2 = background_at here1)
     ∨ (OkRc = OkRc ∧ here_of (background_at here2) = here2))
  ∧ pushed (background_at here2) = pushed (background_at here1)
  ∧ rd (_value (background_at here2)) (negb (pushed (background_at here1)))
    = rd (_value (background_at here1)) (negb (pushed (background_at here1)))
  ∧ rd (_here (background_at here2)) (negb (pushed (background_at here1)))
    = rd (_here (background_at here1)) (negb (pushed (background_at here1))).
Proof.
  split; [reflexivity|].
  apply (BackgroundMeta_parse_all_or_nothing (E := Decimal.ext) ["TRANS"] 0 here2
           (background_at here1) (background_at here2) OkRc).
  reflexivity.
Defined.
